(** * Vavuu-IPTV: the playlist pipeline of [Get_Vavoo_Channels_with_FTP.py]

    A shallow embedding of the transform-and-publish pipeline:
    [clean_channel_name], [get_channel_url], [convert_json_to_m3u8],
    [upload_to_ftp] and the decision part of [main]; and of the steps of
    [main] before it: [check_and_install_modules],
    [execute_termux_commands], [get_ftp_config] and [get_download_folder],
    each over a record of what the operating system, the console and the
    commands answer.  The pipeline is given twice: first with the writes to
    the playlist file and the import of [requests] taken to succeed, then,
    in the module [Faults], with every step able to fail.

    Text is modelled as [list ascii], read as code points 0..127.  The
    character classes below (whitespace, letters, letter case) are the ones
    Python uses on that range; on 7-bit text the functions of this file and
    the Python functions agree.  Console output ([print]) is not modelled. *)

From Stdlib Require Import List Bool Arith Lia ZArith.
From Stdlib Require Import Strings.Ascii Numbers.DecimalString.
From Stdlib Require Strings.String.
Import ListNotations String.StringSyntax.

Set Warnings "-register-all".

Open Scope string_scope.
Open Scope nat_scope.
Open Scope list_scope.

(** ** Text *)

Definition str := list ascii.

Coercion String.list_ascii_of_string : String.string >-> list.

Definition code (c : ascii) : nat := nat_of_ascii c.

(** [str.isspace] / the regex class [\s] on code points below 128:
    TAB, LF, VT, FF, CR, the separators 0x1C..0x1F and SPACE. *)
Definition is_space (c : ascii) : bool :=
  ((9 <=? code c) && (code c <=? 13)) || ((28 <=? code c) && (code c <=? 32)).

Definition is_upper (c : ascii) : bool := (65 <=? code c) && (code c <=? 90).
Definition is_lower (c : ascii) : bool := (97 <=? code c) && (code c <=? 122).

(** The regex class [[A-Za-z]]. *)
Definition is_alpha (c : ascii) : bool := is_upper c || is_lower c.

Definition upper_char (c : ascii) : ascii :=
  if is_lower c then ascii_of_nat (code c - 32) else c.

Definition lower_char (c : ascii) : ascii :=
  if is_upper c then ascii_of_nat (code c + 32) else c.

(** [s.upper()] *)
Definition upper (s : str) : str := map upper_char s.

Fixpoint drop_while (p : ascii -> bool) (s : str) : str :=
  match s with
  | [] => []
  | c :: s' => if p c then drop_while p s' else s
  end.

(** [s.strip()] with no argument: whitespace is removed at both ends. *)
Definition lstrip (s : str) : str := drop_while is_space s.
Definition rstrip (s : str) : str := rev (drop_while is_space (rev s)).
Definition strip (s : str) : str := rstrip (lstrip s).

Fixpoint starts_with (p s : str) : bool :=
  match p, s with
  | [], _ => true
  | _ :: _, [] => false
  | a :: p', b :: s' => Ascii.eqb a b && starts_with p' s'
  end.

(** [needle in hay] on two strings. *)
Fixpoint substring_in (needle hay : str) : bool :=
  starts_with needle hay ||
  match hay with
  | [] => false
  | _ :: hay' => substring_in needle hay'
  end.

(** ** A backtracking matcher for the regular expressions of the source

    The patterns of [clean_channel_name] use character classes,
    concatenation and the greedy quantifiers [*] and [+].  [rmatch r s k]
    matches [r] at the start of [s] and hands the rest of the text to the
    continuation [k]; alternatives are tried in the order of Python's [re]
    (greedy: one more iteration first, then fewer).  A round of a star has
    to consume a character, so the length of the text bounds the number of
    rounds and is all the fuel [star_loop] needs. *)

Inductive regex : Type :=
| Eps
| Chr (p : ascii -> bool)
| Cat (r1 r2 : regex)
| Star (r : regex).

Definition star_loop (m : str -> (str -> option str) -> option str)
    (k : str -> option str) : nat -> str -> option str :=
  fix loop (fuel : nat) (s : str) {struct fuel} : option str :=
    match fuel with
    | O => k s
    | S fuel' =>
        match m s (fun s' => if length s' <? length s then loop fuel' s' else None) with
        | Some rest => Some rest
        | None => k s
        end
    end.

Fixpoint rmatch (r : regex) (s : str) (k : str -> option str) {struct r} : option str :=
  match r with
  | Eps => k s
  | Chr p =>
      match s with
      | c :: s' => if p c then k s' else None
      | [] => None
      end
  | Cat r1 r2 => rmatch r1 s (fun s' => rmatch r2 s' k)
  | Star r1 => star_loop (rmatch r1) k (length s) s
  end.

Declare Scope regex_scope.
Delimit Scope regex_scope with re.
Bind Scope regex_scope with regex.
Infix ";;" := Cat (at level 61, right associativity) : regex_scope.

(** [r+] *)
Definition Plus (r : regex) : regex := (r ;; Star r)%re.

(** Length of the match of [r] at the start of [s], if there is one. *)
Definition match_len (r : regex) (s : str) : option nat :=
  match rmatch r s Some with
  | Some rest => Some (length s - length rest)
  | None => None
  end.

(** [re.match(r, s)] followed by [.group(0)]. *)
Definition re_match (r : regex) (s : str) : option str :=
  match match_len r s with
  | Some n => Some (firstn n s)
  | None => None
  end.

(** The scan of [re.sub]: [skip] counts the characters of the current match
    that are still to be passed over.  With [skip = 0] the pattern is tried
    at the current position; where it does not match, one character is
    copied and the scan moves on (leftmost match first, matches do not
    overlap, an empty match is replaced and the scan advances by one). *)
Fixpoint sub_scan (r : regex) (repl : str) (skip : nat) (s : str) {struct s} : str :=
  match skip with
  | S n =>
      match s with
      | [] => []
      | _ :: s' => sub_scan r repl n s'
      end
  | O =>
      match match_len r s with
      | Some (S n) =>
          repl ++ match s with
                  | [] => []
                  | _ :: s' => sub_scan r repl n s'
                  end
      | Some O =>
          repl ++ match s with
                  | [] => []
                  | c :: s' => c :: sub_scan r repl 0 s'
                  end
      | None =>
          match s with
          | [] => []
          | c :: s' => c :: sub_scan r repl 0 s'
          end
      end
  end.

(** [re.sub(r, repl, s)] *)
Definition re_sub (r : regex) (repl : str) (s : str) : str := sub_scan r repl 0 s.

(** *** The patterns *)

Definition ws_star : regex := Star (Chr is_space).
Definition ws_plus : regex := Plus (Chr is_space).

(** A pattern letter under [re.IGNORECASE]. *)
Definition ci (x : ascii) : ascii -> bool :=
  fun c => Ascii.eqb (lower_char c) (lower_char x).

Definition is_bar (c : ascii) : bool := Ascii.eqb c "|".

(** The class [[EHD]]. *)
Definition is_EHD (c : ascii) : bool :=
  Ascii.eqb c "E" || Ascii.eqb c "H" || Ascii.eqb c "D".

(** [\s*p q\s*]: optional whitespace around two adjacent characters. *)
Definition pat_pair (p q : ascii -> bool) : regex :=
  (ws_star ;; Chr p ;; Chr q ;; ws_star)%re.

(** [r'\s*HD\s*'] with [re.IGNORECASE] *)
Definition pat_HD : regex := pat_pair (ci "H") (ci "D").

(** [r'\s*FHD\s*'] with [re.IGNORECASE] *)
Definition pat_FHD : regex :=
  (ws_star ;; Chr (ci "F") ;; Chr (ci "H") ;; Chr (ci "D") ;; ws_star)%re.

(** [r'\s*4K\s*'] with [re.IGNORECASE] *)
Definition pat_4K : regex := pat_pair (ci "4") (ci "K").

(** [r'\s*\|[EHD]\s*'] *)
Definition pat_marker : regex := pat_pair is_bar is_EHD.

(** [r'\s+'] *)
Definition pat_spaces : regex := ws_plus.

(** The pattern of line 399: a run of letters [[A-Za-z]+] followed by any
    number of groups [\s+[A-Za-z]+].  It is used with [re.match], which
    anchors at the start already, and its group 1 spans the whole pattern. *)
Definition pat_main_name : regex :=
  (Plus (Chr is_alpha) ;; Star (ws_plus ;; Plus (Chr is_alpha)))%re.

(** ** Catalog values

    What [response.json()] returns: [None], booleans, integers, text, lists
    and dictionaries (keys in insertion order). *)

Inductive pyvalue : Type :=
| PNone
| PBool (b : bool)
| PInt (z : Z)
| PStr (s : str)
| PList (l : list pyvalue)
| PDict (d : list (str * pyvalue)).

(** Truth value of an object in a condition. *)
Definition truthy (v : pyvalue) : bool :=
  match v with
  | PNone => false
  | PBool b => b
  | PInt z => negb (Z.eqb z 0)
  | PStr s => negb (Nat.eqb (length s) 0)
  | PList l => negb (Nat.eqb (length l) 0)
  | PDict d => negb (Nat.eqb (length d) 0)
  end.

Definition str_eqb (a b : str) : bool :=
  if list_eq_dec ascii_dec a b then true else false.

(** ** [clean_channel_name] *)

Definition placeholder_name : str := "Unbekannter Kanal".

Definition exceptions : list str :=
  [ "BLUETV" : str; "SKY BOX" : str; "SKY SELECT" : str; "123 TV" : str;
    "1.2.3. TV" : str; "STERN FILME" : str; "GERMANY KONIG FILME" : str;
    "GERMANY BESONDERE" : str ].

(** [any(exc in name_upper for exc in exceptions)] *)
Definition is_exception (name : str) : bool :=
  existsb (fun exc => substring_in exc (upper name)) exceptions.

Definition collapse_spaces (s : str) : str := re_sub pat_spaces " " s.

Definition strip_markers (s : str) : str := re_sub pat_marker " " s.

(** Lines 393-395: the three token substitutions. *)
Definition strip_quality_tokens (s : str) : str :=
  re_sub pat_4K " " (re_sub pat_FHD " " (re_sub pat_HD " " s)).

(** The exception branch, lines 388-390. *)
Definition clean_exception (name : str) : str :=
  strip (collapse_spaces (strip_markers name)).

(** Lines 399-401. *)
Definition main_name (name : str) : str :=
  match re_match pat_main_name name with
  | Some g => g
  | None => name
  end.

(** The standard branch, lines 393-406. *)
Definition clean_standard (name : str) : str :=
  let name := strip_markers (strip_quality_tokens name) in
  let name := main_name name in
  let name := strip (collapse_spaces name) in
  match name with
  | [] => placeholder_name
  | _ => name
  end.

Definition clean_text (name : str) : str :=
  if is_exception name then clean_exception name else clean_standard name.

Definition clean_channel_name (name : pyvalue) : str :=
  match name with
  | PStr s =>
      match s with
      | [] => placeholder_name
      | _ => clean_text s
      end
  | _ => placeholder_name
  end.

(** ** Text form of a value

    What an f-string writes for [{v}]: the text itself for a [str], the
    [repr] for everything else. *)

Definition dq : ascii := "034"%char.
Definition sq : ascii := "039"%char.
Definition bs : ascii := "092"%char.
Definition nl : ascii := "010"%char.

Definition hex_digit (n : nat) : ascii := nth n ("0123456789abcdef" : str) "0"%char.

Definition repr_char (quote c : ascii) : str :=
  if Ascii.eqb c quote || Ascii.eqb c bs then [bs; c]
  else if code c =? 9 then [bs; "t"%char]
  else if code c =? 10 then [bs; "n"%char]
  else if code c =? 13 then [bs; "r"%char]
  else if (code c <? 32) || (code c =? 127) then
    [bs; "x"%char; hex_digit (code c / 16); hex_digit (code c mod 16)]
  else [c].

Definition repr_str (s : str) : str :=
  let quote :=
    if existsb (Ascii.eqb sq) s && negb (existsb (Ascii.eqb dq) s) then dq else sq in
  quote :: flat_map (repr_char quote) s ++ [quote].

Fixpoint join (sep : str) (parts : list str) : str :=
  match parts with
  | [] => []
  | [x] => x
  | x :: rest => x ++ sep ++ join sep rest
  end.

Definition decimal (z : Z) : str := NilZero.string_of_int (Z.to_int z).

Fixpoint py_repr (v : pyvalue) : str :=
  match v with
  | PNone => "None"
  | PBool true => "True"
  | PBool false => "False"
  | PInt z => decimal z
  | PStr s => repr_str s
  | PList l => "[" ++ join ", " (map py_repr l) ++ "]"
  | PDict d =>
      "{" ++ join ", " (map (fun kv => match kv with
                                        | (k, x) => repr_str k ++ ": " ++ py_repr x
                                        end) d) ++ "}"
  end.

Definition py_str (v : pyvalue) : str :=
  match v with
  | PStr s => s
  | _ => py_repr v
  end.

(** ** Exceptions *)

Inductive exn : Type :=
| AttributeError
| UnboundLocalError
| OSError
| PermissionError
| FileNotFoundError
| TimeoutError
| gaierror
| EOFError
| error_reply
| error_temp
| error_perm
| error_proto
| KeyboardInterrupt.

(** [isinstance(e, Exception)] *)
Definition is_Exception (e : exn) : bool :=
  match e with
  | KeyboardInterrupt => false
  | _ => true
  end.

(** [isinstance(e, OSError)] *)
Definition is_OSError (e : exn) : bool :=
  match e with
  | OSError | PermissionError | FileNotFoundError | TimeoutError | gaierror => true
  | _ => false
  end.

(** [isinstance(e, ftplib.Error)] *)
Definition is_ftplib_Error (e : exn) : bool :=
  match e with
  | error_reply | error_temp | error_perm | error_proto => true
  | _ => false
  end.

(** [ftplib.all_errors = (Error, OSError, EOFError)] *)
Definition in_all_errors (e : exn) : bool :=
  is_ftplib_Error e || is_OSError e ||
  match e with
  | EOFError => true
  | _ => false
  end.

Inductive result (A : Type) : Type :=
| Ok (a : A)
| Raise (e : exn).

Arguments Ok {A} a.
Arguments Raise {A} e.

Definition ok {A} (r : result A) : bool :=
  match r with
  | Ok _ => true
  | Raise _ => false
  end.

Definition only_exceptions {A} (r : result A) : Prop :=
  forall e, r = Raise e -> is_Exception e = true.

(** ** [get_channel_url] *)

Definition bild_url : str := "https://bild.personalstream.tv/v1/master.m3u8".
Definition placeholder_url : str := "https://example.com/placeholder.m3u8".

Definition play_url (channel_id : str) : str :=
  "https://huhu.to/play/" ++ channel_id ++ "/index.m3u8".

(** [channel_name.upper()]: only text has the method. *)
Definition py_upper (v : pyvalue) : result str :=
  match v with
  | PStr s => Ok (upper s)
  | _ => Raise AttributeError
  end.

Definition get_channel_url (channel_id channel_name : pyvalue) : result str :=
  let channel_name := if truthy channel_name then channel_name else PStr "" in
  match py_upper channel_name with
  | Raise e => Raise e
  | Ok name_upper =>
      if substring_in "BILD TV" name_upper then Ok bild_url
      else if truthy channel_id then Ok (play_url (py_str channel_id))
      else Ok placeholder_url
  end.

(** ** [convert_json_to_m3u8] *)

Fixpoint dict_get (d : list (str * pyvalue)) (key : str) (default : pyvalue) : pyvalue :=
  match d with
  | [] => default
  | (k, v) :: d' => if str_eqb k key then v else dict_get d' key default
  end.

(** [channel.get(key, default)]: only a dictionary has the method. *)
Definition channel_get (channel : pyvalue) (key : str) (default : pyvalue) : result pyvalue :=
  match channel with
  | PDict d => Ok (dict_get d key default)
  | _ => Raise AttributeError
  end.

Definition header_line : str :=
  "#EXTM3U8 x-url-tvg=https://vav00.de/sources/epg/epg_de.xml,https://epgshare01.online/epgshare01/epg_ripper_DE1.xml.gz".

Definition user_agent_line : str := "#EXTVLCOPT:http-user-agent=VAVOO/2.6".
Definition referrer_line : str := "#EXTVLCOPT:http-referrer=https://vavoo.tv/".

Definition logo_url : str :=
  "https://raw.githubusercontent.com/SuperNova-Repo/Vavuu-IPTV/refs/heads/main/VAVOO_%26_OTT-Navigator-icon.jpg".

Definition extinf_line (country clean_name : str) : str :=
  "#EXTINF:-1 group-title=" ++ [dq] ++ country ++ [dq] ++
  " tvg-logo=" ++ [dq] ++ logo_url ++ [dq] ++
  " tvg-name=" ++ [dq] ++ clean_name ++ [dq] ++ ", " ++ clean_name.

(** The state the loop works on: the text written to the file so far, the
    counter, and the local variable [original_name], which is unbound
    until line 441 has run once. *)
Record loop_state : Type := {
  written : str;
  processed_channels : nat;
  original_name : option pyvalue
}.

Definition M (A : Type) : Type := loop_state -> loop_state * result A.

Definition ret {A} (a : A) : M A := fun st => (st, Ok a).

Definition bind {A B} (m : M A) (f : A -> M B) : M B :=
  fun st =>
    match m st with
    | (st', Ok a) => f a st'
    | (st', Raise e) => (st', Raise e)
    end.

Notation "'let*' x ':=' m 'in' f" := (bind m (fun x => f))
  (at level 10, x name, m at level 100, f at level 200).
Notation "m >> f" := (bind m (fun _ => f))
  (at level 65, right associativity).

Definition lift {A} (r : result A) : M A := fun st => (st, r).

(** [try: body except Exception: handler] *)
Definition try_except (body handler : M unit) : M unit :=
  fun st =>
    match body st with
    | (st', Ok a) => (st', Ok a)
    | (st', Raise e) => if is_Exception e then handler st' else (st', Raise e)
    end.

(** [m3u8_file.write(line + '\n')], taken to succeed; [Faults.write_text]
    below is the call that can raise. *)
Definition write_line (line : str) : M unit :=
  fun st => ({| written := written st ++ line ++ [nl];
                processed_channels := processed_channels st;
                original_name := original_name st |}, Ok tt).

Definition bind_original_name (v : pyvalue) : M unit :=
  fun st => ({| written := written st;
                processed_channels := processed_channels st;
                original_name := Some v |}, Ok tt).

Definition count_channel : M unit :=
  fun st => ({| written := written st;
                processed_channels := S (processed_channels st);
                original_name := original_name st |}, Ok tt).

(** Lines 439-456, the body of the [try]. *)
Definition channel_body (channel : pyvalue) : M unit :=
  let* country := lift (channel_get channel "country" (PStr "Unbekannt")) in
  let* channel_id := lift (channel_get channel "id" (PStr "")) in
  let* name := lift (channel_get channel "name" (PStr "Unbekannter Kanal")) in
  bind_original_name name >>
  let clean_name := clean_channel_name name in
  let* channel_url := lift (get_channel_url channel_id name) in
  write_line user_agent_line >>
  write_line referrer_line >>
  write_line (extinf_line (py_str country) clean_name) >>
  write_line channel_url >>
  count_channel.

(** Lines 458-460: the handler formats [original_name] into its message,
    which needs the variable to be bound. *)
Definition channel_handler : M unit :=
  fun st =>
    match original_name st with
    | Some _ => (st, Ok tt)
    | None => (st, Raise UnboundLocalError)
    end.

Fixpoint for_channels (channels : list pyvalue) : M unit :=
  match channels with
  | [] => ret tt
  | channel :: rest =>
      try_except (channel_body channel) channel_handler >>
      for_channels rest
  end.

Definition initial_state : loop_state :=
  {| written := []; processed_channels := 0; original_name := None |}.

(** Lines 431-460: what happens while the file is open. *)
Definition write_playlist (channels : list pyvalue) : loop_state * result unit :=
  (write_line header_line >> for_channels channels) initial_state.

(** The function: [fs_error] is the error that creating the directory or
    opening the file meets, if any, taken to be an [Exception]; the writes
    and the closing of the file are taken to succeed
    ([Faults.convert_json_to_m3u8] below drops both).  The result is the
    returned flag and the content of the file, if the file was opened. *)
Definition convert_json_to_m3u8 (fs_error : option exn) (channels : list pyvalue)
  : bool * option str :=
  match fs_error with
  | Some _ => (false, None)
  | None =>
      match write_playlist channels with
      | (st, Ok _) => (true, Some (written st))
      | (st, Raise _) => (false, Some (written st))
      end
  end.

(** Complete lines of a text and the unfinished rest after the last line
    break. *)
Fixpoint lines_of (s : str) : list str * str :=
  match s with
  | [] => ([], [])
  | c :: s' =>
      let (ls, rest) := lines_of s' in
      if Ascii.eqb c nl then
        ([] :: ls, rest)
      else
        match ls with
        | [] => ([], c :: rest)
        | l :: ls' => ((c :: l) :: ls', rest)
        end
  end.


(** ** [download_json_from_url] and [upload_to_ftp] *)

(** [response] is what the request and [response.json()] come to: the
    parsed value or the error raised on the way.  Every handler of the
    function returns [None].  [import requests] is taken to succeed
    ([Faults.download_json_from_url] below drops that). *)
Definition download_json_from_url (response : result pyvalue) : result pyvalue :=
  match response with
  | Ok v => Ok v
  | Raise e => if is_Exception e then Ok PNone else Raise e
  end.

(** [s.replace(old, new)] for a non-empty [old]; [skip] as in [sub_scan]. *)
Fixpoint replace_scan (old new : str) (skip : nat) (s : str) {struct s} : str :=
  match skip with
  | S n =>
      match s with
      | [] => []
      | _ :: s' => replace_scan old new n s'
      end
  | O =>
      match s with
      | [] => []
      | c :: s' =>
          if starts_with old s then new ++ replace_scan old new (length old - 1) s'
          else c :: replace_scan old new 0 s'
      end
  end.

Definition replace (old new s : str) : str := replace_scan old new 0 s.

(** The remote side and the local file as the function meets them: each
    operation succeeds ([None]) or raises. *)
Record ftp_world : Type := {
  connect : str -> option exn;
  login : str -> str -> option exn;
  cwd : str -> option exn;
  open_rb : str -> option exn;
  storbinary : str -> option exn;
  quit : option exn
}.

Definition step (o : option exn) : result unit :=
  match o with
  | None => Ok tt
  | Some e => Raise e
  end.

Definition and_then {A B} (r : result A) (f : A -> result B) : result B :=
  match r with
  | Ok a => f a
  | Raise e => Raise e
  end.

Notation "r 'then_' f" := (and_then r (fun _ => f))
  (at level 65, right associativity).

Section Publish.

(** [os.path.basename] of the platform. *)
Variable basename : str -> str.

Variable world : ftp_world.

(** Lines 300-305. *)
Definition ftp_connect (ftp_host : str) : result unit :=
  match connect world ftp_host with
  | None => Ok tt
  | Some e =>
      match e with
      | gaierror =>
          let clean_host := replace "ftps://" "" (replace "ftp://" "" ftp_host) in
          step (connect world clean_host)
      | _ => Raise e
      end
  end.

(** Lines 311-317. *)
Definition ftp_change_dir (remote_path : str) : result unit :=
  if negb (length remote_path =? 0) && negb (str_eqb remote_path "/") then
    match cwd world remote_path with
    | None => Ok tt
    | Some e =>
        match e with
        | error_perm => Ok tt
        | _ => Raise e
        end
    end
  else Ok tt.

(** Lines 291-330, the body of the [try]. *)
Definition ftp_exchange (file_path ftp_host ftp_user ftp_pass remote_path : str)
  : result bool :=
  ftp_connect ftp_host then_
  step (login world ftp_user ftp_pass) then_
  ftp_change_dir remote_path then_
  let filename := basename file_path in
  step (open_rb world file_path) then_
  step (storbinary world ("STOR " ++ filename)) then_
  step (quit world) then_
  Ok true.

Definition upload_to_ftp (file_path ftp_host ftp_user ftp_pass remote_path : str)
  : result bool :=
  match ftp_exchange file_path ftp_host ftp_user ftp_pass remote_path with
  | Ok b => Ok b
  | Raise e =>
      if in_all_errors e then Ok false
      else if is_Exception e then Ok false
      else Raise e
  end.

(** ** [main], from step 4 on *)

Inductive message : Type :=
| MsgLoadFailed
| MsgConvertFailed
| MsgSavedNoUpload
| MsgUploaded
| MsgUploadFailed.

(** What a run leaves behind: the playlist file if one was opened, whether
    the upload was started, and the closing message. *)
Record run : Type := {
  playlist_file : option str;
  upload_started : bool;
  report : message
}.

(** Lines 528-556, with [channels] the value of
    [download_json_from_url(json_url)]. *)
Definition main_playlist (channels : pyvalue) (fs_error : option exn)
    (m3u8_file_path : str) (upload_enabled : bool)
    (ftp_config : option (str * str * str * str)) : result run :=
  match channels with
  | PList l =>
      if truthy channels then
        match convert_json_to_m3u8 fs_error l with
        | (true, file) =>
            match upload_enabled, ftp_config with
            | true, Some (ftp_host, ftp_user, ftp_pass, remote_path) =>
                match upload_to_ftp m3u8_file_path ftp_host ftp_user ftp_pass remote_path with
                | Ok true =>
                    Ok {| playlist_file := file; upload_started := true; report := MsgUploaded |}
                | Ok false =>
                    Ok {| playlist_file := file; upload_started := true; report := MsgUploadFailed |}
                | Raise e => Raise e
                end
            | _, _ =>
                Ok {| playlist_file := file; upload_started := false; report := MsgSavedNoUpload |}
            end
        | (false, file) =>
            Ok {| playlist_file := file; upload_started := false; report := MsgConvertFailed |}
        end
      else
        Ok {| playlist_file := None; upload_started := false; report := MsgLoadFailed |}
  | _ => Ok {| playlist_file := None; upload_started := false; report := MsgLoadFailed |}
  end.

Definition main (response : result pyvalue) (fs_error : option exn)
    (m3u8_file_path : str) (upload_enabled : bool)
    (ftp_config : option (str * str * str * str)) : result run :=
  match download_json_from_url response with
  | Ok channels => main_playlist channels fs_error m3u8_file_path upload_enabled ftp_config
  | Raise e => Raise e
  end.

End Publish.

(** ** Definitions the statements below use *)

Definition is_dict (v : pyvalue) : bool :=
  match v with
  | PDict _ => true
  | _ => false
  end.

Definition is_none {A} (o : option A) : bool :=
  match o with
  | None => true
  | Some _ => false
  end.

Definition exn_eq_dec (a b : exn) : {a = b} + {a <> b}.
Proof. decide equality. Defined.

Definition raises (o : option exn) (e : exn) : bool :=
  match o with
  | Some e' => if exn_eq_dec e' e then true else false
  | None => false
  end.

(** Every error the remote side or the file system raises is an
    [Exception] (the only errors left out are interrupts of the process). *)
Definition raises_exceptions_only (world : ftp_world) : Prop :=
  (forall h e, connect world h = Some e -> is_Exception e = true) /\
  (forall u p e, login world u p = Some e -> is_Exception e = true) /\
  (forall d e, cwd world d = Some e -> is_Exception e = true) /\
  (forall f e, open_rb world f = Some e -> is_Exception e = true) /\
  (forall c e, storbinary world c = Some e -> is_Exception e = true) /\
  (forall e, quit world = Some e -> is_Exception e = true).

(** The publish sequence in the words of its description: connect (with
    one retry on a name-resolution error, the scheme prefix removed), log
    in, change directory on a best-effort basis, upload, quit. *)
Definition exchange_succeeds (basename : str -> str) (world : ftp_world)
    (file_path ftp_host ftp_user ftp_pass remote_path : str) : bool :=
  (is_none (connect world ftp_host) ||
   (raises (connect world ftp_host) gaierror &&
    is_none (connect world (replace "ftps://" "" (replace "ftp://" "" ftp_host))))) &&
  is_none (login world ftp_user ftp_pass) &&
  ((length remote_path =? 0) || str_eqb remote_path "/" ||
   is_none (cwd world remote_path) || raises (cwd world remote_path) error_perm) &&
  is_none (open_rb world file_path) &&
  is_none (storbinary world ("STOR " ++ basename file_path)) &&
  is_none (quit world).

(** A server that refuses the directory change and accepts the rest. *)
Definition no_such_dir_world : ftp_world :=
  {| connect := fun _ => None;
     login := fun _ _ => None;
     cwd := fun _ => Some error_perm;
     open_rb := fun _ => None;
     storbinary := fun _ => None;
     quit := None |}.

Definition ProSieben : pyvalue :=
  PDict [("id" : str, PStr "123"); ("name" : str, PStr "ProSieben HD|E");
         ("country" : str, PStr "Germany")].

(** A record whose raw name holds BILD TV while its cleaned name does not. *)
Definition bild_record : pyvalue :=
  PDict [("id" : str, PStr "7"); ("name" : str, PStr "A1 BILD TV");
         ("country" : str, PStr "Germany")].

Definition playlist_file_opened (r : result run) : bool :=
  match r with
  | Ok x => negb (is_none (playlist_file x))
  | Raise _ => false
  end.

(** The texts a pattern describes. *)
Inductive lang : regex -> str -> Prop :=
| lang_eps : lang Eps []
| lang_chr p c : p c = true -> lang (Chr p) [c]
| lang_cat r1 r2 a b : lang r1 a -> lang r2 b -> lang (Cat r1 r2) (a ++ b)
| lang_star_nil r : lang (Star r) []
| lang_star_app r a b : lang r a -> lang (Star r) b -> lang (Star r) (a ++ b).

(** What [\s*p q\s*] does at the start of a text, in closed form: the
    rest of the text after the match. *)
Definition pair_match (p q : ascii -> bool) (s : str) : option str :=
  match drop_while is_space s with
  | c1 :: c2 :: t => if p c1 && q c2 then Some (drop_while is_space t) else None
  | _ => None
  end.

(** The text holds a character of [p] directly followed by one of [q]. *)
Fixpoint has_pair (p q : ascii -> bool) (s : str) : bool :=
  match s with
  | [] => false
  | c1 :: s' =>
      match s' with
      | c2 :: _ => p c1 && q c2
      | [] => false
      end || has_pair p q s'
  end.

(** The characters of a text that are not whitespace. *)
Definition nonspace (s : str) : str := filter (fun c => negb (is_space c)) s.

(** [re.sub(r'\s+', ' ', s)] as a scan with one flag. *)
Fixpoint squeeze (in_run : bool) (s : str) : str :=
  match s with
  | [] => []
  | c :: s' =>
      if is_space c then
        if in_run then squeeze true s' else " "%char :: squeeze true s'
      else c :: squeeze false s'
  end.

Definition starts_solid (s : str) : bool :=
  match s with
  | [] => false
  | c :: _ => negb (is_space c)
  end.

(** Every whitespace character is a single space. *)
Fixpoint loose (s : str) : bool :=
  match s with
  | [] => true
  | c :: s' =>
      (if is_space c then
         Ascii.eqb c " " && match s' with
                            | [] => true
                            | d :: _ => negb (is_space d)
                            end
       else true) && loose s'
  end.

(** Every whitespace character is a single space between two other
    characters of the text, the end excluded. *)
Fixpoint spaced (s : str) : bool :=
  match s with
  | [] => true
  | c :: s' =>
      (if is_space c then Ascii.eqb c " " && starts_solid s' else true) && spaced s'
  end.

(** Whitespace is collapsed and trimmed. *)
Definition tidy (s : str) : bool :=
  spaced s && match s with
              | [] => true
              | c :: _ => negb (is_space c)
              end.

(** [s.split()]: the whitespace-separated words of a text; [cur] is the
    word being read, last character first. *)
Fixpoint words_from (cur : str) (s : str) : list str :=
  match s with
  | [] =>
      match cur with
      | [] => []
      | _ => [rev cur]
      end
  | c :: s' =>
      if is_space c then
        match cur with
        | [] => words_from [] s'
        | _ => rev cur :: words_from [] s'
        end
      else words_from (c :: cur) s'
  end.

Definition words (s : str) : list str := words_from [] s.

(** The word is HD, FHD or 4K in some letter case. *)
Definition is_quality_token (w : str) : bool :=
  existsb (str_eqb (upper w)) ["HD" : str; "FHD" : str; "4K" : str].

(** C5 as it is stated, for one name: where no word of the name is one of
    the tokens, the token substitutions leave the name as it is. *)
Definition keeps_embedded_tokens (name : str) : Prop :=
  is_exception name = false ->
  existsb is_quality_token (words name) = false ->
  strip_quality_tokens name = name.

(** The name without its markers, in the words of the description: each
    bar that is directly followed by E, H or D goes away together with
    that letter, and nothing else does. *)
Fixpoint without_markers (s : str) : str :=
  match s with
  | [] => []
  | c1 :: s' =>
      match s' with
      | c2 :: s'' =>
          if is_bar c1 && is_EHD c2 then without_markers s''
          else c1 :: without_markers s'
      | [] => [c1]
      end
  end.

(** A stretch of text that the marker substitution, the collapse of
    whitespace and the trimming leave in one piece: it starts with a
    character that is neither whitespace, nor a bar, nor a letter of the
    markers, holds no bar, and its blanks are single spaces inside it. *)
Definition solid (m : str) : bool :=
  match m with
  | [] => false
  | c :: _ => negb (is_space c) && negb (is_EHD (upper_char c))
  end && negb (existsb is_bar m) && spaced m.

(** A character the marker pattern can consume. *)
Definition marker_char (c : ascii) : bool := is_space c || is_bar c || is_EHD c.

(** The characters a pattern can consume. *)
Fixpoint accepts (r : regex) (c : ascii) : bool :=
  match r with
  | Eps => false
  | Chr p => p c
  | Cat r1 r2 => accepts r1 c || accepts r2 c
  | Star r1 => accepts r1 c
  end.

Definition alpha_or_blank (c : ascii) : bool := is_alpha c || Ascii.eqb c " ".

(** The text starts with whitespace. *)
Definition starts_blank (s : str) : bool :=
  match s with
  | [] => false
  | c :: _ => is_space c
  end.

(** The inputs on which a second cleaning changes nothing: what is not
    text, the names of the exception list, and the names whose text does
    not start with whitespace once the tokens and markers are replaced, so
    that the match at line 399 meets the text that line 404 would leave. *)
Definition cleans_to_fixed_point (name : pyvalue) : bool :=
  match name with
  | PStr s =>
      is_exception s || negb (starts_blank (strip_markers (strip_quality_tokens s)))
  | _ => true
  end.

(** The text holds no line break. *)
Definition one_line (s : str) : bool := negb (existsb (Ascii.eqb nl) s).

(** The lines, each followed by a line break. *)
Definition unlines (ls : list str) : str := flat_map (fun l => l ++ [nl]) ls.

Definition channel_country (d : list (str * pyvalue)) : pyvalue :=
  dict_get d "country" (PStr "Unbekannt").
Definition channel_id (d : list (str * pyvalue)) : pyvalue :=
  dict_get d "id" (PStr "").
Definition channel_name (d : list (str * pyvalue)) : pyvalue :=
  dict_get d "name" (PStr "Unbekannter Kanal").

(** A record that serializes without error: a mapping whose name is text
    or is empty, so that [get_channel_url] does not raise. *)
Definition serializes (channel : pyvalue) : bool :=
  match channel with
  | PDict d => ok (get_channel_url (channel_id d) (channel_name d))
  | _ => false
  end.

(** A record that serializes without error and on four lines: its
    country and its URL hold no line break. *)
Definition well_formed (channel : pyvalue) : bool :=
  match channel with
  | PDict d =>
      match get_channel_url (channel_id d) (channel_name d) with
      | Ok url => one_line url && one_line (py_str (channel_country d))
      | Raise _ => false
      end
  | _ => false
  end.

(** The four lines of a record. *)
Definition entry_lines (channel : pyvalue) : list str :=
  match channel with
  | PDict d =>
      match get_channel_url (channel_id d) (channel_name d) with
      | Ok url =>
          [user_agent_line; referrer_line;
           extinf_line (py_str (channel_country d)) (clean_channel_name (channel_name d));
           url]
      | Raise _ => []
      end
  | _ => []
  end.

Fixpoint has_key (d : list (str * pyvalue)) (key : str) : bool :=
  match d with
  | [] => false
  | (k, _) :: d' => str_eqb k key || has_key d' key
  end.

(** The record of the scenario: no id, empty name, empty country. *)
Definition blank_record : pyvalue :=
  PDict [("id" : str, PNone); ("name" : str, PStr ""); ("country" : str, PStr "")].

(** The name with a blank in the place of each marker, in the words of the
    description: a bar that is directly followed by E, H or D is a marker. *)
Fixpoint markers_as_blanks (s : str) : str :=
  match s with
  | [] => []
  | c1 :: s' =>
      match s' with
      | c2 :: s'' =>
          if is_bar c1 && is_EHD c2 then " "%char :: markers_as_blanks s''
          else c1 :: markers_as_blanks s'
      | [] => [c1]
      end
  end.

(** A record whose country holds a line break. *)
Definition line_break_record : pyvalue :=
  PDict [("id" : str, PStr "1"); ("name" : str, PStr "Arte");
         ("country" : str, PStr ("Ger" ++ [nl] ++ "many"))].

(** ** Further definitions: the parts of the script around the pipeline *)


Definition is_text (v : pyvalue) : bool :=
  match v with
  | PStr _ => true
  | _ => false
  end.


Definition starts_alpha (s : str) : bool :=
  match s with
  | [] => false
  | c :: _ => is_alpha c
  end.

(** The same remote side with another answer to the directory change. *)
Definition with_cwd (world : ftp_world) (answer : str -> option exn) : ftp_world :=
  {| connect := connect world;
     login := login world;
     cwd := answer;
     open_rb := open_rb world;
     storbinary := storbinary world;
     quit := quit world |}.

(** ** The console: [get_password_input] and [get_ftp_config] *)

(** [s.lower()] *)
Definition lower (s : str) : str := map lower_char s.

(** What the calls of [input()] will meet, in their order: a line, or the
    error raised in its place.  When nothing is left, the input has ended
    and [input()] raises [EOFError]. *)
Definition console : Type := list (result str).

Definition Con (A : Type) : Type := console -> result A * console.

Definition input : Con str :=
  fun c =>
    match c with
    | [] => (Raise EOFError, [])
    | answer :: c' => (answer, c')
    end.

Definition con_ret {A} (a : A) : Con A := fun c => (Ok a, c).

Definition con_bind {A B} (m : Con A) (f : A -> Con B) : Con B :=
  fun c =>
    match m c with
    | (Ok a, c') => f a c'
    | (Raise e, c') => (Raise e, c')
    end.

Notation "'ask' x ':=' m 'in' f" := (con_bind m (fun x => f))
  (at level 10, x name, m at level 100, f at level 200).

(** [try: body except (classes): handler] *)
Definition con_try {A} (body : Con A) (catches : exn -> bool) (handler : Con A) : Con A :=
  fun c =>
    match body c with
    | (Ok a, c') => (Ok a, c')
    | (Raise e, c') => if catches e then handler c' else (Raise e, c')
    end.

(** Lines 143-153; [getpass] is what [getpass.getpass(prompt)] comes to. *)
Definition get_password_input (getpass : result str) : Con str :=
  fun c =>
    match getpass with
    | Ok password => (Ok password, c)
    | Raise e => if is_Exception e then input c else (Raise e, c)
    end.

(** [answer in ['j', 'ja', 'y', 'yes', '1']] *)
Definition is_yes (answer : str) : bool :=
  existsb (str_eqb answer) ["j" : str; "ja" : str; "y" : str; "yes" : str; "1" : str].

(** [except (EOFError, KeyboardInterrupt)] *)
Definition is_abort (e : exn) : bool :=
  match e with
  | EOFError | KeyboardInterrupt => true
  | _ => false
  end.

Definition is_empty (s : str) : bool := length s =? 0.

Definition ftp_target : Type := (str * str * str * str)%type.

(** [return False, None] *)
Definition declined : bool * option ftp_target := (false, None).

(** Lines 172-203, the body of the second [try]. *)
Definition ftp_prompts (getpass : result str) : Con (bool * option ftp_target) :=
  ask host_line := input in
  let ftp_host := strip host_line in
  if is_empty ftp_host then con_ret declined else
  ask user_line := input in
  let ftp_user := strip user_line in
  if is_empty ftp_user then con_ret declined else
  ask ftp_pass := get_password_input getpass in
  if is_empty ftp_pass then con_ret declined else
  ask path_line := input in
  let remote_path := if is_empty (strip path_line) then ("/" : str) else strip path_line in
  ask confirm_line := input in
  let confirm := strip (lower confirm_line) in
  if negb (is_yes confirm) then con_ret declined
  else con_ret (true, Some (ftp_host, ftp_user, ftp_pass, remote_path)).

Definition get_ftp_config (getpass : result str) : Con (bool * option ftp_target) :=
  fun c =>
    match input c with
    | (Raise e, c') => if is_abort e then (Ok declined, c') else (Raise e, c')
    | (Ok choice_line, c') =>
        let upload_choice := strip (lower choice_line) in
        if is_yes upload_choice then
          con_try (ftp_prompts getpass) is_abort (con_ret declined) c'
        else (Ok declined, c')
    end.

(** ** The platform: [is_termux], [is_android], [get_download_folder] *)

(** The operating system as the script meets it.  [probe path] is the
    outcome of the write test of a candidate folder: [os.makedirs], then
    create, write and remove [.write_test] inside it. *)
Record platform_world : Type := {
  system_name : str;
  path_exists : str -> bool;
  environ : list (str * str);
  expanduser : str -> str;
  getcwd : str;
  path_join : list str -> str;
  probe : str -> option exn;
  makedirs : str -> option exn
}.

(** [os.environ.get(key, default)] *)
Fixpoint environ_get (env : list (str * str)) (key default : str) : str :=
  match env with
  | [] => default
  | (k, v) :: env' => if str_eqb k key then v else environ_get env' key default
  end.

(** [key in os.environ] *)
Definition environ_has (env : list (str * str)) (key : str) : bool :=
  existsb (fun kv => str_eqb (fst kv) key) env.

Definition is_termux (w : platform_world) : bool :=
  path_exists w "/data/data/com.termux" ||
  starts_with "/data/data/com.termux" (environ_get (environ w) "PREFIX" "").

Definition is_android (w : platform_world) : bool :=
  path_exists w "/system/build.prop" ||
  path_exists w "/android_root" ||
  environ_has (environ w) "ANDROID_ROOT".

Definition folder_name : str := "Vavoo-IPTV".

Definition android_paths (w : platform_world) : list str :=
  [ "/storage/emulated/0/Download/Vavoo-IPTV" : str;
    "/sdcard/Download/Vavoo-IPTV" : str;
    expanduser w "~/storage/downloads/Vavoo-IPTV";
    expanduser w "~/downloads/Vavoo-IPTV";
    path_join w [getcwd w; folder_name] ].

Definition windows_paths (w : platform_world) : list str :=
  [ path_join w [expanduser w "~"; "Downloads" : str; folder_name];
    path_join w [environ_get (environ w) "USERPROFILE" ""; "Downloads" : str; folder_name];
    path_join w ["C:" : str; "Users" : str; environ_get (environ w) "USERNAME" "User";
                 "Downloads" : str; folder_name];
    path_join w [getcwd w; folder_name] ].

Definition darwin_paths (w : platform_world) : list str :=
  [ path_join w [expanduser w "~"; "Downloads" : str; folder_name];
    path_join w ["/Users" : str; environ_get (environ w) "USER" "user";
                 "Downloads" : str; folder_name];
    path_join w [getcwd w; folder_name] ].

Definition linux_paths (w : platform_world) : list str :=
  [ path_join w [expanduser w "~"; "Downloads" : str; folder_name];
    path_join w [expanduser w "~"; "downloads" : str; folder_name];
    path_join w ["/home" : str; environ_get (environ w) "USER" "user";
                 "Downloads" : str; folder_name];
    path_join w [getcwd w; folder_name] ].

(** The lists the branches at lines 238-262 assign to [paths]. *)
Definition desktop_paths (w : platform_world) : list str :=
  let system := lower (system_name w) in
  if str_eqb system "windows" then windows_paths w
  else if str_eqb system "darwin" then darwin_paths w
  else linux_paths w.

(** The loops at lines 226-236 and 265-276: the first folder that passes
    the write test; a folder that fails it with an [OSError] is passed
    over, any other error leaves the loop. *)
Fixpoint first_writable (w : platform_world) (paths : list str) : result (option str) :=
  match paths with
  | [] => Ok None
  | path :: rest =>
      match probe w path with
      | None => Ok (Some path)
      | Some e => if is_OSError e then first_writable w rest else Raise e
      end
  end.

(** Lines 278-286. *)
Definition fallback_folder (w : platform_world) : str :=
  let fallback_path := path_join w [getcwd w; folder_name] in
  match makedirs w fallback_path with
  | None => fallback_path
  | Some _ => getcwd w
  end.

(** In the Android branch [paths] is never assigned, so the loop at line
    265 cannot start when that branch has found no folder. *)
Definition get_download_folder (w : platform_world) : result str :=
  if is_android w || is_termux w then
    match first_writable w (android_paths w) with
    | Raise e => Raise e
    | Ok (Some path) => Ok path
    | Ok None => Raise UnboundLocalError
    end
  else
    match first_writable w (desktop_paths w) with
    | Raise e => Raise e
    | Ok (Some path) => Ok path
    | Ok None => Ok (fallback_folder w)
    end.

(** ** Commands: [execute_termux_commands], [check_and_install_modules] *)

(** What running a command comes to: it ends with a return code, runs
    into its timeout, or cannot be started. *)
Inductive proc_result : Type :=
| Exited (returncode : Z)
| TimedOut
| Failed (e : exn).

Record shell_world : Type := {
  which : str -> bool;
  subprocess_run : list str -> proc_result
}.

Definition termux_commands : list str :=
  [ "pkg update -y" : str; "pkg upgrade -y" : str; "pkg install python -y" : str;
    "pkg install curl -y" : str; "pkg install wget -y" : str ].

(** Lines 113-127: every command is run; only an error that is no
    [Exception] leaves the loop.  The result is that error, if any, and the
    commands started. *)
Fixpoint run_commands (sh : shell_world) (cmds : list str) : option exn * list (list str) :=
  match cmds with
  | [] => (None, [])
  | cmd :: rest =>
      let argv := words cmd in
      let go_on := let (r, started) := run_commands sh rest in (r, argv :: started) in
      match subprocess_run sh argv with
      | Exited _ => go_on
      | TimedOut => go_on
      | Failed e => if is_Exception e then go_on else (Some e, [argv])
      end
  end.

(** The function: its result and the commands it has started. *)
Definition execute_termux_commands (w : platform_world) (sh : shell_world)
  : result bool * list (list str) :=
  if negb (is_termux w) then (Ok true, [])
  else if negb (which sh "pkg") then (Ok true, [])
  else
    match run_commands sh termux_commands with
    | (Some e, started) => (Raise e, started)
    | (None, started) =>
        if which sh "termux-setup-storage" then
          (Ok true, started ++ [["termux-setup-storage" : str]])
        else (Ok true, started)
    end.

Definition required_modules : list (str * option str) :=
  [ ("requests" : str, Some ("requests" : str)); ("ftplib" : str, None); ("re" : str, None);
    ("json" : str, None); ("os" : str, None); ("sys" : str, None); ("platform" : str, None);
    ("subprocess" : str, None); ("importlib" : str, None); ("datetime" : str, None);
    ("shutil" : str, None) ].

(** What [importlib.import_module] comes to. *)
Inductive import_result : Type :=
| Imported
| ImportError
| ImportRaises (e : exn).

Record module_world : Type := {
  import_module : str -> import_result;
  sys_executable : str;
  check_call : list str -> proc_result
}.

(** Lines 32-41: the modules to install. *)
Fixpoint missing_modules (mw : module_world) (modules : list (str * option str))
  : result (list str) :=
  match modules with
  | [] => Ok []
  | (module_name, pip_name) :: rest =>
      match import_module mw module_name with
      | ImportRaises e => Raise e
      | Imported => missing_modules mw rest
      | ImportError =>
          match missing_modules mw rest with
          | Raise e => Raise e
          | Ok missing =>
              match pip_name with
              | Some name => Ok (name :: missing)
              | None => Ok missing
              end
          end
      end
  end.

Definition pip_command (python_exe module : str) : list str :=
  [python_exe; "-m" : str; "pip" : str; "install" : str; "--upgrade" : str; module].

Definition pip_fallback_command (module : str) : list str :=
  ["pip" : str; "install" : str; "--upgrade" : str; module].

(** How the loop over the interpreters ends: with the module installed,
    with no interpreter left, with an [Exception] that goes to the handler
    at line 72, or with an error that is no [Exception]. *)
Inductive attempt : Type :=
| Installed
| NotInstalled
| GaveUp
| Escapes (e : exn).

(** Lines 52-60: the interpreters in their order.  A return code other
    than 0 ([CalledProcessError]) and a missing interpreter lead to the
    next one. *)
Fixpoint try_executables (mw : module_world) (module : str) (exes : list str)
  : attempt * list (list str) :=
  match exes with
  | [] => (NotInstalled, [])
  | python_exe :: rest =>
      let cmd := pip_command python_exe module in
      let next := let (a, started) := try_executables mw module rest in (a, cmd :: started) in
      match check_call mw cmd with
      | Exited code => if Z.eqb code 0 then (Installed, [cmd]) else next
      | TimedOut => (GaveUp, [cmd])
      | Failed e =>
          match e with
          | FileNotFoundError => next
          | _ => if is_Exception e then (GaveUp, [cmd]) else (Escapes e, [cmd])
          end
      end
  end.

Definition python_executables (mw : module_world) : list str :=
  [sys_executable mw; "python3" : str; "python" : str; "py" : str].

(** Lines 46-75 for one module: [Ok true] to go on with the next module,
    [Ok false] for [return False]. *)
Definition install_module (mw : module_world) (module : str)
  : result bool * list (list str) :=
  match try_executables mw module (python_executables mw) with
  | (Installed, started) => (Ok true, started)
  | (GaveUp, started) => (Ok false, started)
  | (Escapes e, started) => (Raise e, started)
  | (NotInstalled, started) =>
      let cmd := pip_fallback_command module in
      match check_call mw cmd with
      | Exited code => (Ok (Z.eqb code 0), started ++ [cmd])
      | _ => (Ok false, started ++ [cmd])
      end
  end.

Fixpoint install_modules (mw : module_world) (missing : list str)
  : result bool * list (list str) :=
  match missing with
  | [] => (Ok true, [])
  | module :: rest =>
      match install_module mw module with
      | (Ok true, started) =>
          let (r, started') := install_modules mw rest in (r, started ++ started')
      | (r, started) => (r, started)
      end
  end.

(** The function: its result and the commands it has started. *)
Definition check_and_install_modules (mw : module_world) : result bool * list (list str) :=
  match missing_modules mw required_modules with
  | Raise e => (Raise e, [])
  | Ok missing => install_modules mw missing
  end.

(** The commands that can install [module], in the order of their use. *)
Definition install_commands (mw : module_world) (module : str) : list (list str) :=
  map (fun python_exe => pip_command python_exe module) (python_executables mw)
  ++ [pip_fallback_command module].

(** ** The whole of [main] *)

(** How the script ends: [sys.exit(1)], the end of the playlist part, the
    message for Ctrl+C, or the message for an unexpected error. *)
Inductive ending : Type :=
| Exit1
| Ended (r : run)
| Interrupted
| Unexpected (e : exn).

(** The handlers at lines 558-562. *)
Definition handlers (e : exn) : ending :=
  if is_Exception e then Unexpected e else Interrupted.

(** Lines 501-503 and 508-510. *)
Definition press_enter_and_exit (c : console) : ending :=
  match input c with
  | (Ok _, _) => Exit1
  | (Raise e, _) => handlers e
  end.

Definition playlist_name : str := "Vavoo-IPTV.m3u8".

Section Script.

Variable basename : str -> str.
Variable ftp : ftp_world.
Variable mw : module_world.
Variable w : platform_world.
Variable sh : shell_world.
Variable getpass : result str.
Variable response : result pyvalue.
Variable fs_error : option exn.

(** Lines 486-556 with the handlers. *)
Definition script (c : console) : ending :=
  match fst (check_and_install_modules mw) with
  | Raise e => handlers e
  | Ok false => press_enter_and_exit c
  | Ok true =>
      match fst (execute_termux_commands w sh) with
      | Raise e => handlers e
      | Ok false => press_enter_and_exit c
      | Ok true =>
          match get_ftp_config getpass c with
          | (Raise e, _) => handlers e
          | (Ok (upload_enabled, ftp_config), _) =>
              match get_download_folder w with
              | Raise e => handlers e
              | Ok download_folder =>
                  let m3u8_file_path := path_join w [download_folder; playlist_name] in
                  match main basename ftp response fs_error m3u8_file_path
                          upload_enabled ftp_config with
                  | Raise e => handlers e
                  | Ok r => Ended r
                  end
              end
          end
      end
  end.

End Script.

(** ** Definitions the statements on the platform use *)

(** The candidate folders of the branch taken. *)
Definition candidates (w : platform_world) : list str :=
  if is_android w || is_termux w then android_paths w else desktop_paths w.

(** The write test of [path] fails with an error the loops pass over. *)
Definition unwritable (w : platform_world) (path : str) : Prop :=
  exists e, probe w path = Some e /\ is_OSError e = true.

(** Every prompt of the dialog is answered, or ends the input, or is
    interrupted. *)
Definition aborts_only (c : console) : Prop :=
  forall e, In (Raise e) c -> is_abort e = true.

(** The remote path the dialog makes of the answer to its fourth prompt. *)
Definition remote_path_of (path_line : str) : str :=
  if is_empty (strip path_line) then ("/" : str) else strip path_line.

(** ** The converter and the download with every step able to fail

    The definitions of the pipeline above take three steps to succeed: the
    writes to the playlist file, the closing of the file at the end of the
    [with] block, and [import requests].  The module below drops that.  A
    write that raises is taken to add nothing to the file, as a text that
    cannot be encoded does: the text is encoded before any of it is
    buffered. *)

Module Faults.

(** The playlist file as the function meets it: [open_error] is the error
    of creating the directory or opening the file, [write_error n] the
    error of the call of [write] number [n] (from 0, the header), and
    [close_error] the error of closing the file. *)
Record file_world : Type := {
  open_error : option exn;
  write_error : nat -> option exn;
  close_error : option exn
}.

(** The state of the loop and the number of calls of [write] so far. *)
Record disk_state : Type := {
  loop : loop_state;
  writes : nat
}.

Definition D (A : Type) : Type := disk_state -> disk_state * result A.

Definition unit_D {A} (a : A) : D A := fun st => (st, Ok a).

Definition bind_D {A B} (m : D A) (f : A -> D B) : D B :=
  fun st =>
    match m st with
    | (st', Ok a) => f a st'
    | (st', Raise e) => (st', Raise e)
    end.

Notation "'let+' x ':=' m 'in' f" := (bind_D m (fun x => f))
  (at level 10, x name, m at level 100, f at level 200).
Notation "m >>+ f" := (bind_D m (fun _ => f))
  (at level 65, right associativity).

(** A step that works on the state of the loop alone. *)
Definition of_loop {A} (m : M A) : D A :=
  fun st =>
    let (l, r) := m (loop st) in
    ({| loop := l; writes := writes st |}, r).

(** [upload_to_ftp] of the pipeline above, with its imports done. *)
Definition ftp_upload := upload_to_ftp.

Section Files.

Variable fw : file_world.

(** [m3u8_file.write(line + '\n')] *)
Definition write_text (line : str) : D unit :=
  fun st =>
    match write_error fw (writes st) with
    | None =>
        ({| loop := {| written := written (loop st) ++ line ++ [nl];
                       processed_channels := processed_channels (loop st);
                       original_name := original_name (loop st) |};
            writes := S (writes st) |}, Ok tt)
    | Some e => ({| loop := loop st; writes := S (writes st) |}, Raise e)
    end.

(** Lines 439-456, the body of the [try]. *)
Definition record_body (channel : pyvalue) : D unit :=
  let+ country := of_loop (lift (channel_get channel "country" (PStr "Unbekannt"))) in
  let+ channel_id := of_loop (lift (channel_get channel "id" (PStr ""))) in
  let+ name := of_loop (lift (channel_get channel "name" (PStr "Unbekannter Kanal"))) in
  of_loop (bind_original_name name) >>+
  let clean_name := clean_channel_name name in
  let+ channel_url := of_loop (lift (get_channel_url channel_id name)) in
  write_text user_agent_line >>+
  write_text referrer_line >>+
  write_text (extinf_line (py_str country) clean_name) >>+
  write_text channel_url >>+
  of_loop count_channel.

(** [try: body except Exception: handler] *)
Definition try_record (body handler : D unit) : D unit :=
  fun st =>
    match body st with
    | (st', Ok a) => (st', Ok a)
    | (st', Raise e) => if is_Exception e then handler st' else (st', Raise e)
    end.

Fixpoint for_records (channels : list pyvalue) : D unit :=
  match channels with
  | [] => unit_D tt
  | channel :: rest =>
      try_record (record_body channel) (of_loop channel_handler) >>+
      for_records rest
  end.

(** Lines 431-460: what happens while the file is open. *)
Definition write_playlist (channels : list pyvalue) : disk_state * result unit :=
  (write_text header_line >>+ for_records channels)
    {| loop := initial_state; writes := 0 |}.

(** The end of the [with] block: the file is closed, however the block
    was left, and an error of the closing takes the place of the error
    that left the block. *)
Definition close_file (body : result unit) : result unit :=
  match close_error fw with
  | Some e => Raise e
  | None => body
  end.

(** The handlers at lines 474-482: [PermissionError], [OSError] and
    [Exception]; what is no [Exception] leaves the function. *)
Definition convert_handlers (r : result unit) : result bool :=
  match r with
  | Ok _ => Ok true
  | Raise e => if is_Exception e then Ok false else Raise e
  end.

(** The function: its result, and the text the writes have handed to the
    file, if the file was opened. *)
Definition convert_json_to_m3u8 (channels : list pyvalue) : result bool * option str :=
  match open_error fw with
  | Some e => (convert_handlers (Raise e), None)
  | None =>
      let (st, body) := write_playlist channels in
      (convert_handlers (close_file body), Some (written (loop st)))
  end.

End Files.

(** Lines 341-368.  [import_requests] is the error of [import requests],
    if any.  When the import fails, the first [except] clause is looked
    at, and its class [requests.exceptions.RequestException] cannot be
    read, the local variable [requests] being unbound: an
    [UnboundLocalError] leaves the function, whatever the import has
    raised. *)
Definition download_json_from_url (import_requests : option exn)
    (response : result pyvalue) : result pyvalue :=
  match import_requests with
  | Some _ => Raise UnboundLocalError
  | None =>
      match response with
      | Ok v => Ok v
      | Raise e => if is_Exception e then Ok PNone else Raise e
      end
  end.

(** What the three imports inside the functions come to: the error of
    [import requests], [import ftplib] and [import socket], if any. *)
Record imports : Type := {
  import_requests : option exn;
  import_ftplib : option exn;
  import_socket : option exn
}.

Section Run.

Variable basename : str -> str.
Variable world : ftp_world.
Variable fw : file_world.
Variable im : imports.

(** Lines 290-337 with the two imports at their start.  When
    [import ftplib] fails, the first [except] clause cannot read
    [ftplib.all_errors], the local variable [ftplib] being unbound, and an
    [UnboundLocalError] leaves the function.  An error of [import socket]
    meets the handlers as any other error does. *)
Definition upload_to_ftp (file_path ftp_host ftp_user ftp_pass remote_path : str)
  : result bool :=
  match import_ftplib im with
  | Some _ => Raise UnboundLocalError
  | None =>
      match import_socket im with
      | Some e => if is_Exception e then Ok false else Raise e
      | None =>
          ftp_upload basename world file_path ftp_host ftp_user ftp_pass remote_path
      end
  end.

(** Lines 528-556. *)
Definition main (response : result pyvalue) (m3u8_file_path : str)
    (upload_enabled : bool) (ftp_config : option (str * str * str * str)) : result run :=
  match download_json_from_url (import_requests im) response with
  | Raise e => Raise e
  | Ok channels =>
      match channels with
      | PList l =>
          if truthy channels then
            match convert_json_to_m3u8 fw l with
            | (Raise e, _) => Raise e
            | (Ok true, file) =>
                match upload_enabled, ftp_config with
                | true, Some (ftp_host, ftp_user, ftp_pass, remote_path) =>
                    match upload_to_ftp m3u8_file_path
                            ftp_host ftp_user ftp_pass remote_path with
                    | Ok true =>
                        Ok {| playlist_file := file; upload_started := true;
                              report := MsgUploaded |}
                    | Ok false =>
                        Ok {| playlist_file := file; upload_started := true;
                              report := MsgUploadFailed |}
                    | Raise e => Raise e
                    end
                | _, _ =>
                    Ok {| playlist_file := file; upload_started := false;
                          report := MsgSavedNoUpload |}
                end
            | (Ok false, file) =>
                Ok {| playlist_file := file; upload_started := false;
                      report := MsgConvertFailed |}
            end
          else
            Ok {| playlist_file := None; upload_started := false; report := MsgLoadFailed |}
      | _ => Ok {| playlist_file := None; upload_started := false; report := MsgLoadFailed |}
      end
  end.

End Run.

(** The three imports succeed. *)
Definition all_imported : imports :=
  {| import_requests := None; import_ftplib := None; import_socket := None |}.


(** Every error the file raises is an [Exception]. *)
Definition file_raises_exceptions_only (fw : file_world) : Prop :=
  (forall e, open_error fw = Some e -> is_Exception e = true) /\
  (forall n e, write_error fw n = Some e -> is_Exception e = true) /\
  (forall e, close_error fw = Some e -> is_Exception e = true).


(** A file whose write number [k] raises [e], and nothing else does. *)
Definition fails_at (k : nat) (e : exn) : file_world :=
  {| open_error := None;
     write_error := fun n => if n =? k then Some e else None;
     close_error := None |}.

End Faults.

(** * The matcher *)

Section Matcher.

Variable k : str -> option str.

Lemma star_loop_0 m s : star_loop m k 0 s = k s.
Proof. reflexivity. Qed.

Lemma star_loop_S m n s :
  star_loop m k (S n) s =
    match m s (fun s' => if length s' <? length s then star_loop m k n s' else None) with
    | Some rest => Some rest
    | None => k s
    end.
Proof. reflexivity. Qed.

End Matcher.

(** The continuation is only asked about texts that are not longer than
    the text the match starts on. *)
Lemma rmatch_ext r : forall s k1 k2,
  (forall t, length t <= length s -> k1 t = k2 t) ->
  rmatch r s k1 = rmatch r s k2.
Proof.
  induction r as [|p|r1 IH1 r2 IH2|r IH]; intros s k1 k2 H; cbn [rmatch].
  - apply H. lia.
  - destruct s as [|c s']; [reflexivity|].
    destruct (p c); [|reflexivity]. apply H. cbn. lia.
  - apply IH1. intros t Ht. apply IH2. intros u Hu. apply H. lia.
  - generalize (length s). intros n. revert s H.
    induction n as [|n IHn]; intros s H.
    + rewrite !star_loop_0. apply H. lia.
    + rewrite !star_loop_S.
      rewrite (IH s _ (fun s' => if length s' <? length s
                                 then star_loop (rmatch r) k2 n s' else None)).
      * rewrite (H s) by lia. reflexivity.
      * intros t Ht. destruct (Nat.ltb_spec (length t) (length s)); [|reflexivity].
        apply IHn. intros u Hu. apply H. lia.
Qed.

Lemma rmatch_fail r : forall s, rmatch r s (fun _ => None) = None.
Proof.
  induction r as [|p|r1 IH1 r2 IH2|r IH]; intros s; cbn [rmatch].
  - reflexivity.
  - destruct s as [|c s']; [reflexivity|]. destruct (p c); reflexivity.
  - rewrite (rmatch_ext r1 s _ (fun _ => None)); [apply IH1|]. intros; apply IH2.
  - generalize (length s). intros n. revert s.
    induction n as [|n IHn]; intros s; [reflexivity|].
    rewrite star_loop_S.
    rewrite (rmatch_ext r s _ (fun _ => None)); [now rewrite IH|].
    intros t _. destruct (length t <? length s); [apply IHn|reflexivity].
Qed.

(** More fuel than the length of the text changes nothing. *)
Lemma star_loop_fuel r k : forall n m s,
  length s <= n -> length s <= m ->
  star_loop (rmatch r) k n s = star_loop (rmatch r) k m s.
Proof.
  induction n as [|n IHn]; intros m s Hn Hm.
  - destruct s; [|cbn in Hn; lia].
    destruct m as [|m]; [reflexivity|].
    rewrite star_loop_0, star_loop_S.
    rewrite (rmatch_ext r [] _ (fun _ => None)); [now rewrite rmatch_fail|].
    intros t Ht. cbn. reflexivity.
  - destruct m as [|m].
    + destruct s; [|cbn in Hm; lia].
      rewrite star_loop_0, star_loop_S.
      rewrite (rmatch_ext r [] _ (fun _ => None)); [now rewrite rmatch_fail|].
      intros t Ht. cbn. reflexivity.
    + rewrite !star_loop_S.
      rewrite (rmatch_ext r s _ (fun s' => if length s' <? length s
                                           then star_loop (rmatch r) k m s' else None));
        [reflexivity|].
      intros t Ht. destruct (Nat.ltb_spec (length t) (length s)); [|reflexivity].
      apply IHn; lia.
Qed.

(** The equation of the greedy star: one more round of [r] first, and the
    rest of the pattern where that fails. *)
Lemma rmatch_star r s k :
  rmatch (Star r) s k =
    match rmatch r s (fun s' => if length s' <? length s
                                then rmatch (Star r) s' k else None) with
    | Some rest => Some rest
    | None => k s
    end.
Proof.
  cbn [rmatch]. destruct (length s) as [|n] eqn:E.
  - rewrite star_loop_0.
    rewrite (rmatch_ext r s _ (fun _ => None)); [now rewrite rmatch_fail|].
    intros t Ht. destruct (Nat.ltb_spec (length t) 0); [lia|reflexivity].
  - rewrite star_loop_S, E.
    rewrite (rmatch_ext r s _ (fun s' => if length s' <? S n
                                         then star_loop (rmatch r) k (length s') s' else None));
      [reflexivity|].
    intros t Ht. destruct (Nat.ltb_spec (length t) (S n)); [|reflexivity].
    apply star_loop_fuel; lia.
Qed.

Lemma rmatch_star_chr p s k :
  rmatch (Star (Chr p)) s k =
    match s with
    | c :: s' =>
        if p c then
          match rmatch (Star (Chr p)) s' k with
          | Some rest => Some rest
          | None => k s
          end
        else k s
    | [] => k s
    end.
Proof.
  rewrite rmatch_star. cbn [rmatch].
  destruct s as [|c s']; [reflexivity|].
  destruct (p c); [|reflexivity].
  replace (length s' <? length (c :: s')) with true; [reflexivity|].
  symmetry. apply Nat.ltb_lt. cbn. lia.
Qed.

(** Greedy: the longest run is tried first, so where the rest of the
    pattern accepts after it, that is the match. *)
Lemma rmatch_star_chr_greedy p k x : forall s,
  k (drop_while p s) = Some x ->
  rmatch (Star (Chr p)) s k = Some x.
Proof.
  induction s as [|c s' IH]; intros H; rewrite rmatch_star_chr.
  - exact H.
  - cbn [drop_while] in H. destruct (p c).
    + now rewrite (IH H).
    + exact H.
Qed.

(** Where the rest of the pattern cannot start with a character of the
    run, only the longest run counts. *)
Lemma rmatch_star_chr_commit p k :
  (forall c t, p c = true -> k (c :: t) = None) ->
  forall s, rmatch (Star (Chr p)) s k = k (drop_while p s).
Proof.
  intros Hk. induction s as [|c s' IH]; rewrite rmatch_star_chr.
  - reflexivity.
  - cbn [drop_while]. destruct (p c) eqn:Ec; [|reflexivity].
    rewrite IH. destruct (k (drop_while p s')); [reflexivity|].
    now apply Hk.
Qed.

Lemma rmatch_star_chr_some p s :
  rmatch (Star (Chr p)) s Some = Some (drop_while p s).
Proof. now apply rmatch_star_chr_greedy. Qed.

(** A match consumes a text of the pattern. *)
Lemma rmatch_sound r : forall s k x,
  rmatch r s k = Some x ->
  exists a b, s = a ++ b /\ lang r a /\ k b = Some x.
Proof.
  induction r as [|p|r1 IH1 r2 IH2|r IH]; intros s k x H; cbn [rmatch] in H.
  - exists [], s. repeat split; [constructor|exact H].
  - destruct s as [|c s']; [discriminate|].
    destruct (p c) eqn:Ec; [|discriminate].
    exists [c], s'. repeat split; [now constructor|exact H].
  - apply IH1 in H. destruct H as (a & b & -> & La & H).
    apply IH2 in H. destruct H as (a2 & b2 & -> & La2 & H).
    exists (a ++ a2), b2. rewrite app_assoc. repeat split; [now constructor|exact H].
  - revert H. generalize (length s). intros n. revert s.
    induction n as [|n IHn]; intros s H.
    + rewrite star_loop_0 in H. exists [], s. repeat split; [constructor|exact H].
    + rewrite star_loop_S in H.
      destruct (rmatch r s _) as [y|] eqn:E.
      * inversion H; subst y. apply IH in E.
        destruct E as (a & b & -> & La & E).
        destruct (length b <? length (a ++ b)); [|discriminate].
        apply IHn in E. destruct E as (a2 & b2 & -> & La2 & E).
        exists (a ++ a2), b2. rewrite app_assoc. repeat split; [now constructor|exact E].
      * exists [], s. repeat split; [constructor|exact H].
Qed.

Lemma drop_while_app p (s : str) :
  exists w, s = w ++ drop_while p s /\ forallb p w = true.
Proof.
  induction s as [|c s' (w & E & F)]; [now exists []|].
  cbn [drop_while]. destruct (p c) eqn:Ec.
  - exists (c :: w). cbn. rewrite Ec, F. split; [congruence|reflexivity].
  - now exists [].
Qed.

Lemma drop_while_length p (s : str) : length (drop_while p s) <= length s.
Proof.
  induction s as [|c s' IH]; [cbn; lia|].
  cbn [drop_while]. destruct (p c); cbn; lia.
Qed.

Lemma drop_while_head p (s : str) c t :
  drop_while p s = c :: t -> p c = false.
Proof.
  induction s as [|d s' IH]; [discriminate|].
  cbn [drop_while]. destruct (p d) eqn:Ed; [exact IH|].
  intros E; inversion E; subst; exact Ed.
Qed.

Lemma drop_while_idem p (s : str) : drop_while p (drop_while p s) = drop_while p s.
Proof.
  induction s as [|c s' IH]; [reflexivity|].
  cbn [drop_while]. destruct (p c) eqn:Ec; [exact IH|].
  cbn [drop_while]. now rewrite Ec.
Qed.

Lemma drop_while_all p (w t : str) :
  forallb p w = true -> drop_while p (w ++ t) = drop_while p t.
Proof.
  induction w as [|c w IH]; [reflexivity|].
  cbn. destruct (p c); [exact IH|discriminate].
Qed.

(** * The scan of [re.sub] *)

Lemma sub_scan_skip r repl : forall n s,
  n <= length s ->
  sub_scan r repl n s = sub_scan r repl 0 (skipn n s).
Proof.
  induction n as [|n IH]; intros s Hn; [reflexivity|].
  destruct s as [|c s']; [cbn in Hn; lia|].
  cbn [skipn]. rewrite <- IH by (cbn in Hn; lia). reflexivity.
Qed.

Lemma match_len_le r s n : match_len r s = Some n -> n <= length s.
Proof.
  unfold match_len. destruct (rmatch r s Some); [|discriminate].
  intros E; inversion E; lia.
Qed.

Lemma re_sub_nil r repl :
  match_len r [] = None -> re_sub r repl [] = [].
Proof. unfold re_sub. cbn. now intros ->. Qed.

Lemma re_sub_copy r repl c s :
  match_len r (c :: s) = None ->
  re_sub r repl (c :: s) = c :: re_sub r repl s.
Proof. unfold re_sub. cbn [sub_scan]. now intros ->. Qed.

Lemma re_sub_replace r repl s n :
  match_len r s = Some (S n) ->
  re_sub r repl s = repl ++ re_sub r repl (skipn (S n) s).
Proof.
  intros E. pose proof (match_len_le _ _ _ E) as Hn. revert E.
  unfold re_sub. destruct s as [|c s']; cbn [sub_scan]; intros ->.
  - cbn in Hn. lia.
  - rewrite sub_scan_skip by (cbn in Hn; lia). reflexivity.
Qed.

Lemma rmatch_suffix r s rest :
  rmatch r s Some = Some rest -> exists a, s = a ++ rest /\ lang r a.
Proof.
  intros H. apply rmatch_sound in H. destruct H as (a & b & -> & L & E).
  inversion E; subst. now exists a.
Qed.

Lemma skipn_app_exact (a b : str) : skipn (length (a ++ b) - length b) (a ++ b) = b.
Proof.
  rewrite length_app. replace (length a + length b - length b) with (length a) by lia.
  rewrite skipn_app, Nat.sub_diag, skipn_all. reflexivity.
Qed.

Lemma firstn_app_exact (a b : str) : firstn (length (a ++ b) - length b) (a ++ b) = a.
Proof.
  rewrite length_app. replace (length a + length b - length b) with (length a) by lia.
  rewrite firstn_app, Nat.sub_diag, firstn_all. cbn. apply app_nil_r.
Qed.

(** The three cases of the scan. *)
Lemma re_sub_match r repl s rest :
  rmatch r s Some = Some rest -> length rest < length s ->
  re_sub r repl s = repl ++ re_sub r repl rest.
Proof.
  intros H Hlen. destruct (rmatch_suffix _ _ _ H) as (a & -> & _).
  assert (E : match_len r (a ++ rest) = Some (S (length (a ++ rest) - length rest - 1))).
  { unfold match_len. rewrite H. f_equal. lia. }
  rewrite (re_sub_replace _ _ _ _ E).
  replace (S (length (a ++ rest) - length rest - 1))
    with (length (a ++ rest) - length rest) by lia.
  now rewrite skipn_app_exact.
Qed.

Lemma re_sub_nomatch r repl c s :
  rmatch r (c :: s) Some = None ->
  re_sub r repl (c :: s) = c :: re_sub r repl s.
Proof.
  intros H. apply re_sub_copy. unfold match_len. now rewrite H.
Qed.

Lemma re_sub_nomatch_nil r repl :
  rmatch r [] Some = None -> re_sub r repl [] = [].
Proof.
  intros H. apply re_sub_nil. unfold match_len. now rewrite H.
Qed.

Section Substitution.

Variable r : regex.
Variable repl : str.

(** The pattern never matches the empty text. *)
Hypothesis consumes : forall s rest, rmatch r s Some = Some rest -> length rest < length s.

Lemma re_sub_ind (P : str -> str -> Prop) :
  P [] [] ->
  (forall c s, rmatch r (c :: s) Some = None ->
     P s (re_sub r repl s) -> P (c :: s) (c :: re_sub r repl s)) ->
  (forall s rest, rmatch r s Some = Some rest -> length rest < length s ->
     P rest (re_sub r repl rest) -> P s (repl ++ re_sub r repl rest)) ->
  forall s, P s (re_sub r repl s).
Proof.
  intros Hnil Hcopy Hrepl s.
  remember (length s) as n eqn:En. revert s En.
  induction n as [n IH] using lt_wf_ind. intros s En.
  destruct (rmatch r s Some) as [rest|] eqn:E.
  - pose proof (consumes _ _ E) as Hlen.
    rewrite (re_sub_match _ _ _ _ E Hlen).
    apply Hrepl; [exact E|exact Hlen|].
    apply (IH (length rest)); [lia|reflexivity].
  - destruct s as [|c s'].
    + rewrite (re_sub_nomatch_nil _ _ E). exact Hnil.
    + rewrite (re_sub_nomatch _ _ _ _ E). apply Hcopy; [exact E|].
      apply (IH (length s')); [cbn in En; lia|reflexivity].
Qed.

Lemma re_sub_unchanged s :
  (forall a b, s = a ++ b -> rmatch r b Some = None) ->
  re_sub r repl s = s.
Proof.
  induction s as [|c s' IH]; intros H.
  - apply re_sub_nomatch_nil. now apply (H [] []).
  - rewrite re_sub_nomatch by now apply (H [] (c :: s')).
    f_equal. apply IH. intros a b ->. now apply (H (c :: a) b).
Qed.

End Substitution.

(** With one space as replacement, the result starts with that space or
    with the first character of the text. *)
Lemma re_sub_head r s :
  (forall s rest, rmatch r s Some = Some rest -> length rest < length s) ->
  match re_sub r " " s with
  | [] => True
  | d :: _ => d = " "%char \/ exists t, s = d :: t
  end.
Proof.
  intros consumes.
  destruct (rmatch r s Some) as [rest|] eqn:E.
  - rewrite (re_sub_match _ _ _ _ E (consumes _ _ E)). cbn. now left.
  - destruct s as [|c s'].
    + now rewrite (re_sub_nomatch_nil _ _ E).
    + rewrite (re_sub_nomatch _ _ _ _ E). right. now exists s'.
Qed.

(** * The patterns [\s*p q\s*] *)

Section PairPattern.

Variables p q : ascii -> bool.

(** The first character of the pair is not whitespace. *)
Hypothesis p_solid : forall c, is_space c = true -> p c = false.

Lemma rmatch_pair s : rmatch (pat_pair p q) s Some = pair_match p q s.
Proof.
  unfold pat_pair, pair_match, ws_star.
  change (rmatch (Star (Chr is_space) ;; Chr p ;; Chr q ;; Star (Chr is_space)) s Some)
    with (rmatch (Star (Chr is_space)) s
            (fun s' => rmatch (Chr p ;; Chr q ;; Star (Chr is_space)) s' Some)).
  rewrite rmatch_star_chr_commit.
  - destruct (drop_while is_space s) as [|c1 [|c2 t]]; cbn [rmatch].
    + reflexivity.
    + destruct (p c1); reflexivity.
    + destruct (p c1); [|reflexivity]. destruct (q c2); [|reflexivity].
      cbn [andb]. exact (rmatch_star_chr_some is_space t).
  - intros c t Hc. cbn [rmatch]. now rewrite (p_solid c Hc).
Qed.

Lemma pair_match_shape s rest :
  pair_match p q s = Some rest ->
  exists w c1 c2 w2,
    s = w ++ c1 :: c2 :: w2 ++ rest /\
    forallb is_space w = true /\ p c1 = true /\ q c2 = true /\
    forallb is_space w2 = true /\ drop_while is_space rest = rest.
Proof.
  unfold pair_match. intros H.
  destruct (drop_while_app is_space s) as (w & Es & Fw).
  destruct (drop_while is_space s) as [|c1 [|c2 t]]; try discriminate.
  destruct (p c1) eqn:E1; [|discriminate]. destruct (q c2) eqn:E2; [|discriminate].
  cbn in H. inversion H; subst rest; clear H.
  destruct (drop_while_app is_space t) as (w2 & Et & Fw2).
  exists w, c1, c2, w2. rewrite <- Et. repeat split; auto.
  apply drop_while_idem.
Qed.

Lemma pair_match_shorter s rest :
  pair_match p q s = Some rest -> length rest < length s.
Proof.
  intros H. destruct (pair_match_shape _ _ H) as (w & c1 & c2 & w2 & -> & _).
  rewrite length_app. cbn. rewrite length_app. lia.
Qed.

Lemma pat_pair_consumes s rest :
  rmatch (pat_pair p q) s Some = Some rest -> length rest < length s.
Proof. rewrite rmatch_pair. apply pair_match_shorter. Qed.

Lemma has_pair_app_r (a b : str) p' q' :
  has_pair p' q' (a ++ b) = false -> has_pair p' q' b = false.
Proof.
  induction a as [|c a IH]; [auto|].
  cbn [app has_pair]. intros H. apply orb_false_iff in H. apply IH, H.
Qed.

Lemma has_pair_app_l (a b : str) p' q' :
  has_pair p' q' (a ++ b) = false -> has_pair p' q' a = false.
Proof.
  induction a as [|c a IH]; [auto|].
  cbn [app has_pair]. intros H. apply orb_false_iff in H. destruct H as [H1 H2].
  rewrite (IH H2), orb_false_r.
  destruct a as [|d a]; [reflexivity|exact H1].
Qed.

Lemma pair_match_has_pair s rest :
  pair_match p q s = Some rest -> has_pair p q s = true.
Proof.
  intros H. destruct (pair_match_shape _ _ H) as (w & c1 & c2 & w2 & -> & _ & H1 & H2 & _).
  destruct (has_pair p q (w ++ c1 :: c2 :: w2 ++ rest)) eqn:E; [reflexivity|].
  apply has_pair_app_r in E. cbn in E. now rewrite H1, H2 in E.
Qed.

(** Where the pair does not occur, the substitution changes nothing. *)
Lemma re_sub_pair_unchanged repl s :
  has_pair p q s = false -> re_sub (pat_pair p q) repl s = s.
Proof.
  intros H. apply re_sub_unchanged. intros a b ->.
  rewrite rmatch_pair. destruct (pair_match p q b) eqn:E; [|reflexivity].
  apply pair_match_has_pair in E. apply has_pair_app_r in H. congruence.
Qed.

Hypothesis q_solid : q " "%char = false.

(** After the substitution the pair occurs nowhere. *)
Lemma re_sub_pair_removes s :
  has_pair p q (re_sub (pat_pair p q) " " s) = false.
Proof.
  pose proof (p_solid " "%char eq_refl) as p_sp.
  apply (re_sub_ind (pat_pair p q) " " pat_pair_consumes
           (fun _ out => has_pair p q out = false)).
  - reflexivity.
  - intros c s' E IH. cbn [has_pair]. rewrite IH, orb_false_r.
    pose proof (re_sub_head (pat_pair p q) s' pat_pair_consumes) as Hh.
    destruct (re_sub (pat_pair p q) " " s') as [|d out]; [reflexivity|].
    destruct Hh as [->|(t & ->)].
    + now rewrite q_solid, andb_false_r.
    + rewrite rmatch_pair in E. unfold pair_match in E. cbn [drop_while] in E.
      destruct (p c) eqn:Ec; [|reflexivity].
      destruct (is_space c) eqn:Es; [now rewrite (p_solid c Es) in Ec|].
      rewrite Ec in E. destruct (q d); [discriminate E|reflexivity].
  - intros s' rest E Hlen IH.
    change ((" " : str) ++ re_sub (pat_pair p q) " " rest)
      with (" "%char :: re_sub (pat_pair p q) " " rest).
    cbn [has_pair]. rewrite IH, orb_false_r, p_sp.
    now destruct (re_sub (pat_pair p q) " " rest).
Qed.

(** The substitution does not bring two characters together that were
    not adjacent before: it creates no pair of another kind. *)
Lemma re_sub_pair_creates_none p' q' s :
  p' " "%char = false -> q' " "%char = false ->
  has_pair p' q' s = false ->
  has_pair p' q' (re_sub (pat_pair p q) " " s) = false.
Proof.
  intros p_sp q_sp.
  apply (re_sub_ind (pat_pair p q) " " pat_pair_consumes
           (fun s out => has_pair p' q' s = false -> has_pair p' q' out = false)).
  - reflexivity.
  - intros c s' E IH H. cbn [has_pair] in H |- *.
    apply orb_false_iff in H. destruct H as [H1 H2].
    rewrite (IH H2), orb_false_r.
    pose proof (re_sub_head (pat_pair p q) s' pat_pair_consumes) as Hh.
    destruct (re_sub (pat_pair p q) " " s') as [|d out]; [reflexivity|].
    destruct Hh as [->|(t & ->)].
    + now rewrite q_sp, andb_false_r.
    + exact H1.
  - intros s' rest E Hlen IH H.
    change ((" " : str) ++ re_sub (pat_pair p q) " " rest)
      with (" "%char :: re_sub (pat_pair p q) " " rest).
    cbn [has_pair]. rewrite p_sp.
    rewrite rmatch_pair in E.
    destruct (pair_match_shape _ _ E) as (w & c1 & c2 & w2 & -> & _).
    rewrite IH.
    + now destruct (re_sub (pat_pair p q) " " rest).
    + apply has_pair_app_r in H.
      change (c1 :: c2 :: w2 ++ rest) with ([c1; c2] ++ w2 ++ rest) in H.
      now apply has_pair_app_r, has_pair_app_r in H.
Qed.

End PairPattern.

(** * Characters *)

Ltac all_chars :=
  let c := fresh "c" in
  intros c; destruct c as [[] [] [] [] [] [] [] []];
  vm_compute; try reflexivity; try discriminate; auto.

Lemma ci_H_upper : forall c, ci "H" c = Ascii.eqb "H" (upper_char c).
Proof. all_chars. Qed.

Lemma ci_D_upper : forall c, ci "D" c = Ascii.eqb "D" (upper_char c).
Proof. all_chars. Qed.

Lemma ci_4_upper : forall c, ci "4" c = Ascii.eqb "4" (upper_char c).
Proof. all_chars. Qed.

Lemma ci_K_upper : forall c, ci "K" c = Ascii.eqb "K" (upper_char c).
Proof. all_chars. Qed.

Lemma ci_H_solid : forall c, is_space c = true -> ci "H" c = false.
Proof. all_chars. Qed.

Lemma ci_4_solid : forall c, is_space c = true -> ci "4" c = false.
Proof. all_chars. Qed.

Lemma ci_F_solid : forall c, is_space c = true -> ci "F" c = false.
Proof. all_chars. Qed.

Lemma is_bar_solid : forall c, is_space c = true -> is_bar c = false.
Proof. all_chars. Qed.

(** * Occurrences of a two-letter word *)

Lemma has_pair_ext p q p' q' :
  (forall c, p c = p' c) -> (forall c, q c = q' c) ->
  forall s, has_pair p q s = has_pair p' q' s.
Proof.
  intros Hp Hq. induction s as [|c s IH]; [reflexivity|].
  cbn [has_pair]. rewrite IH, Hp. destruct s as [|d s]; [reflexivity|].
  now rewrite Hq.
Qed.

Lemma substring_in_pair (a b : ascii) (f : ascii -> ascii) (s : str) :
  substring_in [a; b] (map f s) =
    has_pair (fun c => Ascii.eqb a (f c)) (fun c => Ascii.eqb b (f c)) s.
Proof.
  induction s as [|c s IH]; [reflexivity|].
  cbn [map substring_in has_pair]. rewrite IH. f_equal.
  destruct s as [|d s]; cbn [map starts_with].
  - now rewrite andb_false_r.
  - now rewrite andb_true_r.
Qed.

Lemma starts_with_tail c (n h : str) :
  starts_with (c :: n) h = true -> substring_in n h = true.
Proof.
  destruct h as [|d h]; [discriminate|]. cbn [starts_with].
  intros H. apply andb_true_iff in H. destruct H as [_ H].
  cbn [substring_in]. apply orb_true_iff. right.
  destruct h as [|e h]; destruct n as [|m n]; cbn in H |- *; try reflexivity; try discriminate.
  now rewrite H.
Qed.

Lemma substring_in_tail c (n h : str) :
  substring_in (c :: n) h = true -> substring_in n h = true.
Proof.
  induction h as [|d h IH].
  - cbn. discriminate.
  - intros H. cbn [substring_in] in H. apply orb_true_iff in H. destruct H as [H|H].
    + now apply starts_with_tail in H.
    + cbn [substring_in]. apply orb_true_iff. right. now apply IH.
Qed.

Lemma occurs_HD (s : str) :
  substring_in "HD" (upper s) = has_pair (ci "H") (ci "D") s.
Proof.
  change ("HD" : str) with ["H"%char; "D"%char]. unfold upper.
  rewrite substring_in_pair. apply has_pair_ext; intros c; symmetry.
  - apply ci_H_upper.
  - apply ci_D_upper.
Qed.

Lemma occurs_4K (s : str) :
  substring_in "4K" (upper s) = has_pair (ci "4") (ci "K") s.
Proof.
  change ("4K" : str) with ["4"%char; "K"%char]. unfold upper.
  rewrite substring_in_pair. apply has_pair_ext; intros c; symmetry.
  - apply ci_4_upper.
  - apply ci_K_upper.
Qed.

(** * The token substitutions *)

(** [FHD] can only match where [HD] occurs. *)
Lemma rmatch_FHD_has_pair s rest :
  rmatch pat_FHD s Some = Some rest -> has_pair (ci "H") (ci "D") s = true.
Proof.
  unfold pat_FHD, ws_star.
  change (rmatch (Star (Chr is_space) ;; Chr (ci "F") ;; Chr (ci "H") ;; Chr (ci "D") ;;
                  Star (Chr is_space)) s Some)
    with (rmatch (Star (Chr is_space)) s
            (fun s' => rmatch (Chr (ci "F") ;; Chr (ci "H") ;; Chr (ci "D") ;;
                               Star (Chr is_space)) s' Some)).
  rewrite rmatch_star_chr_commit.
  - destruct (drop_while_app is_space s) as (w & Es & _).
    destruct (drop_while is_space s) as [|f [|h [|d t]]]; cbn [rmatch];
      try discriminate; try (destruct (ci "F" f); discriminate).
    + destruct (ci "F" f); [|discriminate]. destruct (ci "H" h); discriminate.
    + destruct (ci "F" f); [|discriminate].
      destruct (ci "H" h) eqn:Eh; [|discriminate].
      destruct (ci "D" d) eqn:Ed; [|discriminate].
      intros _. rewrite Es.
      destruct (has_pair (ci "H") (ci "D") (w ++ f :: h :: d :: t)) eqn:E; [reflexivity|].
      apply has_pair_app_r in E.
      change (f :: h :: d :: t) with ([f] ++ h :: d :: t) in E.
      apply has_pair_app_r in E. cbn [has_pair] in E.
      rewrite Eh, Ed in E. discriminate E.
  - intros c t Hc. cbn [rmatch]. now rewrite (ci_F_solid c Hc).
Qed.

Lemma re_sub_FHD_unchanged s :
  has_pair (ci "H") (ci "D") s = false -> re_sub pat_FHD " " s = s.
Proof.
  intros H. apply re_sub_unchanged. intros a b ->.
  destruct (rmatch pat_FHD b Some) eqn:E; [|reflexivity].
  apply rmatch_FHD_has_pair in E. apply has_pair_app_r in H. congruence.
Qed.

Lemma strip_quality_tokens_no_HD s :
  has_pair (ci "H") (ci "D") (strip_quality_tokens s) = false.
Proof.
  unfold strip_quality_tokens, pat_HD, pat_4K.
  pose proof (re_sub_pair_removes (ci "H") (ci "D") ci_H_solid eq_refl s) as H.
  rewrite (re_sub_FHD_unchanged _ H).
  now apply re_sub_pair_creates_none; [apply ci_4_solid| | |].
Qed.

Lemma strip_quality_tokens_no_4K s :
  has_pair (ci "4") (ci "K") (strip_quality_tokens s) = false.
Proof.
  unfold strip_quality_tokens, pat_4K.
  now apply re_sub_pair_removes; [apply ci_4_solid|].
Qed.

(** C5 as stated fails: HDTV holds HD inside a larger word only, and the
    token substitutions turn it into [ TV]; the cleaned name is TV. *)
Lemma C5_embedded_token_is_removed :
  ~ keeps_embedded_tokens "HDTV" /\
  strip_quality_tokens "HDTV" = " TV" /\
  clean_channel_name (PStr "HDTV") = "TV".
Proof.
  split; [|split; vm_compute; reflexivity].
  intros H. unfold keeps_embedded_tokens in H.
  assert (E : strip_quality_tokens "HDTV" = "HDTV") by (apply H; vm_compute; reflexivity).
  vm_compute in E. discriminate E.
Qed.

(** The [FHD] rule comes after the [HD] rule and finds nothing to match. *)
Lemma FHD_rule_finds_nothing s :
  re_sub pat_FHD " " (re_sub pat_HD " " s) = re_sub pat_HD " " s.
Proof.
  apply re_sub_FHD_unchanged. unfold pat_HD.
  now apply re_sub_pair_removes; [apply ci_H_solid|].
Qed.

(** * Whitespace: [re.sub(r'\s+', ' ', s)] and [strip] *)

Lemma rmatch_spaces s :
  rmatch pat_spaces s Some =
    match s with
    | c :: s' => if is_space c then Some (drop_while is_space s') else None
    | [] => None
    end.
Proof.
  unfold pat_spaces, ws_plus, Plus. cbn [rmatch].
  destruct s as [|c s']; [reflexivity|].
  destruct (is_space c); [|reflexivity].
  exact (rmatch_star_chr_some is_space s').
Qed.

Lemma pat_spaces_consumes s rest :
  rmatch pat_spaces s Some = Some rest -> length rest < length s.
Proof.
  rewrite rmatch_spaces. destruct s as [|c s']; [discriminate|].
  destruct (is_space c); [|discriminate].
  intros E; inversion E; subst. pose proof (drop_while_length is_space s'). cbn. lia.
Qed.

Lemma squeeze_true s : squeeze true s = squeeze false (drop_while is_space s).
Proof.
  induction s as [|c s IH]; [reflexivity|].
  cbn [squeeze drop_while]. destruct (is_space c) eqn:E; [exact IH|].
  cbn [squeeze]. now rewrite E.
Qed.

Lemma collapse_spaces_squeeze s : collapse_spaces s = squeeze false s.
Proof.
  unfold collapse_spaces.
  apply (re_sub_ind pat_spaces " " pat_spaces_consumes (fun s out => out = squeeze false s)).
  - reflexivity.
  - intros c s' E ->. rewrite rmatch_spaces in E. cbn [squeeze].
    destruct (is_space c); [discriminate|reflexivity].
  - intros s' rest E _ ->. rewrite rmatch_spaces in E.
    destruct s' as [|c s']; [discriminate|].
    destruct (is_space c) eqn:Ec; [|discriminate].
    inversion E; subst rest. cbn [squeeze]. rewrite Ec, squeeze_true. reflexivity.
Qed.

Lemma nonspace_cons c s :
  nonspace (c :: s) = if is_space c then nonspace s else c :: nonspace s.
Proof. unfold nonspace. cbn [filter]. now destruct (is_space c). Qed.

Lemma nonspace_squeeze b s : nonspace (squeeze b s) = nonspace s.
Proof.
  revert b. induction s as [|c s IH]; intros b; [reflexivity|].
  cbn [squeeze]. rewrite nonspace_cons.
  destruct (is_space c) eqn:E.
  - destruct b; [apply IH|]. rewrite nonspace_cons. apply IH.
  - rewrite nonspace_cons, E. f_equal. apply IH.
Qed.

Lemma nonspace_drop_while s : nonspace (drop_while is_space s) = nonspace s.
Proof.
  induction s as [|c s IH]; [reflexivity|].
  cbn [drop_while]. rewrite (nonspace_cons c s).
  destruct (is_space c) eqn:E; [exact IH|].
  now rewrite nonspace_cons, E.
Qed.

Lemma nonspace_rev s : nonspace (rev s) = rev (nonspace s).
Proof.
  unfold nonspace. induction s as [|c s IH]; [reflexivity|].
  cbn [rev filter]. rewrite filter_app, IH. cbn [filter].
  destruct (negb (is_space c)); cbn [rev]; [reflexivity|apply app_nil_r].
Qed.

Lemma nonspace_strip s : nonspace (strip s) = nonspace s.
Proof.
  unfold strip, rstrip, lstrip.
  rewrite nonspace_rev, nonspace_drop_while, nonspace_rev, rev_involutive.
  apply nonspace_drop_while.
Qed.

Lemma nonspace_app a b : nonspace (a ++ b) = nonspace a ++ nonspace b.
Proof. apply filter_app. Qed.

Lemma nonspace_all_space w : forallb is_space w = true -> nonspace w = [].
Proof.
  induction w as [|c w IH]; [reflexivity|].
  cbn. destruct (is_space c); [exact IH|discriminate].
Qed.

(** ** The closed form of [rstrip] *)

Lemma drop_while_app_if p (a b : str) :
  drop_while p (a ++ b) = if forallb p a then drop_while p b else drop_while p a ++ b.
Proof.
  induction a as [|c a IH]; [reflexivity|].
  cbn. destruct (p c); [exact IH|reflexivity].
Qed.

Lemma forallb_rev p (s : str) : forallb p (rev s) = forallb p s.
Proof.
  induction s as [|c s IH]; [reflexivity|].
  cbn [rev]. rewrite forallb_app, IH. cbn. rewrite andb_true_r. apply andb_comm.
Qed.

Lemma rstrip_cons c s :
  rstrip (c :: s) =
    if forallb is_space s then (if is_space c then [] else [c]) else c :: rstrip s.
Proof.
  unfold rstrip. cbn [rev]. rewrite drop_while_app_if, forallb_rev.
  destruct (forallb is_space s).
  - cbn. destruct (is_space c); reflexivity.
  - rewrite rev_app_distr. reflexivity.
Qed.

Lemma rstrip_head d s :
  is_space d = false -> exists t, rstrip (d :: s) = d :: t.
Proof.
  intros Hd. rewrite rstrip_cons, Hd. destruct (forallb is_space s); eauto.
Qed.

(** ** The result of collapsing and trimming is tidy *)

Lemma squeeze_true_head s :
  match squeeze true s with
  | [] => True
  | d :: _ => is_space d = false
  end.
Proof.
  induction s as [|c s IH]; [exact I|].
  cbn [squeeze]. destruct (is_space c) eqn:E; [exact IH|exact E].
Qed.

Lemma loose_squeeze b s : loose (squeeze b s) = true.
Proof.
  revert b. induction s as [|c s IH]; intros b; [reflexivity|].
  cbn [squeeze]. destruct (is_space c) eqn:E.
  - destruct b; [apply IH|].
    cbn [loose]. rewrite IH, andb_true_r.
    change (is_space " ") with true. cbn [Ascii.eqb Bool.eqb andb].
    pose proof (squeeze_true_head s) as H.
    destruct (squeeze true s); [reflexivity|]. now rewrite H.
  - cbn [loose]. rewrite E, IH. reflexivity.
Qed.

Lemma loose_drop_while s : loose s = true -> loose (drop_while is_space s) = true.
Proof.
  induction s as [|c s IH]; [auto|].
  cbn [drop_while]. destruct (is_space c) eqn:E; [|auto].
  intros H. cbn [loose] in H. apply andb_true_iff in H. apply IH, H.
Qed.

Lemma spaced_rstrip s : loose s = true -> spaced (rstrip s) = true.
Proof.
  induction s as [|c s IH]; [reflexivity|].
  intros H. cbn [loose] in H. apply andb_true_iff in H. destruct H as [Hc Hs].
  rewrite rstrip_cons. destruct (forallb is_space s) eqn:Ea.
  - destruct (is_space c) eqn:Ec; [reflexivity|]. cbn. now rewrite Ec.
  - cbn [spaced]. rewrite (IH Hs), andb_true_r.
    destruct (is_space c) eqn:Ec; [|reflexivity].
    apply andb_true_iff in Hc. destruct Hc as [Hc Hd]. rewrite Hc. cbn [andb].
    destruct s as [|d s']; [discriminate Ea|].
    apply negb_true_iff in Hd.
    destruct (rstrip_head d s' Hd) as (t & ->). cbn. now rewrite Hd.
Qed.

Lemma tidy_strip_squeeze s : tidy (strip (squeeze false s)) = true.
Proof.
  unfold tidy, strip, lstrip.
  pose proof (loose_drop_while _ (loose_squeeze false s)) as L.
  rewrite (spaced_rstrip _ L). cbn [andb].
  destruct (drop_while is_space (squeeze false s)) as [|d t] eqn:E; [reflexivity|].
  pose proof (drop_while_head _ _ _ _ E) as Hd.
  destruct (rstrip_head d t Hd) as (t' & ->). now rewrite Hd.
Qed.

(** ** Tidy text is left as it is *)

Lemma squeeze_spaced s : spaced s = true ->
  forall b, (b = true -> starts_solid s = true) -> squeeze b s = s.
Proof.
  induction s as [|c s IH]; intros H b Hb; [reflexivity|].
  cbn [spaced] in H. apply andb_true_iff in H. destruct H as [Hc Hs].
  cbn [squeeze]. destruct (is_space c) eqn:Ec.
  - apply andb_true_iff in Hc. destruct Hc as [Hc Hd].
    destruct b.
    + specialize (Hb eq_refl). cbn in Hb. rewrite Ec in Hb. discriminate Hb.
    + apply Ascii.eqb_eq in Hc. subst c. f_equal. apply IH; auto.
  - f_equal. apply IH; [exact Hs|discriminate].
Qed.

Lemma spaced_all_space s :
  spaced s = true -> forallb is_space s = true -> s = [].
Proof.
  destruct s as [|c s]; [reflexivity|].
  cbn. destruct (is_space c); [|discriminate].
  intros H. apply andb_true_iff in H. destruct H as [H _].
  apply andb_true_iff in H. destruct H as [_ H].
  destruct s as [|d s]; [discriminate H|].
  cbn in H |- *. apply negb_true_iff in H. now rewrite H.
Qed.

Lemma rstrip_spaced s : spaced s = true -> rstrip s = s.
Proof.
  induction s as [|c s IH]; [reflexivity|].
  intros H. rewrite rstrip_cons.
  pose proof H as H'. cbn [spaced] in H. apply andb_true_iff in H. destruct H as [Hc Hs].
  destruct (forallb is_space s) eqn:Ea.
  - rewrite (spaced_all_space s Hs Ea) in *.
    destruct (is_space c); [|reflexivity].
    cbn in Hc. now rewrite andb_false_r in Hc.
  - now rewrite (IH Hs).
Qed.

Lemma tidy_fixed s :
  tidy s = true -> squeeze false s = s /\ strip s = s.
Proof.
  unfold tidy. intros H. apply andb_true_iff in H. destruct H as [Hs Hh]. split.
  - apply squeeze_spaced; [exact Hs|discriminate].
  - unfold strip, lstrip.
    replace (drop_while is_space s) with s; [now apply rstrip_spaced|].
    destruct s as [|c s]; [reflexivity|].
    cbn. apply negb_true_iff in Hh. now rewrite Hh.
Qed.

(** * The markers *)

Lemma without_markers_space_prefix w t :
  forallb is_space w = true ->
  nonspace (without_markers (w ++ t)) = nonspace (without_markers t).
Proof.
  induction w as [|c w IH]; [reflexivity|].
  cbn [forallb]. intros H. apply andb_true_iff in H. destruct H as [Hc Hw].
  cbn [app without_markers]. rewrite (is_bar_solid c Hc). cbn [andb].
  destruct (w ++ t) as [|d u] eqn:E.
  - destruct w; [|discriminate E]. cbn in E. subst t.
    now rewrite nonspace_cons, Hc.
  - rewrite nonspace_cons, Hc. now apply IH.
Qed.

Lemma nonspace_strip_markers s :
  nonspace (strip_markers s) = nonspace (without_markers s).
Proof.
  unfold strip_markers, pat_marker.
  apply (re_sub_ind (pat_pair is_bar is_EHD) " "
           (pat_pair_consumes is_bar is_EHD is_bar_solid)
           (fun s out => nonspace out = nonspace (without_markers s))).
  - reflexivity.
  - intros c s' E IH.
    rewrite (rmatch_pair _ _ is_bar_solid) in E.
    assert (W : without_markers (c :: s') = c :: without_markers s').
    { cbn [without_markers]. destruct s' as [|d s'']; [reflexivity|].
      destruct (is_bar c) eqn:Ec; [|reflexivity].
      destruct (is_EHD d) eqn:Ed; [|reflexivity].
      unfold pair_match in E. cbn [drop_while] in E.
      destruct (is_space c) eqn:Es; [now rewrite (is_bar_solid c Es) in Ec|].
      rewrite Ec, Ed in E. discriminate E. }
    rewrite W, !nonspace_cons. now rewrite IH.
  - intros s' rest E _ IH.
    rewrite (rmatch_pair _ _ is_bar_solid) in E.
    destruct (pair_match_shape _ _ _ _ E)
      as (w & c1 & c2 & w2 & -> & Hw & H1 & H2 & Hw2 & _).
    rewrite nonspace_app. change (nonspace " ") with ([] : str). cbn [app].
    rewrite IH, (without_markers_space_prefix w _ Hw).
    cbn [without_markers]. rewrite H1, H2. cbn [andb].
    symmetry. now apply without_markers_space_prefix.
Qed.

(** * An occurrence of an exception survives the exception branch *)

Lemma upper_char_space : forall c, is_space (upper_char c) = is_space c.
Proof. all_chars. Qed.

Lemma upper_char_bar : forall c, is_bar (upper_char c) = is_bar c.
Proof. all_chars. Qed.

Lemma upper_char_blank : forall c, Ascii.eqb (upper_char c) " " = Ascii.eqb c " ".
Proof. all_chars. Qed.

Lemma upper_char_idem : forall c, upper_char (upper_char c) = upper_char c.
Proof. all_chars. Qed.

Lemma upper_char_EHD : forall c, is_EHD (upper_char c) = false -> is_EHD c = false.
Proof. all_chars. Qed.

Lemma starts_solid_upper m : starts_solid (upper m) = starts_solid m.
Proof. destruct m as [|c m]; [reflexivity|]. cbn. now rewrite upper_char_space. Qed.

Lemma spaced_upper m : spaced (upper m) = spaced m.
Proof.
  induction m as [|c m IH]; [reflexivity|].
  change (upper (c :: m)) with (upper_char c :: upper m).
  cbn [spaced]. now rewrite IH, upper_char_space, upper_char_blank, starts_solid_upper.
Qed.

Lemma solid_upper m : solid (upper m) = solid m.
Proof.
  unfold solid. rewrite spaced_upper. f_equal. f_equal.
  - destruct m as [|c m]; [reflexivity|]. cbn [upper map].
    now rewrite upper_char_space, upper_char_idem.
  - f_equal. unfold upper.
    induction m as [|c m IH]; [reflexivity|].
    cbn [map existsb]. now rewrite IH, upper_char_bar.
Qed.

Lemma exceptions_solid : forallb solid exceptions = true.
Proof. vm_compute. reflexivity. Qed.

Lemma solid_parts m :
  solid m = true ->
  exists c m', m = c :: m' /\ marker_char c = false /\
    existsb is_bar m = false /\ spaced m = true /\ starts_solid m = true.
Proof.
  unfold solid. intros H.
  apply andb_true_iff in H. destruct H as [H Hs].
  apply andb_true_iff in H. destruct H as [Hh Hb].
  apply negb_true_iff in Hb.
  destruct m as [|c m']; [discriminate|].
  apply andb_true_iff in Hh. destruct Hh as [H1 H2].
  apply negb_true_iff in H1. apply negb_true_iff in H2.
  exists c, m'. repeat split; auto.
  - unfold marker_char. rewrite H1, (upper_char_EHD c H2).
    cbn in Hb. apply orb_false_iff in Hb. now rewrite (proj1 Hb).
  - cbn. now rewrite H1.
Qed.

(** ** Through the marker substitution *)

Lemma no_marker_at_solid (m t : str) :
  m <> [] -> existsb is_bar m = false -> spaced m = true ->
  pair_match is_bar is_EHD (m ++ t) = None.
Proof.
  destruct m as [|c m]; [congruence|]. intros _ Hb Hs.
  cbn [existsb] in Hb. apply orb_false_iff in Hb. destruct Hb as [Hc Hb].
  cbn [spaced] in Hs. apply andb_true_iff in Hs. destruct Hs as [Hs _].
  unfold pair_match. cbn [app drop_while].
  destruct (is_space c) eqn:Ec.
  - apply andb_true_iff in Hs. destruct Hs as [_ Hs].
    destruct m as [|d m]; [discriminate Hs|].
    cbn in Hs. apply negb_true_iff in Hs.
    cbn [app drop_while]. rewrite Hs.
    cbn [existsb] in Hb. apply orb_false_iff in Hb. destruct Hb as [Hd _].
    rewrite Hd. now destruct (m ++ t).
  - rewrite Hc. now destruct (m ++ t).
Qed.

Lemma strip_markers_copies (m t : str) :
  existsb is_bar m = false -> spaced m = true ->
  strip_markers (m ++ t) = m ++ strip_markers t.
Proof.
  unfold strip_markers, pat_marker.
  induction m as [|c m IH]; intros Hb Hs; [reflexivity|].
  cbn [app]. rewrite re_sub_nomatch.
  - f_equal. apply IH.
    + cbn [existsb] in Hb. now apply orb_false_iff in Hb.
    + cbn [spaced] in Hs. now apply andb_true_iff in Hs.
  - rewrite (rmatch_pair _ _ is_bar_solid).
    now apply (no_marker_at_solid (c :: m) t).
Qed.

Lemma split_before (P : ascii -> bool) (pre rest a : str) m0 t :
  pre ++ rest = a ++ m0 :: t ->
  forallb P pre = true -> P m0 = false ->
  exists a2, a = pre ++ a2.
Proof.
  revert a. induction pre as [|x pre IH]; intros a E F Hm; [now exists a|].
  cbn [forallb] in F. apply andb_true_iff in F. destruct F as [Fx F].
  destruct a as [|y a].
  - cbn in E. inversion E; subst. congruence.
  - cbn in E. inversion E; subst.
    destruct (IH a H1 F Hm) as (a2 & ->). now exists a2.
Qed.

Lemma pair_match_marker_chars s rest :
  pair_match is_bar is_EHD s = Some rest ->
  exists pre, s = pre ++ rest /\ forallb marker_char pre = true /\ pre <> [].
Proof.
  intros H. destruct (pair_match_shape _ _ _ _ H)
    as (w & c1 & c2 & w2 & -> & Hw & H1 & H2 & Hw2 & _).
  exists (w ++ c1 :: c2 :: w2). split; [|split].
  - rewrite <- app_assoc. reflexivity.
  - rewrite forallb_app. cbn [forallb]. unfold marker_char at 2 3.
    rewrite H1, H2, !orb_true_r. cbn [andb].
    apply andb_true_iff. split.
    + apply forallb_forall. intros x Hx. unfold marker_char.
      rewrite forallb_forall in Hw. now rewrite (Hw x Hx).
    + apply forallb_forall. intros x Hx. unfold marker_char.
      rewrite forallb_forall in Hw2. now rewrite (Hw2 x Hx).
  - now destruct w.
Qed.

Lemma strip_markers_keeps m :
  solid m = true ->
  forall a b, exists a' b', strip_markers (a ++ m ++ b) = a' ++ m ++ b'.
Proof.
  intros Hm. destruct (solid_parts m Hm) as (m0 & m' & Em & Hm0 & Hb & Hs & _).
  intros a. remember (length a) as n eqn:En. revert a En.
  induction n as [n IH] using lt_wf_ind. intros a En b.
  destruct (pair_match is_bar is_EHD (a ++ m ++ b)) as [rest|] eqn:E.
  - destruct (pair_match_marker_chars _ _ E) as (pre & Epre & Fpre & Npre).
    rewrite Em in Epre. cbn [app] in Epre. symmetry in Epre.
    destruct (split_before marker_char pre rest a m0 (m' ++ b) Epre Fpre Hm0) as (a2 & ->).
    rewrite <- app_assoc in Epre. apply app_inv_head in Epre.
    change (m0 :: m' ++ b) with ((m0 :: m') ++ b) in Epre. rewrite <- Em in Epre.
    destruct (IH (length a2)) with (a := a2) (b := b) as (a' & b' & E').
    { rewrite En, length_app. destruct pre; [congruence|cbn; lia]. }
    { reflexivity. }
    exists (" " ++ a'), b'.
    unfold strip_markers, pat_marker in *.
    rewrite (re_sub_match _ _ _ rest).
    + rewrite Epre, E'. now rewrite <- app_assoc.
    + now rewrite (rmatch_pair _ _ is_bar_solid).
    + apply (pair_match_shorter _ _ _ _ E).
  - destruct a as [|c a0].
    + exists [], (strip_markers b). cbn [app]. now apply strip_markers_copies.
    + destruct (IH (length a0)) with (a := a0) (b := b) as (a' & b' & E').
      { rewrite En. cbn. lia. }
      { reflexivity. }
      exists (c :: a'), b'. cbn [app].
      unfold strip_markers, pat_marker in *.
      rewrite re_sub_nomatch; [now rewrite E'|].
      now rewrite (rmatch_pair _ _ is_bar_solid).
Qed.

(** ** Through the collapse of whitespace *)

Lemma squeeze_solid_start b t : starts_solid t = true -> squeeze b t = squeeze false t.
Proof.
  destruct t as [|c t]; [discriminate|]. cbn. intros H.
  apply negb_true_iff in H. now rewrite H.
Qed.

Lemma squeeze_app_solid b a t :
  starts_solid t = true -> squeeze b (a ++ t) = squeeze b a ++ squeeze false t.
Proof.
  intros Ht. revert b. induction a as [|c a IH]; intros b.
  - now apply squeeze_solid_start.
  - cbn [app squeeze]. destruct (is_space c); [destruct b|]; now rewrite IH.
Qed.

Lemma squeeze_spaced_app m t :
  spaced m = true ->
  forall b, m <> [] -> (b = true -> starts_solid m = true) ->
  squeeze b (m ++ t) = m ++ squeeze false t.
Proof.
  induction m as [|c m IH]; intros Hs b Hne Hb; [congruence|].
  cbn [spaced] in Hs. apply andb_true_iff in Hs. destruct Hs as [Hc Hs].
  cbn [app squeeze]. destruct (is_space c) eqn:Ec.
  - apply andb_true_iff in Hc. destruct Hc as [Hc Hd].
    destruct b.
    + specialize (Hb eq_refl). cbn in Hb. rewrite Ec in Hb. discriminate Hb.
    + apply Ascii.eqb_eq in Hc. subst c. f_equal.
      apply IH; auto. destruct m; [discriminate Hd|congruence].
  - f_equal. destruct m as [|d m].
    + reflexivity.
    + apply IH; [exact Hs|congruence|discriminate].
Qed.

Lemma squeeze_keeps m :
  solid m = true ->
  forall a b, exists a' b', squeeze false (a ++ m ++ b) = a' ++ m ++ b'.
Proof.
  intros Hm. destruct (solid_parts m Hm) as (m0 & m' & Em & _ & _ & Hs & Hh).
  intros a b. exists (squeeze false a), (squeeze false b).
  rewrite squeeze_app_solid.
  - f_equal. apply squeeze_spaced_app; [exact Hs|rewrite Em; congruence|discriminate].
  - rewrite Em. rewrite Em in Hh. exact Hh.
Qed.

(** ** Through the trimming *)

Lemma rstrip_all_space s : forallb is_space s = true -> rstrip s = [].
Proof.
  induction s as [|c s IH]; [reflexivity|].
  cbn [forallb]. intros H. apply andb_true_iff in H. destruct H as [Hc Hs].
  now rewrite rstrip_cons, Hs, Hc.
Qed.

Lemma rstrip_app u v :
  forallb is_space v = false -> rstrip (u ++ v) = u ++ rstrip v.
Proof.
  intros Hv. induction u as [|c u IH]; [reflexivity|].
  cbn [app]. rewrite rstrip_cons, forallb_app, Hv, andb_false_r. now rewrite IH.
Qed.

Lemma solid_not_all_space m t :
  starts_solid m = true -> forallb is_space (m ++ t) = false.
Proof.
  destruct m as [|c m]; [discriminate|]. cbn. intros H.
  apply negb_true_iff in H. now rewrite H.
Qed.

Lemma rstrip_spaced_app m t :
  spaced m = true -> m <> [] -> rstrip (m ++ t) = m ++ rstrip t.
Proof.
  induction m as [|c m IH]; intros Hs Hne; [congruence|].
  cbn [spaced] in Hs. apply andb_true_iff in Hs. destruct Hs as [Hc Hs].
  cbn [app]. rewrite rstrip_cons.
  destruct m as [|d m].
  - cbn [app]. destruct (is_space c) eqn:Ec.
    + cbn in Hc. now rewrite andb_false_r in Hc.
    + destruct (forallb is_space t) eqn:Et; [|reflexivity].
      now rewrite (rstrip_all_space t Et).
  - assert (F : forallb is_space ((d :: m) ++ t) = false).
    { rewrite forallb_app.
      destruct (forallb is_space (d :: m)) eqn:Ed; [|reflexivity].
      discriminate (spaced_all_space (d :: m) Hs Ed). }
    rewrite F. now rewrite IH.
Qed.

Lemma strip_keeps m :
  solid m = true ->
  forall a b, exists a' b', strip (a ++ m ++ b) = a' ++ m ++ b'.
Proof.
  intros Hm. destruct (solid_parts m Hm) as (m0 & m' & Em & _ & _ & Hs & Hh).
  intros a b. unfold strip, lstrip.
  assert (exists a1, drop_while is_space (a ++ m ++ b) = a1 ++ m ++ b) as (a1 & ->).
  { rewrite drop_while_app_if. destruct (forallb is_space a).
    - exists []. rewrite Em in *. cbn in Hh |- *.
      apply negb_true_iff in Hh. now rewrite Hh.
    - now exists (drop_while is_space a). }
  exists a1, (rstrip b).
  rewrite rstrip_app by now apply solid_not_all_space.
  f_equal. apply rstrip_spaced_app; [exact Hs|rewrite Em; congruence].
Qed.

Lemma clean_exception_keeps m :
  solid m = true ->
  forall a b, exists a' b', clean_exception (a ++ m ++ b) = a' ++ m ++ b'.
Proof.
  intros Hm a b. unfold clean_exception.
  destruct (strip_markers_keeps m Hm a b) as (a1 & b1 & ->).
  rewrite collapse_spaces_squeeze.
  destruct (squeeze_keeps m Hm a1 b1) as (a2 & b2 & ->).
  apply strip_keeps, Hm.
Qed.

(** ** Occurrences *)

Lemma starts_with_app (n t : str) : starts_with n (n ++ t) = true.
Proof.
  induction n as [|c n IH]; [reflexivity|].
  cbn. now rewrite Ascii.eqb_refl, IH.
Qed.

Lemma starts_with_split (n h : str) :
  starts_with n h = true -> exists t, h = n ++ t.
Proof.
  revert h. induction n as [|c n IH]; intros h H; [now exists h|].
  destruct h as [|d h]; [discriminate|]. cbn in H.
  apply andb_true_iff in H. destruct H as [Hc H].
  apply Ascii.eqb_eq in Hc. subst d.
  destruct (IH h H) as (t & ->). now exists t.
Qed.

Lemma substring_in_app (n a b : str) : substring_in n (a ++ n ++ b) = true.
Proof.
  induction a as [|c a IH].
  - cbn [app]. destruct (n ++ b) eqn:E; cbn [substring_in]; rewrite <- E;
      now rewrite starts_with_app.
  - cbn [app substring_in]. now rewrite IH, orb_true_r.
Qed.

Lemma substring_in_split (n h : str) :
  substring_in n h = true -> exists a b, h = a ++ n ++ b.
Proof.
  induction h as [|c h IH]; cbn [substring_in]; intros H.
  - rewrite orb_false_r in H. destruct (starts_with_split _ _ H) as (t & E).
    now exists [], t.
  - apply orb_true_iff in H. destruct H as [H|H].
    + destruct (starts_with_split _ _ H) as (t & E). now exists [], t.
    + destruct (IH H) as (a & b & ->). now exists (c :: a), b.
Qed.

Lemma upper_app a b : upper (a ++ b) = upper a ++ upper b.
Proof. apply map_app. Qed.

(** The result of the exception branch is on the exception list again. *)
Lemma clean_exception_is_exception s :
  is_exception s = true -> is_exception (clean_exception s) = true.
Proof.
  unfold is_exception. intros H.
  apply existsb_exists in H. destruct H as (exc & Hin & H).
  apply existsb_exists. exists exc. split; [exact Hin|].
  apply substring_in_split in H. destruct H as (a & b & E).
  unfold upper in E. apply map_eq_app in E. destruct E as (sa & s1 & -> & Ea & E).
  apply map_eq_app in E. destruct E as (sm & sb & -> & Em & Eb).
  assert (Hm : solid sm = true).
  { rewrite <- solid_upper. unfold upper. rewrite Em.
    pose proof exceptions_solid as F. rewrite forallb_forall in F. now apply F. }
  destruct (clean_exception_keeps sm Hm sa sb) as (a' & b' & ->).
  rewrite !upper_app. unfold upper at 2. rewrite Em. apply substring_in_app.
Qed.

(** * The cleaned name *)

Lemma is_EHD_solid : forall c, is_space c = true -> is_EHD c = false.
Proof. all_chars. Qed.

Lemma ci_D_solid : forall c, is_space c = true -> ci "D" c = false.
Proof. all_chars. Qed.

Lemma ci_K_solid : forall c, is_space c = true -> ci "K" c = false.
Proof. all_chars. Qed.

(** Collapsing and trimming bring no two characters together. *)
Lemma has_pair_squeeze p q s :
  (forall c, is_space c = true -> p c = false) ->
  (forall c, is_space c = true -> q c = false) ->
  has_pair p q s = false ->
  forall b, has_pair p q (squeeze b s) = false.
Proof.
  intros Hp Hq. induction s as [|c s IH]; intros H b; [reflexivity|].
  cbn [has_pair] in H. apply orb_false_iff in H. destruct H as [H1 H2].
  cbn [squeeze]. destruct (is_space c) eqn:Ec.
  - destruct b; [now apply IH|].
    cbn [has_pair]. rewrite (IH H2 true), orb_false_r, (Hp " "%char eq_refl).
    now destruct (squeeze true s).
  - cbn [has_pair]. rewrite (IH H2 false), orb_false_r.
    destruct s as [|d s]; [reflexivity|].
    cbn [squeeze]. destruct (is_space d) eqn:Ed.
    + now rewrite (Hq " "%char eq_refl), andb_false_r.
    + exact H1.
Qed.

Lemma rstrip_prefix s : exists b, s = rstrip s ++ b.
Proof.
  induction s as [|c s (b & E)]; [now exists []|].
  rewrite rstrip_cons. destruct (forallb is_space s).
  - destruct (is_space c); [now exists (c :: s)|now exists s].
  - exists b. cbn. now rewrite <- E.
Qed.

Lemma strip_segment s : exists a b, s = a ++ strip s ++ b.
Proof.
  unfold strip, lstrip.
  destruct (drop_while_app is_space s) as (w & E & _).
  destruct (rstrip_prefix (drop_while is_space s)) as (b & Eb).
  exists w, b. now rewrite <- Eb.
Qed.

Lemma has_pair_strip p q s :
  has_pair p q s = false -> has_pair p q (strip s) = false.
Proof.
  destruct (strip_segment s) as (a & b & E). intros H. rewrite E in H.
  now apply has_pair_app_r, has_pair_app_l in H.
Qed.

Lemma forallb_strip P s : forallb P s = true -> forallb P (strip s) = true.
Proof.
  destruct (strip_segment s) as (a & b & E). intros H. rewrite E in H.
  rewrite !forallb_app in H. apply andb_true_iff in H. destruct H as [_ H].
  now apply andb_true_iff in H.
Qed.

Lemma clean_exception_tidy s : tidy (clean_exception s) = true.
Proof.
  unfold clean_exception. rewrite collapse_spaces_squeeze. apply tidy_strip_squeeze.
Qed.

Lemma clean_exception_no_marker s :
  has_pair is_bar is_EHD (clean_exception s) = false.
Proof.
  unfold clean_exception. rewrite collapse_spaces_squeeze.
  apply has_pair_strip, has_pair_squeeze;
    [apply is_bar_solid|apply is_EHD_solid|].
  unfold strip_markers, pat_marker.
  now apply re_sub_pair_removes; [apply is_bar_solid|].
Qed.

(** What the exception branch does to a text without markers whose
    whitespace is in order: nothing. *)
Lemma clean_exception_fixed r :
  tidy r = true -> has_pair is_bar is_EHD r = false -> clean_exception r = r.
Proof.
  intros Ht Hp. unfold clean_exception, strip_markers, pat_marker.
  rewrite (re_sub_pair_unchanged _ _ is_bar_solid _ _ Hp), collapse_spaces_squeeze.
  destruct (tidy_fixed r Ht) as [-> ->]. reflexivity.
Qed.

Lemma clean_channel_name_text c s :
  clean_channel_name (PStr (c :: s)) = clean_text (c :: s).
Proof. reflexivity. Qed.

Lemma is_exception_nonempty s : is_exception s = true -> s <> [].
Proof. intros H ->. vm_compute in H. discriminate H. Qed.

Lemma clean_channel_name_exception s :
  is_exception s = true -> clean_channel_name (PStr s) = clean_exception s.
Proof.
  intros H. destruct s as [|c s]; [now apply is_exception_nonempty in H|].
  rewrite clean_channel_name_text. unfold clean_text. now rewrite H.
Qed.

Lemma placeholder_tidy : tidy placeholder_name = true.
Proof. vm_compute. reflexivity. Qed.

Lemma clean_standard_tidy s : tidy (clean_standard s) = true.
Proof.
  unfold clean_standard. rewrite collapse_spaces_squeeze.
  pose proof (tidy_strip_squeeze (main_name (strip_markers (strip_quality_tokens s)))) as H.
  destruct (strip _); [exact placeholder_tidy|exact H].
Qed.

Lemma clean_standard_nonempty s : clean_standard s <> [].
Proof.
  unfold clean_standard. destruct (strip _); [|discriminate].
  unfold placeholder_name. cbn. discriminate.
Qed.

(** The cleaned name is never empty, and its whitespace is in order. *)
Lemma placeholder_name_tidy : tidy placeholder_name = true.
Proof. vm_compute. reflexivity. Qed.

Lemma clean_channel_name_tidy v : tidy (clean_channel_name v) = true.
Proof.
  destruct v as [| | |s| |]; cbn [clean_channel_name]; try exact placeholder_name_tidy.
  destruct s as [|c s]; [exact placeholder_name_tidy|].
  unfold clean_text.
  destruct (is_exception (c :: s)); [apply clean_exception_tidy|apply clean_standard_tidy].
Qed.

Lemma placeholder_name_nonempty : placeholder_name <> [].
Proof. vm_compute. discriminate. Qed.

Lemma clean_channel_name_nonempty v : clean_channel_name v <> [].
Proof.
  destruct v as [| | |s| |]; cbn [clean_channel_name]; try exact placeholder_name_nonempty.
  destruct s as [|c s]; [exact placeholder_name_nonempty|].
  unfold clean_text.
  destruct (is_exception (c :: s)) eqn:E.
  - apply is_exception_nonempty, clean_exception_is_exception, E.
  - apply clean_standard_nonempty.
Qed.

Lemma spaced_no_line_break s : spaced s = true -> existsb (Ascii.eqb nl) s = false.
Proof.
  induction s as [|c s IH]; [reflexivity|].
  cbn [spaced existsb]. intros H. apply andb_true_iff in H. destruct H as [Hc Hs].
  rewrite (IH Hs), orb_false_r.
  destruct (Ascii.eqb nl c) eqn:E; [|reflexivity].
  apply Ascii.eqb_eq in E. subst c. vm_compute in Hc. discriminate Hc.
Qed.

Lemma clean_channel_name_one_line v :
  existsb (Ascii.eqb nl) (clean_channel_name v) = false.
Proof.
  pose proof (clean_channel_name_tidy v) as H. unfold tidy in H.
  apply andb_true_iff in H. now apply spaced_no_line_break.
Qed.

(** The result of the exception branch is a fixed point. *)
Lemma clean_exception_idempotent s :
  is_exception s = true ->
  clean_channel_name (PStr (clean_exception s)) = clean_exception s.
Proof.
  intros H. pose proof (clean_exception_is_exception s H) as H'.
  rewrite (clean_channel_name_exception _ H').
  apply clean_exception_fixed; [apply clean_exception_tidy|apply clean_exception_no_marker].
Qed.

(** * Collapsing and trimming, word by word *)

Lemma squeeze_space_run b u y :
  forallb is_space u = true -> u <> [] ->
  squeeze b (u ++ y) = if b then squeeze true y else " "%char :: squeeze true y.
Proof.
  intros Hu Hn.
  assert (T : forall v, forallb is_space v = true -> squeeze true (v ++ y) = squeeze true y).
  { induction v as [|c v IH]; [reflexivity|].
    cbn [forallb]. intros H. apply andb_true_iff in H. destruct H as [Hc Hv].
    cbn [app squeeze]. rewrite Hc. now apply IH. }
  destruct u as [|c u]; [congruence|].
  cbn [forallb] in Hu. apply andb_true_iff in Hu. destruct Hu as [Hc Hu].
  cbn [app squeeze]. rewrite Hc, (T u Hu). reflexivity.
Qed.

Lemma markers_as_blanks_cons c s :
  markers_as_blanks (c :: s) =
    match s with
    | d :: s' => if is_bar c && is_EHD d then " "%char :: markers_as_blanks s'
                 else c :: markers_as_blanks s
    | [] => [c]
    end.
Proof. reflexivity. Qed.

Lemma markers_as_blanks_plain c s :
  is_bar c = false -> markers_as_blanks (c :: s) = c :: markers_as_blanks s.
Proof.
  intros H. rewrite markers_as_blanks_cons, H. now destruct s.
Qed.

Lemma markers_as_blanks_space_prefix w t :
  forallb is_space w = true -> markers_as_blanks (w ++ t) = w ++ markers_as_blanks t.
Proof.
  induction w as [|c w IH]; [reflexivity|].
  cbn [forallb]. intros H. apply andb_true_iff in H. destruct H as [Hc Hw].
  cbn [app]. rewrite (markers_as_blanks_plain c _ (is_bar_solid c Hc)).
  now rewrite IH.
Qed.

(** After the collapse of whitespace it makes no difference whether a
    marker went away with the whitespace around it or became a blank. *)
Lemma squeeze_strip_markers s : forall b,
  squeeze b (strip_markers s) = squeeze b (markers_as_blanks s).
Proof.
  unfold strip_markers, pat_marker.
  apply (re_sub_ind (pat_pair is_bar is_EHD) " "
           (pat_pair_consumes is_bar is_EHD is_bar_solid)
           (fun s out => forall b, squeeze b out = squeeze b (markers_as_blanks s))).
  - reflexivity.
  - intros c s' E IH b.
    rewrite (rmatch_pair _ _ is_bar_solid) in E.
    assert (W : markers_as_blanks (c :: s') = c :: markers_as_blanks s').
    { rewrite markers_as_blanks_cons. destruct s' as [|d s'']; [reflexivity|].
      destruct (is_bar c) eqn:Ec; [|reflexivity].
      destruct (is_EHD d) eqn:Ed; [|reflexivity].
      unfold pair_match in E. cbn [drop_while] in E.
      destruct (is_space c) eqn:Es; [now rewrite (is_bar_solid c Es) in Ec|].
      rewrite Ec, Ed in E. discriminate E. }
    rewrite W. cbn [squeeze]. now rewrite !IH.
  - intros s' rest E _ IH b.
    rewrite (rmatch_pair _ _ is_bar_solid) in E.
    destruct (pair_match_shape _ _ _ _ E)
      as (w & c1 & c2 & w2 & -> & Hw & H1 & H2 & Hw2 & _).
    rewrite (markers_as_blanks_space_prefix w _ Hw), markers_as_blanks_cons, H1, H2.
    cbn [andb]. rewrite (markers_as_blanks_space_prefix w2 _ Hw2).
    change (w ++ " "%char :: w2 ++ markers_as_blanks rest)
      with (w ++ [" "%char] ++ w2 ++ markers_as_blanks rest).
    rewrite !app_assoc, <- (app_assoc w).
    rewrite (squeeze_space_run b (w ++ [" "%char] ++ w2) (markers_as_blanks rest)).
    + change ((" " : str) ++ re_sub (pat_pair is_bar is_EHD) " " rest)
        with (" "%char :: re_sub (pat_pair is_bar is_EHD) " " rest).
      cbn [squeeze]. change (is_space " ") with true. cbv iota.
      now rewrite IH.
    + rewrite !forallb_app, Hw, Hw2. reflexivity.
    + now destruct w.
Qed.

(** ** [strip] after the collapse is the words joined by single spaces *)

Lemma words_from_skip s : words_from [] s = words_from [] (drop_while is_space s).
Proof.
  induction s as [|c s IH]; [reflexivity|].
  cbn [words_from drop_while]. destruct (is_space c) eqn:E; [exact IH|].
  cbn [words_from]. now rewrite E.
Qed.

Lemma rstrip_squeeze_solid c s :
  is_space c = false ->
  rstrip (c :: squeeze false s) = c :: rstrip (squeeze false s).
Proof.
  intros Hc. rewrite rstrip_cons, Hc.
  destruct (forallb is_space (squeeze false s)) eqn:E; [|reflexivity].
  now rewrite (rstrip_all_space _ E).
Qed.

Lemma squeeze_false_nil s : squeeze false s = [] -> s = [].
Proof. destruct s as [|c s]; [reflexivity|]. cbn. destruct (is_space c); discriminate. Qed.

Lemma rstrip_squeeze_space c s :
  is_space c = true ->
  rstrip (squeeze false (c :: s)) =
    match drop_while is_space s with
    | [] => []
    | t => " "%char :: rstrip (squeeze false t)
    end.
Proof.
  intros Hc. cbn [squeeze]. rewrite Hc, squeeze_true, rstrip_cons.
  change (is_space " ") with true. cbv iota.
  destruct (drop_while is_space s) as [|e t] eqn:E; [reflexivity|].
  pose proof (drop_while_head _ _ _ _ E) as He.
  cbn [squeeze]. rewrite He. cbn [forallb]. now rewrite He.
Qed.

Lemma join_cons (sep x : str) (rest : list str) :
  join sep (x :: rest) =
    match rest with
    | [] => x
    | _ => x ++ sep ++ join sep rest
    end.
Proof. reflexivity. Qed.

Lemma words_from_nonempty cur s : cur <> [] -> words_from cur s <> [].
Proof.
  revert cur. induction s as [|c s IH]; intros cur H.
  - destruct cur; [congruence|discriminate].
  - cbn [words_from]. destruct (is_space c).
    + destruct cur; [congruence|discriminate].
    + apply IH. discriminate.
Qed.

(** With a word under way, the words joined by spaces are that word
    followed by the rest of the text, collapsed and trimmed on the right. *)
Lemma join_words_from : forall s cur,
  cur <> [] ->
  join " " (words_from cur s) = rev cur ++ rstrip (squeeze false s).
Proof.
  intros s. remember (length s) as n eqn:En. revert s En.
  induction n as [n IH] using lt_wf_ind. intros s En cur Hc.
  destruct s as [|d s'].
  - cbn [words_from]. destruct cur; [congruence|]. cbn [join squeeze].
    change (rstrip []) with ([] : str). now rewrite app_nil_r.
  - cbn [words_from]. destruct (is_space d) eqn:Ed.
    + rewrite (rstrip_squeeze_space d s' Ed).
      assert (X : match cur with [] => words_from [] s' | _ => rev cur :: words_from [] s' end
                  = rev cur :: words_from [] s') by (destruct cur; [congruence|reflexivity]).
      rewrite X, join_cons, words_from_skip.
      pose proof (drop_while_length is_space s') as Hl.
      destruct (drop_while is_space s') as [|e t] eqn:E.
      * cbn [words_from]. now rewrite app_nil_r.
      * pose proof (drop_while_head _ _ _ _ E) as He.
        cbn [words_from]. rewrite He.
        pose proof (words_from_nonempty [e] t) as Hne.
        destruct (words_from [e] t) as [|x xs] eqn:Ew; [exfalso; apply Hne; [discriminate|reflexivity]|].
        rewrite <- Ew. rewrite (IH (length t)) with (s := t);
          [|rewrite En; cbn in Hl |- *; lia|reflexivity|discriminate].
        cbn [rev app squeeze]. rewrite He.
        rewrite (rstrip_squeeze_solid e t He). reflexivity.
    + rewrite (IH (length s')) with (s := s');
        [|rewrite En; cbn; lia|reflexivity|discriminate].
      cbn [rev squeeze]. rewrite Ed, (rstrip_squeeze_solid d s' Ed), <- app_assoc.
      reflexivity.
Qed.

Lemma strip_squeeze_space c s :
  is_space c = true ->
  strip (squeeze false (c :: s)) = strip (squeeze false (drop_while is_space s)).
Proof.
  intros Hc. cbn [squeeze]. rewrite Hc, squeeze_true.
  unfold strip, lstrip. cbn [drop_while]. change (is_space " ") with true.
  reflexivity.
Qed.

Lemma strip_squeeze_skip s :
  strip (squeeze false s) = strip (squeeze false (drop_while is_space s)).
Proof.
  destruct s as [|c s]; [reflexivity|].
  cbn [drop_while]. destruct (is_space c) eqn:E; [|reflexivity].
  now apply strip_squeeze_space.
Qed.

(** [' '.join(s.split())] *)
Lemma strip_squeeze_words s :
  strip (squeeze false s) = join " " (words s).
Proof.
  unfold words. rewrite strip_squeeze_skip, words_from_skip.
  destruct (drop_while is_space s) as [|e t] eqn:E; [reflexivity|].
  pose proof (drop_while_head _ _ _ _ E) as He.
  cbn [words_from]. rewrite He, join_words_from by discriminate.
  cbn [squeeze rev app]. rewrite He.
  unfold strip, lstrip. cbn [drop_while]. rewrite He.
  apply rstrip_squeeze_solid, He.
Qed.

(** C6: on a name of the exception list the cleaning removes the markers
    and puts the whitespace in order, and nothing else.  The result is the
    words of the name, each marker counting as a blank, joined by single
    spaces; its characters that are not whitespace are those of the name
    without its markers, in their order and letter case; its whitespace is
    single spaces between them. *)
Theorem C6_exception_names_keep_their_text (name : str) :
  is_exception name = true ->
  clean_channel_name (PStr name) = join " " (words (markers_as_blanks name)) /\
  nonspace (clean_channel_name (PStr name)) = nonspace (without_markers name) /\
  tidy (clean_channel_name (PStr name)) = true.
Proof.
  intros H. rewrite (clean_channel_name_exception name H).
  split; [|split; [|apply clean_exception_tidy]].
  - unfold clean_exception.
    now rewrite collapse_spaces_squeeze, squeeze_strip_markers, strip_squeeze_words.
  - unfold clean_exception.
    rewrite nonspace_strip, collapse_spaces_squeeze, nonspace_squeeze.
    apply nonspace_strip_markers.
Qed.

Lemma C6_exception_names_keep_their_text_witness :
  is_exception "Sky Select  1|H  x2 |D" = true /\
  clean_channel_name (PStr "Sky Select  1|H  x2 |D")
    = join " " (words (markers_as_blanks "Sky Select  1|H  x2 |D")) /\
  nonspace (clean_channel_name (PStr "Sky Select  1|H  x2 |D")) =
    nonspace (without_markers "Sky Select  1|H  x2 |D") /\
  tidy (clean_channel_name (PStr "Sky Select  1|H  x2 |D")) = true.
Proof.
  split; [vm_compute; reflexivity|].
  apply (C6_exception_names_keep_their_text "Sky Select  1|H  x2 |D").
  vm_compute; reflexivity.
Defined.

(** * The leading run of letters *)

Ltac all_chars_with :=
  let c := fresh "c" in
  intros c; destruct c as [[] [] [] [] [] [] [] []];
  vm_compute; intros; try reflexivity; try discriminate; try congruence.

Lemma alpha_or_blank_alpha :
  forall c, alpha_or_blank c = true -> is_space c = false -> is_alpha c = true.
Proof. all_chars_with. Qed.

Lemma alpha_or_blank_blank :
  forall c, alpha_or_blank c = true -> is_alpha c = false -> c = " "%char.
Proof. all_chars_with. Qed.

Lemma alpha_or_blank_no_bar : forall c, alpha_or_blank c = true -> is_bar c = false.
Proof. all_chars_with. Qed.

Lemma alpha_or_blank_no_4 : forall c, alpha_or_blank c = true -> ci "4" c = false.
Proof. all_chars_with. Qed.

Lemma alpha_or_space_blank :
  forall c, is_alpha c || is_space c = true -> is_space c = false -> alpha_or_blank c = true.
Proof. all_chars_with. Qed.

Lemma rmatch_cat r1 r2 s k :
  rmatch (r1 ;; r2) s k = rmatch r1 s (fun s' => rmatch r2 s' k).
Proof. reflexivity. Qed.

Lemma rmatch_chr p c s k : rmatch (Chr p) (c :: s) k = if p c then k s else None.
Proof. reflexivity. Qed.

Lemma lang_accepts r a : lang r a -> forall x, In x a -> accepts r x = true.
Proof.
  induction 1 as [|p c Hc|r1 r2 a b _ IHa _ IHb| |r a b _ IHa _ IHb]; intros x Hx.
  - destruct Hx.
  - destruct Hx as [<-|[]]. exact Hc.
  - cbn [accepts]. apply in_app_or in Hx. destruct Hx as [Hx|Hx].
    + now rewrite (IHa x Hx).
    + now rewrite (IHb x Hx), orb_true_r.
  - destruct Hx.
  - apply in_app_or in Hx. destruct Hx as [Hx|Hx].
    + exact (IHa x Hx).
    + exact (IHb x Hx).
Qed.

Lemma re_match_lang r y g :
  re_match r y = Some g -> exists rest, y = g ++ rest /\ lang r g.
Proof.
  unfold re_match, match_len. destruct (rmatch r y Some) as [rest|] eqn:E; [|discriminate].
  intros H. inversion H; subst g; clear H.
  destruct (rmatch_suffix _ _ _ E) as (a & -> & L).
  exists rest. now rewrite firstn_app_exact.
Qed.

Lemma main_name_lang_head g :
  lang pat_main_name g -> exists c g', g = c :: g' /\ is_alpha c = true.
Proof.
  unfold pat_main_name, Plus. intros H.
  inversion H as [| |r1 r2 a b Ha Hb| |]; subst.
  inversion Ha as [| |r1 r2 a1 a2 Ha1 Ha2| |]; subst.
  inversion Ha1 as [|p c Hc| | |]; subst.
  exists c, (a2 ++ b). split; [reflexivity|exact Hc].
Qed.

Lemma main_name_lang_chars g :
  lang pat_main_name g -> forallb (fun c => is_alpha c || is_space c) g = true.
Proof.
  intros L. apply forallb_forall. intros x Hx.
  pose proof (lang_accepts _ _ L x Hx) as H.
  unfold pat_main_name, ws_plus, Plus in H. cbn [accepts] in H.
  destruct (is_alpha x), (is_space x); try reflexivity; discriminate H.
Qed.

Lemma squeeze_chars b s :
  forallb (fun c => is_alpha c || is_space c) s = true ->
  forallb alpha_or_blank (squeeze b s) = true.
Proof.
  revert b. induction s as [|c s IH]; intros b H; [reflexivity|].
  cbn [forallb] in H. apply andb_true_iff in H. destruct H as [Hc Hs].
  pose proof (alpha_or_space_blank c Hc) as Hb.
  cbn [squeeze]. destruct (is_space c) eqn:Ec.
  - destruct b; [now apply IH|]. cbn [forallb]. now rewrite IH.
  - cbn [forallb]. rewrite (Hb eq_refl). now apply IH.
Qed.

Lemma has_pair_chars (P p q : ascii -> bool) s :
  (forall c, P c = true -> p c = false) ->
  forallb P s = true -> has_pair p q s = false.
Proof.
  intros Hp. induction s as [|c s IH]; [reflexivity|].
  cbn [forallb has_pair]. intros H. apply andb_true_iff in H. destruct H as [Hc Hs].
  rewrite (IH Hs), (Hp c Hc). now destruct s.
Qed.

Lemma spaced_app_r a b : spaced (a ++ b) = true -> spaced b = true.
Proof.
  induction a as [|c a IH]; [auto|].
  cbn [app spaced]. intros H. apply andb_true_iff in H. apply IH, H.
Qed.

Lemma spaced_drop_while p s : spaced s = true -> spaced (drop_while p s) = true.
Proof.
  destruct (drop_while_app p s) as (w & E & _). intros H. rewrite E in H.
  now apply spaced_app_r in H.
Qed.

Lemma forallb_drop_while (P p : ascii -> bool) s :
  forallb P s = true -> forallb P (drop_while p s) = true.
Proof.
  destruct (drop_while_app p s) as (w & E & _). intros H. rewrite E in H.
  rewrite forallb_app in H. now apply andb_true_iff in H.
Qed.

Lemma drop_while_head_or_nil p s :
  match drop_while p s with
  | [] => True
  | d :: _ => p d = false
  end.
Proof.
  destruct (drop_while p s) as [|d t] eqn:E; [exact I|].
  now apply drop_while_head in E.
Qed.

(** On words separated by single spaces the groups of the pattern go to
    the end of the text. *)
Lemma rmatch_groups : forall t,
  spaced t = true -> forallb alpha_or_blank t = true ->
  match t with
  | [] => True
  | d :: _ => is_alpha d = false
  end ->
  rmatch (Star (ws_plus ;; Plus (Chr is_alpha))) t Some = Some [].
Proof.
  intros t. remember (length t) as n eqn:En. revert t En.
  induction n as [n IH] using lt_wf_ind. intros t En Hs Hc Hh.
  rewrite rmatch_star.
  destruct t as [|d [|e t2]].
  - reflexivity.
  - cbn in Hs. destruct (is_space d) eqn:Ed.
    + now rewrite andb_false_r in Hs.
    + cbn in Hc. rewrite andb_true_r in Hc.
      rewrite (alpha_or_blank_alpha d Hc Ed) in Hh. discriminate Hh.
  - cbn [forallb] in Hc.
    apply andb_true_iff in Hc. destruct Hc as [Hd Hc].
    apply andb_true_iff in Hc. destruct Hc as [He Hc].
    pose proof (alpha_or_blank_blank d Hd Hh) as ->.
    cbn [spaced] in Hs. change (is_space " ") with true in Hs.
    apply andb_true_iff in Hs. destruct Hs as [Hde Hs].
    apply andb_true_iff in Hde. destruct Hde as [_ Hde].
    cbn in Hde. apply negb_true_iff in Hde.
    pose proof (alpha_or_blank_alpha e He Hde) as Hae.
    set (K := fun s' : str =>
                if length s' <? length (" "%char :: e :: t2)
                then rmatch (Star (ws_plus ;; Plus (Chr is_alpha))) s' Some else None).
    enough (E : rmatch (ws_plus ;; Plus (Chr is_alpha)) (" "%char :: e :: t2) K = Some [])
      by now rewrite E.
    unfold ws_plus, Plus. rewrite !rmatch_cat, rmatch_chr.
    change (is_space " ") with true. cbv iota.
    apply rmatch_star_chr_greedy. cbn [drop_while]. rewrite Hde.
    rewrite rmatch_cat, rmatch_chr, Hae.
    apply rmatch_star_chr_greedy. unfold K.
    pose proof (drop_while_length is_alpha t2) as Hl.
    destruct (Nat.ltb_spec (length (drop_while is_alpha t2)) (length (" "%char :: e :: t2)))
      as [_|Hge]; [|cbn in Hge; lia].
    apply (IH (length (drop_while is_alpha t2))).
    + rewrite En. cbn. lia.
    + reflexivity.
    + apply spaced_drop_while. cbn [spaced] in Hs. now apply andb_true_iff in Hs.
    + now apply forallb_drop_while.
    + apply drop_while_head_or_nil.
Qed.

Lemma rmatch_main_name_whole r :
  r <> [] -> tidy r = true -> forallb alpha_or_blank r = true ->
  rmatch pat_main_name r Some = Some [].
Proof.
  destruct r as [|c r1]; [congruence|]. intros _ Ht Hc.
  unfold tidy in Ht. apply andb_true_iff in Ht. destruct Ht as [Hs Hh].
  apply negb_true_iff in Hh.
  cbn [forallb] in Hc. apply andb_true_iff in Hc. destruct Hc as [Hc Hr].
  unfold pat_main_name, Plus. rewrite !rmatch_cat, rmatch_chr.
  rewrite (alpha_or_blank_alpha c Hc Hh).
  apply rmatch_star_chr_greedy. apply rmatch_groups.
  - apply spaced_drop_while. cbn [spaced] in Hs. now apply andb_true_iff in Hs.
  - now apply forallb_drop_while.
  - apply drop_while_head_or_nil.
Qed.

Lemma main_name_whole r :
  r <> [] -> tidy r = true -> forallb alpha_or_blank r = true -> main_name r = r.
Proof.
  intros Hn Ht Hc. unfold main_name, re_match, match_len.
  rewrite (rmatch_main_name_whole r Hn Ht Hc). cbn [length].
  now rewrite Nat.sub_0_r, firstn_all.
Qed.

(** Words of letters separated by single spaces, without HD, are left as
    they are by both branches. *)
Lemma clean_text_fixed r :
  r <> [] -> tidy r = true -> forallb alpha_or_blank r = true ->
  has_pair (ci "H") (ci "D") r = false ->
  clean_text r = r.
Proof.
  intros Hn Ht Hc Hhd.
  assert (Hm : has_pair is_bar is_EHD r = false)
    by (apply (has_pair_chars alpha_or_blank); [apply alpha_or_blank_no_bar|exact Hc]).
  assert (H4 : has_pair (ci "4") (ci "K") r = false)
    by (apply (has_pair_chars alpha_or_blank); [apply alpha_or_blank_no_4|exact Hc]).
  unfold clean_text. destruct (is_exception r).
  - now apply clean_exception_fixed.
  - unfold clean_standard, strip_quality_tokens, strip_markers, pat_HD, pat_4K, pat_marker.
    rewrite (re_sub_pair_unchanged _ _ ci_H_solid _ _ Hhd).
    rewrite (re_sub_FHD_unchanged _ Hhd).
    rewrite (re_sub_pair_unchanged _ _ ci_4_solid _ _ H4).
    rewrite (re_sub_pair_unchanged _ _ is_bar_solid _ _ Hm).
    rewrite (main_name_whole r Hn Ht Hc), collapse_spaces_squeeze.
    destruct (tidy_fixed r Ht) as [-> ->]. now destruct r.
Qed.

(** The result of the standard branch, where the leading run is found. *)
Lemma clean_standard_run s g :
  re_match pat_main_name (strip_markers (strip_quality_tokens s)) = Some g ->
  let r := strip (squeeze false g) in
  clean_standard s = r /\ r <> [] /\ tidy r = true /\
  forallb alpha_or_blank r = true /\ has_pair (ci "H") (ci "D") r = false.
Proof.
  intros E r.
  destruct (re_match_lang _ _ _ E) as (rest & Ey & L).
  destruct (main_name_lang_head g L) as (c & g' & Eg & Hc).
  assert (Hn : r <> []).
  { intros Er. assert (X : nonspace r = nonspace g)
      by (unfold r; now rewrite nonspace_strip, nonspace_squeeze).
    rewrite Er, Eg, nonspace_cons in X.
    assert (Hs : is_space c = false).
    { revert Hc. clear. revert c. all_chars_with. }
    rewrite Hs in X. discriminate X. }
  split; [|split; [exact Hn|split; [apply tidy_strip_squeeze|split]]].
  - unfold clean_standard, main_name. rewrite E, collapse_spaces_squeeze.
    fold r. now destruct r.
  - apply forallb_strip, squeeze_chars, main_name_lang_chars, L.
  - apply has_pair_strip, has_pair_squeeze; [apply ci_H_solid|apply ci_D_solid|].
    apply (has_pair_app_l g rest). rewrite <- Ey.
    unfold strip_markers, pat_marker.
    apply re_sub_pair_creates_none; [apply is_bar_solid|reflexivity|reflexivity|].
    apply strip_quality_tokens_no_HD.
Qed.

Lemma rmatch_star_total r s : exists x, rmatch (Star r) s Some = Some x.
Proof.
  rewrite rmatch_star. destruct (rmatch r s _) as [x|]; eauto.
Qed.

Lemma re_match_main_name_found y :
  starts_alpha y = true -> exists g, re_match pat_main_name y = Some g.
Proof.
  destruct y as [|c y']; [discriminate|]. cbn [starts_alpha]. intros Hc.
  unfold re_match, match_len.
  destruct (rmatch_star_total (ws_plus ;; Plus (Chr is_alpha)) (drop_while is_alpha y'))
    as (x & Hx).
  assert (E : rmatch pat_main_name (c :: y') Some = Some x).
  { unfold pat_main_name, Plus. rewrite !rmatch_cat, rmatch_chr, Hc.
    now apply rmatch_star_chr_greedy. }
  rewrite E. eauto.
Qed.

Lemma re_match_main_name_not_found y :
  starts_alpha y = false -> re_match pat_main_name y = None.
Proof.
  intros H. unfold re_match, match_len, pat_main_name, Plus.
  rewrite !rmatch_cat. destruct y as [|c y']; [reflexivity|].
  cbn [starts_alpha] in H. now rewrite rmatch_chr, H.
Qed.

(** The result of the standard branch, where no leading run is found. *)
Lemma clean_standard_whole s :
  starts_alpha (strip_markers (strip_quality_tokens s)) = false ->
  let r := strip (squeeze false (strip_markers (strip_quality_tokens s))) in
  clean_standard s = match r with [] => placeholder_name | _ => r end /\
  tidy r = true /\
  has_pair (ci "H") (ci "D") r = false /\
  has_pair (ci "4") (ci "K") r = false /\
  has_pair is_bar is_EHD r = false.
Proof.
  intros Ha r.
  split; [|split; [apply tidy_strip_squeeze|split; [|split]]].
  - unfold clean_standard, main_name.
    now rewrite (re_match_main_name_not_found _ Ha), collapse_spaces_squeeze.
  - apply has_pair_strip, has_pair_squeeze; [apply ci_H_solid|apply ci_D_solid|].
    unfold strip_markers, pat_marker.
    apply re_sub_pair_creates_none; [apply is_bar_solid|reflexivity|reflexivity|].
    apply strip_quality_tokens_no_HD.
  - apply has_pair_strip, has_pair_squeeze; [apply ci_4_solid|apply ci_K_solid|].
    unfold strip_markers, pat_marker.
    apply re_sub_pair_creates_none; [apply is_bar_solid|reflexivity|reflexivity|].
    apply strip_quality_tokens_no_4K.
  - apply has_pair_strip, has_pair_squeeze; [apply is_bar_solid|apply is_EHD_solid|].
    unfold strip_markers, pat_marker.
    now apply re_sub_pair_removes; [apply is_bar_solid|].
Qed.

(** A tidy text without tokens and markers that does not start with a
    letter is left as it is by both branches. *)
Lemma clean_text_fixed_whole r :
  r <> [] -> tidy r = true -> starts_alpha r = false ->
  has_pair (ci "H") (ci "D") r = false ->
  has_pair (ci "4") (ci "K") r = false ->
  has_pair is_bar is_EHD r = false ->
  clean_text r = r.
Proof.
  intros Hn Ht Ha Hhd H4 Hm.
  unfold clean_text. destruct (is_exception r).
  - now apply clean_exception_fixed.
  - unfold clean_standard, strip_quality_tokens, strip_markers, pat_HD, pat_4K, pat_marker.
    rewrite (re_sub_pair_unchanged _ _ ci_H_solid _ _ Hhd).
    rewrite (re_sub_FHD_unchanged _ Hhd).
    rewrite (re_sub_pair_unchanged _ _ ci_4_solid _ _ H4).
    rewrite (re_sub_pair_unchanged _ _ is_bar_solid _ _ Hm).
    unfold main_name. rewrite (re_match_main_name_not_found _ Ha), collapse_spaces_squeeze.
    destruct (tidy_fixed r Ht) as [-> ->]. now destruct r.
Qed.

(** Collapsing and trimming keep a first character that is no whitespace. *)
Lemma strip_squeeze_head c t :
  is_space c = false -> exists u, strip (squeeze false (c :: t)) = c :: u.
Proof.
  intros Hc. cbn [squeeze]. rewrite Hc. unfold strip, lstrip. cbn [drop_while].
  rewrite Hc. now apply rstrip_head.
Qed.

(** C7 (the code does not do this): cleaning a cleaned name again is to
    change nothing, for every string.  On HD Sport 1 the first pass gives
    Sport 1 and the second gives Sport: the leading run of letters is looked
    for at line 399, before the whitespace that the HD substitution has left
    in front is stripped at line 404, so the first pass finds no run and
    keeps the digit that the function is to remove.  The same name with the
    token at its end, Sport 1 HD, gives Sport at once. *)
Theorem C7_second_pass_cuts_the_name :
  clean_channel_name (PStr "HD Sport 1") = "Sport 1" /\
  clean_channel_name (PStr (clean_channel_name (PStr "HD Sport 1"))) = "Sport" /\
  clean_channel_name (PStr "Sport 1 HD") = "Sport" /\
  ~ (forall x : str,
       clean_channel_name (PStr (clean_channel_name (PStr x))) = clean_channel_name (PStr x)).
Proof.
  split; [vm_compute; reflexivity|]. split; [vm_compute; reflexivity|].
  split; [vm_compute; reflexivity|].
  intros H. specialize (H ("HD Sport 1" : str)). vm_compute in H. discriminate H.
Qed.

(** X25: cleaning a cleaned name again changes nothing for every input that
    is not text or is empty, for every name of the exception list, and for
    every other name whose text, once the tokens and markers are replaced,
    does not start with whitespace: whether its leading run of letters is
    cut out or, starting with no letter, it is kept whole. *)
Theorem second_cleaning_changes_nothing (name : pyvalue) :
  cleans_to_fixed_point name = true ->
  clean_channel_name (PStr (clean_channel_name name)) = clean_channel_name name.
Proof.
  intros H.
  assert (P : clean_channel_name (PStr placeholder_name) = placeholder_name)
    by (vm_compute; reflexivity).
  destruct name as [| | |s| |]; [exact P|exact P|exact P| |exact P|exact P].
  destruct s as [|c s]; [exact P|].
  cbn [cleans_to_fixed_point] in H.
  destruct (is_exception (c :: s)) eqn:Ex.
  - rewrite (clean_channel_name_exception _ Ex). now apply clean_exception_idempotent.
  - cbn [orb] in H. apply negb_true_iff in H.
    assert (E0 : clean_channel_name (PStr (c :: s)) = clean_standard (c :: s)).
    { rewrite clean_channel_name_text. unfold clean_text. now rewrite Ex. }
    rewrite E0.
    destruct (starts_alpha (strip_markers (strip_quality_tokens (c :: s)))) eqn:Ea.
    + destruct (re_match_main_name_found _ Ea) as (g & Eg).
      destruct (clean_standard_run _ _ Eg) as (Er & Hn & Ht & Hc & Hhd).
      rewrite Er.
      destruct (strip (squeeze false g)) as [|d r] eqn:E; [congruence|].
      rewrite clean_channel_name_text. now apply clean_text_fixed.
    + destruct (clean_standard_whole _ Ea) as (Er & Ht & Hhd & H4 & Hm).
      rewrite Er.
      destruct (strip_markers (strip_quality_tokens (c :: s))) as [|d t] eqn:Et;
        [exact P|].
      cbn [starts_blank] in H. cbn [starts_alpha] in Ea.
      destruct (strip_squeeze_head d t H) as (u & Eu).
      rewrite Eu in Ht, Hhd, H4, Hm |- *.
      rewrite clean_channel_name_text.
      apply clean_text_fixed_whole; auto; discriminate.
Qed.

Lemma second_cleaning_changes_nothing_witness :
  cleans_to_fixed_point (PStr "3sat  4K HD|D") = true /\
  clean_channel_name (PStr (clean_channel_name (PStr "3sat  4K HD|D")))
    = clean_channel_name (PStr "3sat  4K HD|D").
Proof.
  split; [vm_compute; reflexivity|].
  apply (second_cleaning_changes_nothing (PStr "3sat  4K HD|D")). vm_compute; reflexivity.
Defined.

(** * The token letters in the cleaned name *)

Lemma clean_standard_no_pair p q s :
  (forall c, is_space c = true -> p c = false) ->
  (forall c, is_space c = true -> q c = false) ->
  has_pair p q placeholder_name = false ->
  has_pair p q (strip_quality_tokens s) = false ->
  has_pair p q (clean_standard s) = false.
Proof.
  intros Hp Hq Hph H.
  assert (Hy : has_pair p q (strip_markers (strip_quality_tokens s)) = false).
  { unfold strip_markers, pat_marker.
    apply re_sub_pair_creates_none;
      [apply is_bar_solid|now apply Hp|now apply Hq|exact H]. }
  assert (Hg : has_pair p q (main_name (strip_markers (strip_quality_tokens s))) = false).
  { unfold main_name.
    destruct (re_match pat_main_name _) as [g|] eqn:E; [|exact Hy].
    destruct (re_match_lang _ _ _ E) as (rest & Ey & _).
    rewrite Ey in Hy. now apply has_pair_app_l in Hy. }
  unfold clean_standard. rewrite collapse_spaces_squeeze.
  pose proof (has_pair_strip p q _ (has_pair_squeeze p q _ Hp Hq Hg false)) as Hr.
  destruct (strip _); [exact Hph|exact Hr].
Qed.

(** C5 (amended): on a name that is not on the exception list, the token
    substitutions replace every occurrence of the letters HD and 4K, in
    any letter case and with the whitespace around it, by one space,
    whether the occurrence is a word of its own or lies inside a larger
    word: neither the name after the substitutions nor the cleaned name
    holds HD or 4K in any letter case. *)
Theorem C5_no_token_letters_remain (name : str) :
  is_exception name = false ->
  substring_in "HD" (upper (strip_quality_tokens name)) = false /\
  substring_in "4K" (upper (strip_quality_tokens name)) = false /\
  substring_in "HD" (upper (clean_channel_name (PStr name))) = false /\
  substring_in "4K" (upper (clean_channel_name (PStr name))) = false.
Proof.
  intros Hx. rewrite !occurs_HD, !occurs_4K.
  pose proof (strip_quality_tokens_no_HD name) as H1.
  pose proof (strip_quality_tokens_no_4K name) as H2.
  split; [exact H1|]. split; [exact H2|].
  destruct name as [|c s]; [split; vm_compute; reflexivity|].
  rewrite clean_channel_name_text. unfold clean_text. rewrite Hx. split.
  - apply clean_standard_no_pair;
      [apply ci_H_solid|apply ci_D_solid|vm_compute; reflexivity|exact H1].
  - apply clean_standard_no_pair;
      [apply ci_4_solid|apply ci_K_solid|vm_compute; reflexivity|exact H2].
Qed.

Lemma C5_no_token_letters_remain_witness :
  is_exception "HDTV 4k Sport" = false /\
  substring_in "HD" (upper (strip_quality_tokens "HDTV 4k Sport")) = false /\
  substring_in "4K" (upper (strip_quality_tokens "HDTV 4k Sport")) = false /\
  substring_in "HD" (upper (clean_channel_name (PStr "HDTV 4k Sport"))) = false /\
  substring_in "4K" (upper (clean_channel_name (PStr "HDTV 4k Sport"))) = false.
Proof.
  split; [vm_compute; reflexivity|].
  apply (C5_no_token_letters_remain "HDTV 4k Sport"). vm_compute; reflexivity.
Defined.

(** * The playlist file *)

Lemma one_line_app a b : one_line (a ++ b) = one_line a && one_line b.
Proof. unfold one_line. now rewrite existsb_app, negb_orb. Qed.

Lemma lines_of_line l s :
  one_line l = true ->
  lines_of (l ++ nl :: s) = (l :: fst (lines_of s), snd (lines_of s)).
Proof.
  induction l as [|c l IH]; intros H.
  - cbn [app lines_of]. destruct (lines_of s) as [ls rest].
    now rewrite Ascii.eqb_refl.
  - unfold one_line in H. cbn [existsb] in H. rewrite negb_orb in H.
    apply andb_true_iff in H. destruct H as [Hc Hl].
    cbn [app lines_of]. rewrite (IH Hl). cbn [fst snd].
    rewrite Ascii.eqb_sym. apply negb_true_iff in Hc. now rewrite Hc.
Qed.

Lemma lines_of_unlines ls :
  forallb one_line ls = true -> lines_of (unlines ls) = (ls, []).
Proof.
  induction ls as [|l ls IH]; [reflexivity|].
  cbn [forallb]. intros H. apply andb_true_iff in H. destruct H as [Hl Hls].
  unfold unlines in *. cbn [flat_map]. rewrite <- app_assoc. cbn [app].
  rewrite (lines_of_line l _ Hl), (IH Hls). reflexivity.
Qed.

Lemma extinf_line_one_line country clean_name :
  one_line country = true -> one_line clean_name = true ->
  one_line (extinf_line country clean_name) = true.
Proof.
  intros Hc Hn. unfold extinf_line. rewrite !one_line_app, Hc, Hn. reflexivity.
Qed.

Lemma clean_channel_name_is_one_line v : one_line (clean_channel_name v) = true.
Proof. unfold one_line. now rewrite clean_channel_name_one_line. Qed.

Lemma entry_lines_one_line channel :
  well_formed channel = true -> forallb one_line (entry_lines channel) = true.
Proof.
  unfold well_formed, entry_lines. destruct channel as [| | | | |d]; try discriminate.
  destruct (get_channel_url _ _) as [url|]; [|discriminate].
  intros H. apply andb_true_iff in H. destruct H as [Hu Hc].
  cbn [forallb]. rewrite Hu, (extinf_line_one_line _ _ Hc (clean_channel_name_is_one_line _)).
  reflexivity.
Qed.

Lemma entry_lines_length channel :
  well_formed channel = true -> length (entry_lines channel) = 4.
Proof.
  unfold well_formed, entry_lines. destruct channel as [| | | | |d]; try discriminate.
  now destruct (get_channel_url _ _).
Qed.

Lemma unlines_four (a b c d : str) :
  unlines [a; b; c; d] = (a ++ [nl]) ++ (b ++ [nl]) ++ (c ++ [nl]) ++ (d ++ [nl]).
Proof. unfold unlines. cbn [flat_map]. now rewrite app_nil_r. Qed.

(** The body of the loop on a record that serializes. *)
Lemma channel_body_ok d url st :
  get_channel_url (channel_id d) (channel_name d) = Ok url ->
  channel_body (PDict d) st =
    ({| written := written st ++ unlines (entry_lines (PDict d));
        processed_channels := S (processed_channels st);
        original_name := Some (channel_name d) |}, Ok tt).
Proof.
  intros E. unfold entry_lines. rewrite E.
  unfold channel_body, bind, lift, channel_get.
  fold (channel_country d) (channel_id d) (channel_name d). rewrite E.
  unfold bind_original_name, write_line, count_channel.
  cbv beta iota delta [written processed_channels original_name].
  rewrite unlines_four, !app_assoc. reflexivity.
Qed.

Lemma channel_step d url st :
  get_channel_url (channel_id d) (channel_name d) = Ok url ->
  try_except (channel_body (PDict d)) channel_handler st =
    ({| written := written st ++ unlines (entry_lines (PDict d));
        processed_channels := S (processed_channels st);
        original_name := Some (channel_name d) |}, Ok tt).
Proof.
  intros E. unfold try_except. now rewrite (channel_body_ok d url st E).
Qed.

Lemma for_channels_well_formed channels : forall st,
  forallb well_formed channels = true ->
  exists st',
    for_channels channels st = (st', Ok tt) /\
    written st' = written st ++ unlines (flat_map entry_lines channels) /\
    processed_channels st' = processed_channels st + length channels.
Proof.
  induction channels as [|channel rest IH]; intros st H.
  - exists st. cbn. now rewrite app_nil_r, Nat.add_0_r.
  - cbn [forallb] in H. apply andb_true_iff in H. destruct H as [Hc Hr].
    cbn [for_channels]. unfold bind at 1.
    destruct channel as [| | | | |d]; try discriminate Hc.
    pose proof Hc as Hw. unfold well_formed in Hc.
    destruct (get_channel_url (channel_id d) (channel_name d)) as [url|] eqn:E;
      [|discriminate Hc].
    rewrite (channel_step d url st E).
    destruct (IH {| written := written st ++ unlines (entry_lines (PDict d));
                    processed_channels := S (processed_channels st);
                    original_name := Some (channel_name d) |} Hr)
      as (st' & Ef & Ew & Ep).
    exists st'. split; [exact Ef|]. split.
    + rewrite Ew. cbn [written flat_map]. unfold unlines.
      now rewrite flat_map_app, app_assoc.
    + rewrite Ep. cbn [processed_channels length]. lia.
Qed.

Lemma flat_map_entry_lines channels :
  forallb well_formed channels = true ->
  forallb one_line (flat_map entry_lines channels) = true /\
  length (flat_map entry_lines channels) = 4 * length channels.
Proof.
  induction channels as [|channel rest IH]; [now split|].
  cbn [forallb]. intros H. apply andb_true_iff in H. destruct H as [Hc Hr].
  destruct (IH Hr) as [IH1 IH2]. cbn [flat_map]. split.
  - now rewrite forallb_app, (entry_lines_one_line _ Hc), IH1.
  - rewrite length_app, (entry_lines_length _ Hc), IH2. cbn [length]. lia.
Qed.

Lemma well_formed_serializes channel :
  well_formed channel = true -> serializes channel = true.
Proof.
  unfold well_formed, serializes. destruct channel; try discriminate.
  now destruct (get_channel_url _ _).
Qed.

(** The block of four lines of the record at place [n]. *)
Lemma entry_block channels : forall n channel,
  forallb well_formed channels = true ->
  nth_error channels n = Some channel ->
  firstn 4 (skipn (4 * n) (flat_map entry_lines channels)) = entry_lines channel.
Proof.
  induction channels as [|c rest IH]; intros n channel H E; [now destruct n|].
  cbn [forallb] in H. apply andb_true_iff in H. destruct H as [Hc Hr].
  pose proof (entry_lines_length c Hc) as L.
  cbn [flat_map]. destruct n as [|n].
  - cbn in E. inversion E; subst c. rewrite Nat.mul_0_r. cbn [skipn].
    rewrite firstn_app, L, Nat.sub_diag, firstn_O, app_nil_r.
    rewrite <- L. apply firstn_all.
  - cbn [nth_error] in E.
    replace (4 * S n) with (length (entry_lines c) + 4 * n) by (rewrite L; lia).
    rewrite skipn_app, skipn_all2 by lia.
    replace (length (entry_lines c) + 4 * n - length (entry_lines c)) with (4 * n) by lia.
    cbn [app]. now apply IH.
Qed.

(** C4 as stated fails: a record whose country holds a line break
    serializes without error, and its EXTINF entry takes two lines; the
    file of this one record has six lines, not five. *)
Lemma C4_line_break_adds_a_line :
  serializes line_break_record = true /\
  (exists content,
     convert_json_to_m3u8 None [line_break_record] = (true, Some content) /\
     length (fst (lines_of content)) = 6) /\
  ~ (forall channels,
       forallb serializes channels = true ->
       exists content,
         convert_json_to_m3u8 None channels = (true, Some content) /\
         length (fst (lines_of content)) = 1 + 4 * length channels).
Proof.
  split; [reflexivity|]. split.
  - eexists. split; vm_compute; reflexivity.
  - intros H. destruct (H [line_break_record] eq_refl) as (content & E & L).
    vm_compute in E. inversion E; subst content. vm_compute in L. discriminate L.
Qed.

(** C4 (amended): for a list of N records that serialize without error
    and whose country and URL hold no line break, the file is the header
    line followed by the four lines of each record (user agent, referrer,
    EXTINF, URL) in the order of the list: 1 + 4 N lines, each ended by a
    line break, the header first and the block of the record at place n
    (from 0) after the first 1 + 4 n lines. *)
Theorem C4_header_and_four_lines_per_entry (channels : list pyvalue) :
  forallb well_formed channels = true ->
  exists content lines,
    convert_json_to_m3u8 None channels = (true, Some content) /\
    content = unlines (header_line :: flat_map entry_lines channels) /\
    lines_of content = (lines, []) /\
    length lines = 1 + 4 * length channels /\
    nth_error lines 0 =
      Some ("#EXTM3U8 x-url-tvg=https://vav00.de/sources/epg/epg_de.xml,https://epgshare01.online/epgshare01/epg_ripper_DE1.xml.gz" : str) /\
    forall n channel,
      nth_error channels n = Some channel ->
      exists d url,
        channel = PDict d /\
        get_channel_url (channel_id d) (channel_name d) = Ok url /\
        firstn 4 (skipn (1 + 4 * n) lines) =
          [ "#EXTVLCOPT:http-user-agent=VAVOO/2.6" : str;
            "#EXTVLCOPT:http-referrer=https://vavoo.tv/" : str;
            "#EXTINF:-1 group-title=" ++ [dq] ++ py_str (channel_country d) ++ [dq] ++
            " tvg-logo=" ++ [dq] ++
            "https://raw.githubusercontent.com/SuperNova-Repo/Vavuu-IPTV/refs/heads/main/VAVOO_%26_OTT-Navigator-icon.jpg"
            ++ [dq] ++
            " tvg-name=" ++ [dq] ++ clean_channel_name (channel_name d) ++ [dq] ++
            ", " ++ clean_channel_name (channel_name d);
            url ].
Proof.
  intros H. destruct (flat_map_entry_lines channels H) as [Hl Hn].
  unfold convert_json_to_m3u8, write_playlist. unfold bind at 1.
  cbn [write_line initial_state written processed_channels original_name app].
  destruct (for_channels_well_formed channels
              {| written := header_line ++ [nl]; processed_channels := 0;
                 original_name := None |} H) as (st' & -> & Ew & _).
  cbn [written] in Ew.
  exists (written st'), (header_line :: flat_map entry_lines channels).
  split; [reflexivity|].
  assert (E : written st' = unlines (header_line :: flat_map entry_lines channels))
    by (rewrite Ew; reflexivity).
  split; [exact E|]. split; [|split; [|split]].
  - rewrite E. apply lines_of_unlines. cbn [forallb]. now rewrite Hl.
  - cbn [length]. rewrite Hn. lia.
  - reflexivity.
  - intros n channel En.
    pose proof (entry_block channels n channel H En) as B.
    assert (Hw : well_formed channel = true).
    { apply nth_error_In in En. rewrite forallb_forall in H. now apply H. }
    destruct channel as [| | | | |d]; try discriminate Hw.
    unfold well_formed in Hw. unfold entry_lines in B at 2.
    destruct (get_channel_url (channel_id d) (channel_name d)) as [url|] eqn:Eu;
      [|discriminate Hw].
    exists d, url. split; [reflexivity|]. split; [exact Eu|].
    change (skipn (1 + 4 * n) (header_line :: flat_map entry_lines channels))
      with (skipn (4 * n) (flat_map entry_lines channels)).
    rewrite B. reflexivity.
Qed.

Lemma C4_header_and_four_lines_per_entry_witness :
  forallb well_formed [ProSieben; blank_record; bild_record] = true /\
  exists content lines,
    convert_json_to_m3u8 None [ProSieben; blank_record; bild_record] = (true, Some content) /\
    content = unlines (header_line :: flat_map entry_lines [ProSieben; blank_record; bild_record]) /\
    lines_of content = (lines, []) /\
    length lines = 1 + 4 * length [ProSieben; blank_record; bild_record] /\
    nth_error lines 0 =
      Some ("#EXTM3U8 x-url-tvg=https://vav00.de/sources/epg/epg_de.xml,https://epgshare01.online/epgshare01/epg_ripper_DE1.xml.gz" : str) /\
    forall n channel,
      nth_error [ProSieben; blank_record; bild_record] n = Some channel ->
      exists d url,
        channel = PDict d /\
        get_channel_url (channel_id d) (channel_name d) = Ok url /\
        firstn 4 (skipn (1 + 4 * n) lines) =
          [ "#EXTVLCOPT:http-user-agent=VAVOO/2.6" : str;
            "#EXTVLCOPT:http-referrer=https://vavoo.tv/" : str;
            "#EXTINF:-1 group-title=" ++ [dq] ++ py_str (channel_country d) ++ [dq] ++
            " tvg-logo=" ++ [dq] ++
            "https://raw.githubusercontent.com/SuperNova-Repo/Vavuu-IPTV/refs/heads/main/VAVOO_%26_OTT-Navigator-icon.jpg"
            ++ [dq] ++
            " tvg-name=" ++ [dq] ++ clean_channel_name (channel_name d) ++ [dq] ++
            ", " ++ clean_channel_name (channel_name d);
            url ].
Proof.
  split; [vm_compute; reflexivity|].
  apply (C4_header_and_four_lines_per_entry [ProSieben; blank_record; bild_record]).
  vm_compute; reflexivity.
Defined.

(** * The fields of a written entry *)

Lemma get_channel_url_nonempty id name url :
  get_channel_url id name = Ok url -> url <> [].
Proof.
  unfold get_channel_url. destruct (py_upper _) as [u|]; [|discriminate].
  destruct (substring_in _ u); [intros E; inversion E; discriminate|].
  destruct (truthy id); intros E; inversion E; discriminate.
Qed.

Lemma dict_get_default d key default :
  has_key d key = false -> dict_get d key default = default.
Proof.
  induction d as [|[k v] d IH]; [reflexivity|].
  cbn. destruct (str_eqb k key); [discriminate|exact IH].
Qed.

(** C8 as stated fails: a country that is present and empty is written as
    it is, so the group-title of the entry is empty. *)
Lemma C8_empty_country_is_written :
  (exists content,
     convert_json_to_m3u8 None [blank_record] = (true, Some content) /\
     lines_of content =
       ([header_line; user_agent_line; referrer_line;
         extinf_line "" "Unbekannter Kanal"; placeholder_url], [])) /\
  ~ (forall d st st',
       channel_body (PDict d) st = (st', Ok tt) ->
       py_str (channel_country d) <> []).
Proof.
  split.
  - eexists. split; vm_compute; reflexivity.
  - intros H.
    refine (H [("id" : str, PNone); ("name" : str, PStr ""); ("country" : str, PStr "")]
              initial_state _ _ _).
    + vm_compute. reflexivity.
    + reflexivity.
Qed.

(** C8 (amended): for every record that is serialized, the display name
    (tvg-name and label) and the stream URL are not empty, and a record
    whose name is missing, empty or not text gets the placeholder name; the
    group-title is the text of the country value of the record, which is
    Unbekannt where the record has no country. *)
Theorem C8_written_fields (channel : pyvalue) (st st' : loop_state) :
  channel_body channel st = (st', Ok tt) ->
  exists d url,
    channel = PDict d /\
    get_channel_url (channel_id d) (channel_name d) = Ok url /\
    written st' =
      written st ++
      unlines [user_agent_line; referrer_line;
               extinf_line (py_str (channel_country d)) (clean_channel_name (channel_name d));
               url] /\
    clean_channel_name (channel_name d) <> [] /\
    url <> [] /\
    (has_key d "country" = false -> py_str (channel_country d) = "Unbekannt") /\
    (has_key d "name" = false \/ truthy (channel_name d) = false ->
     clean_channel_name (channel_name d) = "Unbekannter Kanal").
Proof.
  intros H. destruct channel as [| | | | |d];
    try (unfold channel_body, bind, lift, channel_get in H; discriminate H).
  destruct (get_channel_url (channel_id d) (channel_name d)) as [url|] eqn:E.
  - rewrite (channel_body_ok d url st E) in H. inversion H; subst st'; clear H.
    exists d, url. split; [reflexivity|]. split; [exact E|].
    cbv beta iota delta [written].
    split; [|split; [|split; [|split]]].
    + unfold entry_lines. now rewrite E.
    + apply clean_channel_name_nonempty.
    + now apply get_channel_url_nonempty in E.
    + intros Hk. unfold channel_country. now rewrite dict_get_default.
    + intros [Hk|Ht].
      * unfold channel_name. rewrite dict_get_default by exact Hk. reflexivity.
      * destruct (channel_name d) as [| | |s| |]; try reflexivity.
        destruct s; [reflexivity|discriminate Ht].
  - unfold channel_body, bind, lift, channel_get in H.
    fold (channel_country d) (channel_id d) (channel_name d) in H.
    rewrite E in H. discriminate H.
Qed.

Lemma C8_written_fields_witness :
  exists st',
    channel_body blank_record initial_state = (st', Ok tt) /\
    exists d url,
      blank_record = PDict d /\
      get_channel_url (channel_id d) (channel_name d) = Ok url /\
      written st' =
        written initial_state ++
        unlines [user_agent_line; referrer_line;
                 extinf_line (py_str (channel_country d)) (clean_channel_name (channel_name d));
                 url] /\
      clean_channel_name (channel_name d) <> [] /\
      url <> [] /\
      (has_key d "country" = false -> py_str (channel_country d) = "Unbekannt") /\
      (has_key d "name" = false \/ truthy (channel_name d) = false ->
       clean_channel_name (channel_name d) = "Unbekannter Kanal").
Proof.
  eexists. split.
  - vm_compute. reflexivity.
  - apply (C8_written_fields blank_record initial_state). vm_compute. reflexivity.
Defined.

(** * The pipeline on one record *)

(** C1: the record with id 123, name ProSieben HD|E and country Germany
    gives a playlist with one entry: display name ProSieben, stream URL
    https://huhu.to/play/123/index.m3u8, and group-title Germany in the
    EXTINF line. *)
Theorem C1_prosieben_round_trip :
  clean_channel_name (PStr "ProSieben HD|E") = "ProSieben" /\
  get_channel_url (PStr "123") (PStr "ProSieben HD|E")
    = Ok ("https://huhu.to/play/123/index.m3u8" : str) /\
  extinf_line "Germany" "ProSieben"
    = "#EXTINF:-1 group-title=" ++ [dq] ++ "Germany" ++ [dq] ++
      " tvg-logo=" ++ [dq] ++ logo_url ++ [dq] ++
      " tvg-name=" ++ [dq] ++ "ProSieben" ++ [dq] ++ ", ProSieben" /\
  exists content,
    convert_json_to_m3u8 None [ProSieben] = (true, Some content) /\
    lines_of content =
      ([header_line; user_agent_line; referrer_line;
        extinf_line "Germany" "ProSieben";
        "https://huhu.to/play/123/index.m3u8" : str], []).
Proof.
  split; [vm_compute; reflexivity|].
  split; [vm_compute; reflexivity|].
  split; [vm_compute; reflexivity|].
  eexists. split; vm_compute; reflexivity.
Qed.

(** * URL resolution *)

(** C2: the rules of URL resolution apply in order and on the raw name:
    a raw name that holds BILD TV in any letter case gives the fixed BILD
    address whatever the id; otherwise a non-empty id gives the templated
    address with that id; otherwise the placeholder address (a name that
    is missing or empty holds no BILD TV).  The record
    [bild_record] shows that the raw name is consulted: its cleaned name is
    A, and its URL line is the BILD address. *)
Theorem C2_url_resolution :
  (forall (channel_id : pyvalue) (raw_name : str),
     get_channel_url channel_id (PStr raw_name) =
       Ok (if substring_in "BILD TV" (upper raw_name) then bild_url
           else if truthy channel_id then
             "https://huhu.to/play/" ++ py_str channel_id ++ "/index.m3u8"
           else placeholder_url)) /\
  (forall (channel_id missing_name : pyvalue),
     truthy missing_name = false ->
     get_channel_url channel_id missing_name =
       Ok (if truthy channel_id then
             "https://huhu.to/play/" ++ py_str channel_id ++ "/index.m3u8"
           else placeholder_url)) /\
  (forall id raw_name : str,
     get_channel_url (PStr id) (PStr raw_name) =
       Ok (if substring_in "BILD TV" (upper raw_name) then
             ("https://bild.personalstream.tv/v1/master.m3u8" : str)
           else if negb (length id =? 0) then
             "https://huhu.to/play/" ++ id ++ "/index.m3u8"
           else ("https://example.com/placeholder.m3u8" : str))) /\
  (clean_channel_name (PStr "A1 BILD TV") = "A" /\
   exists content,
     convert_json_to_m3u8 None [bild_record] = (true, Some content) /\
     lines_of content =
       ([header_line; user_agent_line; referrer_line;
         extinf_line "Germany" "A"; bild_url], [])).
Proof.
  assert (G : forall (channel_id : pyvalue) (raw_name : str),
     get_channel_url channel_id (PStr raw_name) =
       Ok (if substring_in "BILD TV" (upper raw_name) then bild_url
           else if truthy channel_id then play_url (py_str channel_id)
           else placeholder_url)).
  { intros channel_id raw_name. unfold get_channel_url.
    destruct raw_name as [|c raw]; cbn [truthy length Nat.eqb negb py_upper];
      change (upper (String.list_ascii_of_string "")) with (upper []);
      (destruct (substring_in _ _); [reflexivity|]);
      destruct (truthy channel_id); reflexivity. }
  split; [exact G|].
  split.
  { intros channel_id missing_name H. unfold get_channel_url. rewrite H.
    cbn [py_upper]. change (upper (String.list_ascii_of_string "")) with (upper []).
    cbn. destruct (truthy channel_id); reflexivity. }
  split.
  - intros id raw_name. rewrite G. reflexivity.
  - split; [vm_compute; reflexivity|].
    eexists. split; vm_compute; reflexivity.
Qed.

Lemma C2_url_resolution_witness :
  truthy PNone = false /\
  get_channel_url (PStr "7") PNone =
    Ok (if truthy (PStr "7") then
          "https://huhu.to/play/" ++ py_str (PStr "7") ++ "/index.m3u8"
        else placeholder_url).
Proof.
  split; [reflexivity|].
  apply (proj1 (proj2 C2_url_resolution) (PStr "7") PNone). reflexivity.
Defined.

(** * Isolation of a bad record *)

(** What the loop does with a record that is not a mapping: it is skipped
    when [original_name] is bound, and the [UnboundLocalError] of the
    handler ends the loop when it is not. *)
Lemma bad_record_step (v : pyvalue) (st : loop_state) :
  is_dict v = false ->
  try_except (channel_body v) channel_handler st =
    match original_name st with
    | Some _ => (st, Ok tt)
    | None => (st, Raise UnboundLocalError)
    end.
Proof.
  intros Hv. unfold try_except, channel_body, bind, lift, channel_get.
  destruct v; try discriminate Hv; reflexivity.
Qed.

(** A list that starts with such a record makes the conversion fail, with
    the header as the only line of the file. *)
Lemma first_record_bad_aborts (v : pyvalue) (rest : list pyvalue) :
  is_dict v = false ->
  convert_json_to_m3u8 None (v :: rest) = (false, Some (header_line ++ [nl])).
Proof.
  intros Hv. unfold convert_json_to_m3u8, write_playlist.
  unfold bind at 1. cbn [write_line initial_state written processed_channels original_name].
  cbn [for_channels]. unfold bind at 1.
  rewrite (bad_record_step v _ Hv). reflexivity.
Qed.

(** C3 (the code does not do this): a record that is not a mapping is to
    be skipped wherever it stands, the first place included.  On the list
    [5, ProSieben] the conversion returns False and the file holds the
    header alone; the same record in second place is skipped. *)
Theorem C3_first_bad_record_aborts :
  convert_json_to_m3u8 None [PInt 5; ProSieben] = (false, Some (header_line ++ [nl])) /\
  convert_json_to_m3u8 None [ProSieben; PInt 5] = convert_json_to_m3u8 None [ProSieben] /\
  fst (convert_json_to_m3u8 None [ProSieben; PInt 5]) = true.
Proof.
  split; [apply first_record_bad_aborts; reflexivity|].
  split; vm_compute; reflexivity.
Qed.

(** * Publishing *)

Section PublishFacts.

Variable basename : str -> str.

Lemma ok_step (o : option exn) : ok (step o) = is_none o.
Proof. destruct o; reflexivity. Qed.

Lemma ok_and_then {B} (r : result unit) (f : result B) :
  ok (r then_ f) = ok r && ok f.
Proof. destruct r as [[]|e]; reflexivity. Qed.

Lemma only_exceptions_step (o : option exn) :
  (forall e, o = Some e -> is_Exception e = true) -> only_exceptions (step o).
Proof.
  intros H e. destruct o as [e'|]; cbn; intros E; inversion E; subst. auto.
Qed.

Lemma only_exceptions_and_then {B} (r : result unit) (f : result B) :
  only_exceptions r -> only_exceptions f -> only_exceptions (r then_ f).
Proof.
  intros Hr Hf e. destruct r as [[]|e']; cbn; intros E.
  - apply Hf, E.
  - inversion E; subst. apply Hr. reflexivity.
Qed.

Variable world : ftp_world.
Hypothesis world_ok : raises_exceptions_only world.

Lemma ok_connect ftp_host :
  ok (ftp_connect world ftp_host) =
    is_none (connect world ftp_host) ||
    (raises (connect world ftp_host) gaierror &&
     is_none (connect world (replace "ftps://" "" (replace "ftp://" "" ftp_host)))).
Proof.
  unfold ftp_connect.
  destruct (connect world ftp_host) as [e|]; [|reflexivity].
  destruct e; cbn [is_none orb raises]; try reflexivity.
  now rewrite ok_step.
Qed.

Lemma only_exceptions_connect ftp_host : only_exceptions (ftp_connect world ftp_host).
Proof.
  destruct world_ok as (Hc & _). unfold ftp_connect.
  destruct (connect world ftp_host) as [e|] eqn:E; [|intros e' X; discriminate X].
  assert (He := Hc _ _ E).
  destruct e; try (intros e' X; inversion X; subst; exact He).
  apply only_exceptions_step. intros e' X. eapply Hc, X.
Qed.

Lemma ok_change_dir remote_path :
  ok (ftp_change_dir world remote_path) =
    (length remote_path =? 0) || str_eqb remote_path "/" ||
    is_none (cwd world remote_path) || raises (cwd world remote_path) error_perm.
Proof.
  unfold ftp_change_dir.
  destruct (length remote_path =? 0); [reflexivity|].
  destruct (str_eqb remote_path "/"); [reflexivity|].
  cbn [negb andb orb].
  destruct (cwd world remote_path) as [e|]; [|reflexivity].
  destruct e; reflexivity.
Qed.

Lemma only_exceptions_change_dir remote_path :
  only_exceptions (ftp_change_dir world remote_path).
Proof.
  destruct world_ok as (_ & _ & Hd & _). unfold ftp_change_dir.
  destruct (negb _ && negb _); [|intros e X; discriminate X].
  destruct (cwd world remote_path) as [e|] eqn:E; [|intros e' X; discriminate X].
  assert (He := Hd _ _ E).
  destruct e; intros e' X; inversion X; subst; exact He.
Qed.

Lemma exchange_ok file_path ftp_host ftp_user ftp_pass remote_path :
  ok (ftp_exchange basename world file_path ftp_host ftp_user ftp_pass remote_path) =
    exchange_succeeds basename world file_path ftp_host ftp_user ftp_pass remote_path.
Proof.
  unfold ftp_exchange, exchange_succeeds.
  rewrite !ok_and_then, ok_connect, ok_change_dir, !ok_step. cbn [ok].
  rewrite andb_true_r, !andb_assoc. reflexivity.
Qed.

Lemma exchange_only_exceptions file_path ftp_host ftp_user ftp_pass remote_path :
  only_exceptions
    (ftp_exchange basename world file_path ftp_host ftp_user ftp_pass remote_path).
Proof.
  destruct world_ok as (Hc & Hl & Hd & Ho & Hs & Hq). unfold ftp_exchange.
  repeat apply only_exceptions_and_then;
    try apply only_exceptions_connect;
    try apply only_exceptions_change_dir;
    try (apply only_exceptions_step; eauto).
  intros e X; discriminate X.
Qed.

Lemma exchange_result_is_true file_path ftp_host ftp_user ftp_pass remote_path b :
  ftp_exchange basename world file_path ftp_host ftp_user ftp_pass remote_path = Ok b ->
  b = true.
Proof.
  unfold ftp_exchange.
  destruct (ftp_connect _ _) as [[]|]; cbn; [|discriminate].
  destruct (step (login _ _ _)) as [[]|]; cbn; [|discriminate].
  destruct (ftp_change_dir _ _) as [[]|]; cbn; [|discriminate].
  destruct (step (open_rb _ _)) as [[]|]; cbn; [|discriminate].
  destruct (step (storbinary _ _)) as [[]|]; cbn; [|discriminate].
  destruct (step (quit _)) as [[]|]; cbn; [|discriminate].
  congruence.
Qed.

Lemma upload_result file_path ftp_host ftp_user ftp_pass remote_path :
  upload_to_ftp basename world file_path ftp_host ftp_user ftp_pass remote_path =
    Ok (exchange_succeeds basename world file_path ftp_host ftp_user ftp_pass remote_path).
Proof.
  rewrite <- exchange_ok. unfold upload_to_ftp.
  pose proof (exchange_only_exceptions file_path ftp_host ftp_user ftp_pass remote_path) as Hx.
  pose proof (exchange_result_is_true file_path ftp_host ftp_user ftp_pass remote_path) as Ht.
  destruct (ftp_exchange _ _ _ _ _ _ _) as [b|e]; cbn [ok].
  - now rewrite (Ht b eq_refl).
  - rewrite (Hx e eq_refl). destruct (in_all_errors e); reflexivity.
Qed.

End PublishFacts.

(** C9 as stated fails: the refused directory change is caught, and the
    upload goes on and returns True. *)
Lemma C9_directory_error_is_not_a_failure :
  ~ (forall world file_path ftp_host ftp_user ftp_pass remote_path e,
       raises_exceptions_only world ->
       cwd world remote_path = Some e ->
       length remote_path <> 0 -> remote_path <> ("/" : str) ->
       upload_to_ftp (fun p => p) world file_path ftp_host ftp_user ftp_pass remote_path
         = Ok false).
Proof.
  intros H.
  specialize (H no_such_dir_world ("list.m3u8" : str) ("ftp.example.com" : str)
                ("user" : str) ("secret" : str) ("/pub" : str) error_perm).
  assert (W : raises_exceptions_only no_such_dir_world).
  { unfold raises_exceptions_only, no_such_dir_world; cbn.
    repeat split; intros; try discriminate.
    match goal with H : Some _ = Some _ |- _ => inversion H; reflexivity end. }
  specialize (H W eq_refl).
  assert (Hn : length ("/pub" : str) <> 0) by (cbn; discriminate).
  assert (Hr : ("/pub" : str) <> ("/" : str)) by (cbn; discriminate).
  specialize (H Hn Hr). vm_compute in H. discriminate H.
Qed.

(** C9 (amended): every error of the exchange is caught inside
    [upload_to_ftp] and nothing propagates to the caller; the function
    returns False, but for the two errors it recovers from by design: a
    name-resolution error of the first connect whose retry succeeds, and a
    permission error of the directory change. *)
Theorem C9_upload_never_raises basename world file_path ftp_host ftp_user ftp_pass remote_path :
  raises_exceptions_only world ->
  upload_to_ftp basename world file_path ftp_host ftp_user ftp_pass remote_path =
    Ok (exchange_succeeds basename world file_path ftp_host ftp_user ftp_pass remote_path).
Proof. intros H. now apply upload_result. Qed.

Lemma no_such_dir_world_ok : raises_exceptions_only no_such_dir_world.
Proof.
  unfold raises_exceptions_only, no_such_dir_world; cbn.
  repeat split; intros; try discriminate.
  match goal with H : Some _ = Some _ |- _ => inversion H; reflexivity end.
Qed.

Lemma C9_upload_never_raises_witness :
  raises_exceptions_only no_such_dir_world /\
  upload_to_ftp (fun p => p) no_such_dir_world "list.m3u8" "ftp.example.com" "user" "secret" "/pub"
    = Ok (exchange_succeeds (fun p => p) no_such_dir_world
            "list.m3u8" "ftp.example.com" "user" "secret" "/pub").
Proof.
  split.
  - exact no_such_dir_world_ok.
  - apply (C9_upload_never_raises (fun p => p) no_such_dir_world).
    exact no_such_dir_world_ok.
Defined.

(** * The run *)

(** C10: an empty array from the catalog is treated as a failed load: no
    playlist file is written, the upload is not started, and the failure
    message is the report; the run is the one of a failed download. *)
Theorem C10_empty_catalog_is_a_failed_load :
  forall basename world fs_error m3u8_file_path upload_enabled ftp_config,
    main basename world (Ok (PList [])) fs_error m3u8_file_path upload_enabled ftp_config
      = Ok {| playlist_file := None; upload_started := false; report := MsgLoadFailed |} /\
    main basename world (Ok (PList [])) fs_error m3u8_file_path upload_enabled ftp_config
      = main basename world (Raise TimeoutError) fs_error m3u8_file_path upload_enabled ftp_config /\
    (forall channel,
       playlist_file_opened
         (main basename world (Ok (PList [channel])) None m3u8_file_path upload_enabled None)
       = true).
Proof.
  intros. split; [reflexivity|]. split; [reflexivity|].
  intros channel. unfold main, main_playlist, download_json_from_url.
  cbn [truthy length Nat.eqb negb].
  unfold convert_json_to_m3u8. destruct (write_playlist [channel]) as [st [[]|e]];
    destruct upload_enabled; reflexivity.
Qed.

(** * Further properties of the pipeline *)

(** ** The loop of [convert_json_to_m3u8] on arbitrary records *)

Lemma entry_lines_not_serialized channel :
  serializes channel = false -> entry_lines channel = [].
Proof.
  unfold serializes, entry_lines. destruct channel; try reflexivity.
  destruct (get_channel_url _ _); [discriminate|reflexivity].
Qed.

Lemma get_channel_url_raises id name e :
  get_channel_url id name = Raise e ->
  e = AttributeError /\ truthy name = true /\ is_text name = false.
Proof.
  unfold get_channel_url. destruct (truthy name) eqn:Et.
  - destruct name as [| | |s| |]; cbn [py_upper];
      try (intros H; inversion H; repeat split; reflexivity).
    destruct (substring_in _ (upper s)); [discriminate|].
    destruct (truthy id); discriminate.
  - cbn [py_upper]. destruct (substring_in _ _); [discriminate|].
    destruct (truthy id); discriminate.
Qed.

(** One round of the loop once [original_name] is bound: the record is
    written or skipped, and the variable stays bound. *)
Lemma any_record_step channel st v :
  original_name st = Some v ->
  exists st',
    try_except (channel_body channel) channel_handler st = (st', Ok tt) /\
    written st' = written st ++ unlines (entry_lines channel) /\
    processed_channels st' =
      processed_channels st + (if serializes channel then 1 else 0) /\
    exists v', original_name st' = Some v'.
Proof.
  intros Hv. destruct (is_dict channel) eqn:Ed.
  - destruct channel as [| | | | |d]; try discriminate Ed.
    destruct (get_channel_url (channel_id d) (channel_name d)) as [url|e] eqn:E.
    + rewrite (channel_step d url st E).
      eexists. split; [reflexivity|]. cbv beta iota delta [written processed_channels original_name].
      unfold serializes. rewrite E. cbn [ok].
      split; [reflexivity|]. split; [lia|]. eauto.
    + destruct (get_channel_url_raises _ _ _ E) as (He & _). subst e.
      exists {| written := written st; processed_channels := processed_channels st;
                original_name := Some (channel_name d) |}.
      unfold try_except, channel_body, bind, lift, channel_get.
      fold (channel_country d) (channel_id d) (channel_name d). rewrite E.
      unfold bind_original_name, channel_handler.
      cbv beta iota delta [written processed_channels original_name is_Exception].
      unfold entry_lines, serializes. rewrite E. cbn [ok unlines flat_map].
      split; [reflexivity|]. split; [now rewrite app_nil_r|]. split; [lia|]. eauto.
  - rewrite (bad_record_step channel st Ed), Hv.
    exists st. split; [reflexivity|].
    assert (Hs : serializes channel = false) by (destruct channel; try reflexivity; discriminate).
    rewrite Hs, (entry_lines_not_serialized channel Hs). cbn [unlines flat_map].
    split; [now rewrite app_nil_r|]. split; [lia|]. eauto.
Qed.

Lemma for_channels_bound channels : forall st v,
  original_name st = Some v ->
  exists st',
    for_channels channels st = (st', Ok tt) /\
    written st' = written st ++ unlines (flat_map entry_lines channels) /\
    processed_channels st' = processed_channels st + length (filter serializes channels).
Proof.
  induction channels as [|channel rest IH]; intros st v Hv.
  - exists st. cbn. now rewrite app_nil_r, Nat.add_0_r.
  - destruct (any_record_step channel st v Hv) as (st1 & E1 & W1 & P1 & v1 & N1).
    destruct (IH st1 v1 N1) as (st2 & E2 & W2 & P2).
    exists st2. cbn [for_channels]. unfold bind at 1. rewrite E1.
    split; [exact E2|]. split.
    + rewrite W2, W1. cbn [flat_map]. unfold unlines.
      now rewrite flat_map_app, app_assoc.
    + rewrite P2, P1. cbn [filter]. destruct (serializes channel); cbn [length]; lia.
Qed.





(** ** The shape of a cleaned name *)

Lemma strip_idempotent s : strip (strip s) = strip s.
Proof.
  unfold strip, lstrip at 1.
  assert (H : drop_while is_space (rstrip (lstrip s)) = rstrip (lstrip s)).
  { destruct (lstrip s) as [|c t] eqn:E; [reflexivity|].
    unfold lstrip in E. pose proof (drop_while_head _ _ _ _ E) as Hc.
    destruct (rstrip_head c t Hc) as (t' & ->). cbn [drop_while]. now rewrite Hc. }
  rewrite H. unfold rstrip. now rewrite rev_involutive, drop_while_idem.
Qed.

(** X3: whatever the value of the name field, the cleaned name is not
    empty, holds no line break, has no whitespace at its ends, and its
    whitespace is single spaces. *)
Theorem cleaned_name_shape (name : pyvalue) :
  clean_channel_name name <> [] /\
  one_line (clean_channel_name name) = true /\
  strip (clean_channel_name name) = clean_channel_name name /\
  tidy (clean_channel_name name) = true.
Proof.
  split; [apply clean_channel_name_nonempty|].
  split; [apply clean_channel_name_is_one_line|].
  split; [|apply clean_channel_name_tidy].
  apply (tidy_fixed _ (clean_channel_name_tidy name)).
Qed.

(** ** The leading run of letters *)



(** X5: a name that is not on the exception list and whose text, after
    the substitutions, does not start with a letter is not cut at all: the
    cleaned name is all the words of that text joined by single spaces
    (3sat HD gives 3sat), and the placeholder only where no word is left. *)
Theorem no_leading_letter_keeps_all_words (name : str) :
  is_exception name = false ->
  name <> [] ->
  starts_alpha (strip_markers (strip_quality_tokens name)) = false ->
  clean_channel_name (PStr name) =
    match join " " (words (strip_markers (strip_quality_tokens name))) with
    | [] => placeholder_name
    | kept => kept
    end.
Proof.
  intros Hx Hn Ha. destruct name as [|c s]; [congruence|].
  rewrite clean_channel_name_text. unfold clean_text. rewrite Hx.
  unfold clean_standard, main_name.
  rewrite (re_match_main_name_not_found _ Ha), collapse_spaces_squeeze.
  rewrite strip_squeeze_words. now destruct (join _ _).
Qed.

Lemma no_leading_letter_keeps_all_words_witness :
  is_exception "3sat HD" = false /\
  ("3sat HD" : str) <> [] /\
  starts_alpha (strip_markers (strip_quality_tokens "3sat HD")) = false /\
  clean_channel_name (PStr "3sat HD") =
    match join " " (words (strip_markers (strip_quality_tokens "3sat HD"))) with
    | [] => placeholder_name
    | kept => kept
    end.
Proof.
  split; [vm_compute; reflexivity|]. split; [discriminate|].
  split; [vm_compute; reflexivity|].
  apply (no_leading_letter_keeps_all_words "3sat HD");
    [vm_compute; reflexivity|discriminate|vm_compute; reflexivity].
Defined.

(** X6: the FHD substitution of line 394 never changes anything: it runs
    after the HD substitution, which leaves no HD for it to match.  The
    three substitutions are the HD and the 4K substitution. *)
Theorem fhd_rule_is_dead (name : str) :
  re_sub pat_FHD " " (re_sub pat_HD " " name) = re_sub pat_HD " " name /\
  strip_quality_tokens name = re_sub pat_4K " " (re_sub pat_HD " " name).
Proof.
  pose proof (FHD_rule_finds_nothing name) as H. split; [exact H|].
  unfold strip_quality_tokens. now rewrite H.
Qed.

(** X7: the cleaned form of a name of the exception list is on the
    exception list again. *)
Theorem cleaned_exception_stays_exception (name : str) :
  is_exception name = true ->
  is_exception (clean_channel_name (PStr name)) = true.
Proof.
  intros H. rewrite (clean_channel_name_exception name H).
  now apply clean_exception_is_exception.
Qed.

Lemma cleaned_exception_stays_exception_witness :
  is_exception "sky  |E box |H Sky Box 2 |D" = true /\
  is_exception (clean_channel_name (PStr "sky  |E box |H Sky Box 2 |D")) = true.
Proof.
  split; [vm_compute; reflexivity|].
  apply (cleaned_exception_stays_exception "sky  |E box |H Sky Box 2 |D").
  vm_compute; reflexivity.
Defined.

(** ** Publishing to the root directory *)

(** X9: with the remote path [/] (or none) the directory change is not
    asked for: the result of the upload does not depend on what the server
    would answer to it. *)
Theorem root_path_skips_directory_change
    basename world answer file_path ftp_host ftp_user ftp_pass remote_path :
  remote_path = [] \/ remote_path = ("/" : str) ->
  upload_to_ftp basename (with_cwd world answer) file_path ftp_host ftp_user ftp_pass remote_path
    = upload_to_ftp basename world file_path ftp_host ftp_user ftp_pass remote_path.
Proof.
  intros H. unfold upload_to_ftp, ftp_exchange, ftp_connect.
  assert (E : forall w, ftp_change_dir w remote_path = Ok tt).
  { intros w. unfold ftp_change_dir. destruct H as [->| ->]; reflexivity. }
  rewrite !E. reflexivity.
Qed.

Lemma root_path_skips_directory_change_witness :
  (("/" : str) = [] \/ ("/" : str) = ("/" : str)) /\
  upload_to_ftp (fun p => p) (with_cwd no_such_dir_world (fun _ => Some OSError))
      "list.m3u8" "ftp.example.com" "user" "secret" "/"
    = upload_to_ftp (fun p => p) no_such_dir_world
        "list.m3u8" "ftp.example.com" "user" "secret" "/".
Proof.
  split; [now right|].
  apply (root_path_skips_directory_change (fun p => p) no_such_dir_world
           (fun _ => Some OSError) "list.m3u8" "ftp.example.com" "user" "secret" "/").
  now right.
Defined.

(** ** The run as a whole *)

Lemma convert_true_has_file fs_error channels file :
  convert_json_to_m3u8 fs_error channels = (true, file) ->
  fs_error = None /\ exists content, file = Some content.
Proof.
  unfold convert_json_to_m3u8. destruct fs_error; [discriminate|].
  destruct (write_playlist channels) as [st [[]|e]]; intros E; inversion E; eauto.
Qed.

Lemma convert_file_iff fs_error channels :
  snd (convert_json_to_m3u8 fs_error channels) <> None <-> fs_error = None.
Proof.
  unfold convert_json_to_m3u8. destruct fs_error; cbn [snd].
  - split; [congruence|discriminate].
  - destruct (write_playlist channels) as [st [[]|e]]; cbn [snd]; split;
      try reflexivity; discriminate.
Qed.

(** X10: a run opens the playlist file exactly when the catalog is a
    non-empty list and the directory and the file can be created; and the
    upload is started only when it was asked for, a configuration is there,
    and the conversion of that list has returned True with its file. *)
Theorem upload_only_after_a_written_playlist
    basename world response fs_error m3u8_file_path upload_enabled ftp_config r :
  main basename world response fs_error m3u8_file_path upload_enabled ftp_config = Ok r ->
  (playlist_file r <> None <->
   exists l, response = Ok (PList l) /\ l <> [] /\ fs_error = None) /\
  (upload_started r = true ->
   upload_enabled = true /\ ftp_config <> None /\
   exists l content,
     response = Ok (PList l) /\
     convert_json_to_m3u8 fs_error l = (true, Some content) /\
     playlist_file r = Some content).
Proof.
  unfold main, download_json_from_url.
  assert (F : forall x : run,
            playlist_file x = None -> upload_started x = false ->
            (forall l, response = Ok (PList l) -> l <> [] -> fs_error = None -> False) ->
            (playlist_file x <> None <->
             exists l, response = Ok (PList l) /\ l <> [] /\ fs_error = None) /\
            (upload_started x = true ->
             upload_enabled = true /\ ftp_config <> None /\
             exists l content,
               response = Ok (PList l) /\
               convert_json_to_m3u8 fs_error l = (true, Some content) /\
               playlist_file x = Some content)).
  { intros x Hp Hu Hno. split.
    - split; [congruence|]. intros (l & E1 & E2 & E3). exfalso. eauto.
    - congruence. }
  destruct response as [v|e].
  - destruct v as [| | | |l|]; cbn [main_playlist];
      try (intros E; inversion E; subst r; apply F; [reflexivity|reflexivity|];
           intros l El; discriminate El).
    destruct l as [|c l'].
    + cbn [truthy length Nat.eqb negb]. intros E; inversion E; subst r.
      apply F; [reflexivity|reflexivity|]. intros l El Hl. inversion El; subst l. congruence.
    + cbn [truthy length Nat.eqb negb].
      destruct (convert_json_to_m3u8 fs_error (c :: l')) as [[] file] eqn:Ec.
      * destruct (convert_true_has_file _ _ _ Ec) as (-> & content & ->).
        assert (S1 : forall x : run,
                  playlist_file x = Some content ->
                  (playlist_file x <> None <->
                   exists l, Ok (PList (c :: l')) = Ok (PList l) /\ l <> [] /\
                             @None exn = None)).
        { intros x Hx. split; [|intros _; congruence].
          intros _. exists (c :: l'). repeat split. discriminate. }
        destruct upload_enabled; [destruct ftp_config as [[[[h u] p] rp]|]|].
        -- destruct (upload_to_ftp basename world m3u8_file_path h u p rp) as [[]|e];
             intros E; inversion E; subst r; (split; [now apply S1|]);
             intros _; (split; [reflexivity|]); (split; [discriminate|]);
             exists (c :: l'), content; repeat split; exact Ec.
        -- intros E; inversion E; subst r. split; [now apply S1|]. discriminate.
        -- intros E; inversion E; subst r. split; [now apply S1|]. discriminate.
      * intros E; inversion E; subst r. cbn [playlist_file upload_started].
        split; [|discriminate].
        pose proof (convert_file_iff fs_error (c :: l')) as Hf. rewrite Ec in Hf.
        cbn [snd] in Hf. rewrite Hf. split.
        -- intros ->. exists (c :: l'). repeat split. discriminate.
        -- now intros (l & _ & _ & ->).
  - destruct (is_Exception e); [|discriminate]. cbn [main_playlist].
    intros E; inversion E; subst r. apply F; [reflexivity|reflexivity|].
    intros l El. discriminate El.
Qed.

Lemma upload_only_after_a_written_playlist_witness :
  exists r,
    main (fun p => p) no_such_dir_world (Ok (PList [ProSieben])) None "Vavoo-IPTV.m3u8" true
      (Some ("ftp.example.com" : str, "user" : str, "secret" : str, "/pub" : str)) = Ok r /\
    (playlist_file r <> None <->
     exists l, Ok (PList [ProSieben]) = Ok (PList l) /\ l <> [] /\ @None exn = None) /\
    (upload_started r = true ->
     true = true /\
     Some ("ftp.example.com" : str, "user" : str, "secret" : str, "/pub" : str) <> None /\
     exists l content,
       Ok (PList [ProSieben]) = Ok (PList l) /\
       convert_json_to_m3u8 None l = (true, Some content) /\
       playlist_file r = Some content).
Proof.
  eexists. split.
  - vm_compute. reflexivity.
  - apply (upload_only_after_a_written_playlist (fun p => p) no_such_dir_world
             (Ok (PList [ProSieben])) None "Vavoo-IPTV.m3u8" true
             (Some ("ftp.example.com" : str, "user" : str, "secret" : str, "/pub" : str))).
    vm_compute. reflexivity.
Defined.


(** ** The FTP dialog *)

Lemma is_empty_false s : is_empty s = false -> s <> [].
Proof. now destruct s. Qed.

Lemma is_empty_true s : is_empty s = true -> s = [].
Proof. now destruct s. Qed.

Lemma remote_path_of_shape path_line :
  remote_path_of path_line <> [] /\ strip (remote_path_of path_line) = remote_path_of path_line.
Proof.
  unfold remote_path_of. destruct (is_empty (strip path_line)) eqn:E.
  - split; [discriminate | reflexivity].
  - split; [now apply is_empty_false | apply strip_idempotent].
Qed.

Lemma not_Exception_is_abort e : is_Exception e = false -> is_abort e = true.
Proof. now destruct e. Qed.

(** What the prompts after the first question come to, when they return. *)
Lemma ftp_prompts_cases getpass c r c' :
  ftp_prompts getpass c = (Ok r, c') ->
  r = declined \/
  exists host_line user_line ftp_pass path_line confirm_line,
    is_empty (strip host_line) = false /\
    is_empty (strip user_line) = false /\
    is_empty ftp_pass = false /\
    is_yes (strip (lower confirm_line)) = true /\
    r = (true, Some (strip host_line, strip user_line, ftp_pass, remote_path_of path_line)) /\
    ((getpass = Ok ftp_pass /\
      c = Ok host_line :: Ok user_line :: Ok path_line :: Ok confirm_line :: c') \/
     ((exists e, getpass = Raise e /\ is_Exception e = true) /\
      c = Ok host_line :: Ok user_line :: Ok ftp_pass :: Ok path_line :: Ok confirm_line :: c')).
Proof.
  unfold ftp_prompts, con_bind, con_ret, input.
  destruct c as [|[host_line|e] c]; [discriminate| |discriminate].
  destruct (is_empty (strip host_line)) eqn:Eh; [intros E; inversion E; now left|].
  destruct c as [|[user_line|e] c]; [discriminate| |discriminate].
  destruct (is_empty (strip user_line)) eqn:Eu; [intros E; inversion E; now left|].
  unfold get_password_input.
  destruct getpass as [password|e].
  - destruct (is_empty password) eqn:Ep; [intros E; inversion E; now left|].
    destruct c as [|[path_line|e] c]; [discriminate| |discriminate].
    destruct c as [|[confirm_line|e] c]; [discriminate| |discriminate].
    destruct (is_yes (strip (lower confirm_line))) eqn:Ey; cbn [negb];
      intros E; inversion E; subst; [|now left].
    right. exists host_line, user_line, password, path_line, confirm_line.
    repeat split; auto.
  - destruct (is_Exception e) eqn:Ee; [|discriminate].
    unfold input.
    destruct c as [|[password|e'] c]; [discriminate| |discriminate].
    destruct (is_empty password) eqn:Ep; [intros E; inversion E; now left|].
    destruct c as [|[path_line|e'] c]; [discriminate| |discriminate].
    destruct c as [|[confirm_line|e'] c]; [discriminate| |discriminate].
    destruct (is_yes (strip (lower confirm_line))) eqn:Ey; cbn [negb];
      intros E; inversion E; subst; [|now left].
    right. exists host_line, user_line, password, path_line, confirm_line.
    repeat split; eauto.
Qed.

Lemma con_bind_raises {A B} (m : Con A) (f : A -> Con B) c e c' :
  con_bind m f c = (Raise e, c') ->
  m c = (Raise e, c') \/ exists a c1, m c = (Ok a, c1) /\ f a c1 = (Raise e, c').
Proof.
  unfold con_bind. destruct (m c) as [[a|e0] c1]; intros E.
  - right. eauto.
  - left. inversion E. reflexivity.
Qed.

Lemma input_ok c a c' : input c = (Ok a, c') -> c = Ok a :: c'.
Proof. destruct c as [|x c]; cbn; intros E; inversion E. reflexivity. Qed.

Lemma input_raises c e c' :
  input c = (Raise e, c') -> In (Raise e) c \/ is_abort e = true.
Proof.
  destruct c as [|x c]; cbn; intros E; inversion E; subst.
  - now right.
  - left. now left.
Qed.

Lemma get_password_input_ok getpass c a c' :
  get_password_input getpass c = (Ok a, c') -> c' = c \/ c = Ok a :: c'.
Proof.
  unfold get_password_input. destruct getpass as [password|e].
  - intros E; inversion E. now left.
  - destruct (is_Exception e); [|discriminate]. intros E. right. now apply input_ok.
Qed.

Lemma get_password_input_raises getpass c e c' :
  get_password_input getpass c = (Raise e, c') -> In (Raise e) c \/ is_abort e = true.
Proof.
  unfold get_password_input. destruct getpass as [password|e0]; [discriminate|].
  destruct (is_Exception e0) eqn:Ee.
  - apply input_raises.
  - intros E; inversion E; subst. right. now apply not_Exception_is_abort.
Qed.

(** An error that leaves the prompts was raised by [input()], is the end of
    the input, or is the interrupt of the password prompt. *)
Lemma ftp_prompts_raises getpass c e c' :
  ftp_prompts getpass c = (Raise e, c') ->
  In (Raise e) c \/ is_abort e = true.
Proof.
  unfold ftp_prompts. intros E.
  apply con_bind_raises in E as [E|(host_line & c1 & I1 & E)];
    [now apply input_raises in E|].
  apply input_ok in I1 as ->.
  destruct (is_empty (strip host_line)); [discriminate|].
  apply con_bind_raises in E as [E|(user_line & c2 & I2 & E)];
    [apply input_raises in E as [E|E]; [left; now right | now right]|].
  apply input_ok in I2 as ->.
  destruct (is_empty (strip user_line)); [discriminate|].
  assert (Tail : forall c3, (forall x, In x c3 -> In x c2) ->
            In (Raise e) c3 \/ is_abort e = true ->
            In (Raise e) (Ok host_line :: Ok user_line :: c2) \/ is_abort e = true).
  { intros c3 Sub [I|I]; [left; do 2 right; now apply Sub | now right]. }
  apply con_bind_raises in E as [E|(ftp_pass & c3 & I3 & E)];
    [apply (Tail c2); [auto | now apply get_password_input_raises in E]|].
  assert (Sub3 : forall x, In x c3 -> In x c2).
  { apply get_password_input_ok in I3 as [->| ->]; [auto | intros x Hx; now right]. }
  destruct (is_empty ftp_pass); [discriminate|].
  apply con_bind_raises in E as [E|(path_line & c4 & I4 & E)];
    [apply (Tail c3); [auto | now apply input_raises in E]|].
  apply input_ok in I4 as ->.
  apply con_bind_raises in E as [E|(confirm_line & c5 & I5 & E)];
    [apply (Tail c4); [intros x Hx; apply Sub3; now right | now apply input_raises in E]|].
  destruct (negb (is_yes (strip (lower confirm_line)))); discriminate.
Qed.

(** What the dialog comes to, when it returns. *)
Lemma get_ftp_config_cases getpass c r c' :
  get_ftp_config getpass c = (Ok r, c') ->
  r = declined \/
  exists choice_line host_line user_line ftp_pass path_line confirm_line,
    is_yes (strip (lower choice_line)) = true /\
    is_empty (strip host_line) = false /\
    is_empty (strip user_line) = false /\
    is_empty ftp_pass = false /\
    is_yes (strip (lower confirm_line)) = true /\
    r = (true, Some (strip host_line, strip user_line, ftp_pass, remote_path_of path_line)) /\
    ((getpass = Ok ftp_pass /\
      c = Ok choice_line :: Ok host_line :: Ok user_line :: Ok path_line
            :: Ok confirm_line :: c') \/
     ((exists e, getpass = Raise e /\ is_Exception e = true) /\
      c = Ok choice_line :: Ok host_line :: Ok user_line :: Ok ftp_pass :: Ok path_line
            :: Ok confirm_line :: c')).
Proof.
  unfold get_ftp_config, input.
  destruct c as [|[choice_line|e] c].
  - cbn. intros E; inversion E; now left.
  - destruct (is_yes (strip (lower choice_line))) eqn:Ey; [|intros E; inversion E; now left].
    unfold con_try.
    destruct (ftp_prompts getpass c) as [[r0|e] c0] eqn:Ep.
    + intros E; inversion E; subst.
      destruct (ftp_prompts_cases _ _ _ _ Ep)
        as [->|(h & u & p & rp & cf & Hh & Hu & Hp & Hc & -> & Hs)]; [now left|].
      right. exists choice_line, h, u, p, rp, cf. repeat split; auto.
      destruct Hs as [[-> ->]|[He ->]]; [left|right]; auto.
    + destruct (is_abort e); [|discriminate].
      unfold con_ret. intros E; inversion E; now left.
  - destruct (is_abort e); [|discriminate].
    intros E; inversion E; now left.
Qed.

(** X12: whatever is typed, a result of the FTP dialog is either (False,
    None) or True with a complete configuration: server and user name
    non-empty and without whitespace at their ends, a non-empty password,
    and a remote path that is non-empty and without whitespace at its ends. *)
Theorem ftp_config_is_complete_or_absent
    (getpass : result str) (c c' : console) (flag : bool) (cfg : option ftp_target) :
  get_ftp_config getpass c = (Ok (flag, cfg), c') ->
  match cfg with
  | None => flag = false
  | Some (ftp_host, ftp_user, ftp_pass, remote_path) =>
      flag = true /\
      ftp_host <> [] /\ strip ftp_host = ftp_host /\
      ftp_user <> [] /\ strip ftp_user = ftp_user /\
      ftp_pass <> [] /\
      remote_path <> [] /\ strip remote_path = remote_path
  end.
Proof.
  intros E.
  destruct (get_ftp_config_cases _ _ _ _ E)
    as [D|(ch & h & u & p & rp & cf & _ & Hh & Hu & Hp & _ & R & _)].
  - inversion D; subst. reflexivity.
  - inversion R; subst.
    destruct (remote_path_of_shape rp) as [N S].
    repeat split; auto using is_empty_false, strip_idempotent.
Qed.

Lemma ftp_config_is_complete_or_absent_witness :
  get_ftp_config (Ok ("secret" : str))
    [Ok (" JA " : str); Ok (" ftp.example.com " : str); Ok ("bob" : str);
     Ok ("  " : str); Ok ("y" : str)]
  = (Ok (true, Some ("ftp.example.com" : str, "bob" : str, "secret" : str, "/" : str)), []) /\
  (true = true /\
   ("ftp.example.com" : str) <> [] /\ strip "ftp.example.com" = ("ftp.example.com" : str) /\
   ("bob" : str) <> [] /\ strip "bob" = ("bob" : str) /\
   ("secret" : str) <> [] /\
   ("/" : str) <> [] /\ strip "/" = ("/" : str)).
Proof.
  split; [reflexivity|].
  exact (ftp_config_is_complete_or_absent (Ok ("secret" : str))
           [Ok (" JA " : str); Ok (" ftp.example.com " : str); Ok ("bob" : str);
            Ok ("  " : str); Ok ("y" : str)] [] true
           (Some ("ftp.example.com" : str, "bob" : str, "secret" : str, "/" : str))
           eq_refl).
Defined.

Lemma get_ftp_config_returns getpass c :
  aborts_only c -> exists r c', get_ftp_config getpass c = (Ok r, c').
Proof.
  intros A. unfold get_ftp_config, input.
  destruct c as [|[choice_line|e] c].
  - cbn. eauto.
  - destruct (is_yes (strip (lower choice_line))); [|eauto].
    unfold con_try.
    destruct (ftp_prompts getpass c) as [[r0|e] c0] eqn:Ep; [eauto|].
    assert (Ab : is_abort e = true).
    { destruct (ftp_prompts_raises _ _ _ _ Ep) as [I|I]; [|exact I].
      apply A. now right. }
    rewrite Ab. unfold con_ret. eauto.
  - rewrite (A e) by now left. eauto.
Qed.

(** X13: when every prompt is answered, meets the end of the input or is
    interrupted, the FTP dialog returns a result and raises nothing,
    whatever the secure password prompt does; with no input at all the
    result is (False, None). *)
Theorem ftp_dialog_survives_aborts (getpass : result str) (c : console) :
  aborts_only c ->
  (exists r c', get_ftp_config getpass c = (Ok r, c')) /\
  (c = [] -> get_ftp_config getpass c = (Ok declined, [])).
Proof.
  intros A. split; [now apply get_ftp_config_returns | intros ->; reflexivity].
Qed.

Lemma ftp_dialog_survives_aborts_witness :
  aborts_only [Ok ("j" : str); Ok ("ftp.example.com" : str); Raise KeyboardInterrupt] /\
  (exists r c',
     get_ftp_config (Raise EOFError)
       [Ok ("j" : str); Ok ("ftp.example.com" : str); Raise KeyboardInterrupt] = (Ok r, c')).
Proof.
  assert (A : aborts_only
                [Ok ("j" : str); Ok ("ftp.example.com" : str); Raise KeyboardInterrupt]).
  { intros e [H|[H|[H|[]]]]; try discriminate. now inversion H. }
  split; [exact A|].
  exact (proj1 (ftp_dialog_survives_aborts (Raise EOFError)
                  [Ok ("j" : str); Ok ("ftp.example.com" : str); Raise KeyboardInterrupt] A)).
Defined.

(** X14: the FTP dialog returns a configuration only when both questions
    were answered with one of j, ja, y, yes, 1 (in any letter case, with
    whitespace around it) and every prompt was answered; the configuration
    is then the server and the user name with the whitespace at their ends
    removed, the password as it was typed, and the remote path with the
    whitespace at its ends removed, or / when nothing else was typed.  The
    password is read from the console only when the secure prompt has
    failed with an Exception. *)
Theorem ftp_config_needs_every_answer
    (getpass : result str) (c c' : console) (cfg : option ftp_target) :
  get_ftp_config getpass c = (Ok (true, cfg), c') ->
  exists choice_line host_line user_line ftp_pass path_line confirm_line,
    is_yes (strip (lower choice_line)) = true /\
    is_yes (strip (lower confirm_line)) = true /\
    cfg = Some (strip host_line, strip user_line, ftp_pass, remote_path_of path_line) /\
    ((getpass = Ok ftp_pass /\
      c = Ok choice_line :: Ok host_line :: Ok user_line :: Ok path_line
            :: Ok confirm_line :: c') \/
     ((exists e, getpass = Raise e /\ is_Exception e = true) /\
      c = Ok choice_line :: Ok host_line :: Ok user_line :: Ok ftp_pass :: Ok path_line
            :: Ok confirm_line :: c')).
Proof.
  intros E.
  destruct (get_ftp_config_cases _ _ _ _ E)
    as [D|(ch & h & u & p & rp & cf & Hc & _ & _ & _ & Hf & R & S)].
  - discriminate.
  - inversion R; subst. exists ch, h, u, p, rp, cf. auto.
Qed.

Lemma ftp_config_needs_every_answer_witness :
  exists choice_line host_line user_line ftp_pass path_line confirm_line,
    is_yes (strip (lower choice_line)) = true /\
    is_yes (strip (lower confirm_line)) = true /\
    Some ("host" : str, "bob" : str, " pw " : str, "/pub" : str)
      = Some (strip host_line, strip user_line, ftp_pass, remote_path_of path_line) /\
    ((Raise OSError = Ok ftp_pass /\
      [Ok ("Yes" : str); Ok ("host" : str); Ok ("bob" : str); Ok (" pw " : str);
       Ok ("/pub " : str); Ok ("1" : str); Ok ("left" : str)]
      = Ok choice_line :: Ok host_line :: Ok user_line :: Ok path_line
          :: Ok confirm_line :: [Ok ("left" : str)]) \/
     ((exists e, Raise OSError = Raise (A:=str) e /\ is_Exception e = true) /\
      [Ok ("Yes" : str); Ok ("host" : str); Ok ("bob" : str); Ok (" pw " : str);
       Ok ("/pub " : str); Ok ("1" : str); Ok ("left" : str)]
      = Ok choice_line :: Ok host_line :: Ok user_line :: Ok ftp_pass :: Ok path_line
          :: Ok confirm_line :: [Ok ("left" : str)])).
Proof.
  exact (ftp_config_needs_every_answer (Raise OSError)
           [Ok ("Yes" : str); Ok ("host" : str); Ok ("bob" : str); Ok (" pw " : str);
            Ok ("/pub " : str); Ok ("1" : str); Ok ("left" : str)]
           [Ok ("left" : str)]
           (Some ("host" : str, "bob" : str, " pw " : str, "/pub" : str))
           eq_refl).
Defined.

(** ** The download folder *)

Lemma first_writable_found w paths p :
  first_writable w paths = Ok (Some p) ->
  exists before after,
    paths = before ++ p :: after /\ probe w p = None /\ Forall (unwritable w) before.
Proof.
  induction paths as [|q paths IH]; cbn; [discriminate|].
  destruct (probe w q) as [e|] eqn:Eq.
  - destruct (is_OSError e) eqn:Eo; [|discriminate].
    intros E. destruct (IH E) as (before & after & -> & Hp & Hb).
    exists (q :: before), after. repeat split; auto.
    constructor; [exists e; auto | exact Hb].
  - intros E; inversion E; subst. exists [], paths. repeat split; auto.
Qed.

Lemma first_writable_none w paths :
  first_writable w paths = Ok None <-> Forall (unwritable w) paths.
Proof.
  induction paths as [|q paths IH]; cbn.
  - split; [constructor | reflexivity].
  - destruct (probe w q) as [e|] eqn:Eq.
    + destruct (is_OSError e) eqn:Eo.
      * rewrite IH. split.
        -- intros H. constructor; [exists e; auto | exact H].
        -- intros H. now inversion H.
      * split; [discriminate|].
        intros H. inversion H as [|? ? (e' & He' & Ho') ?]; subst. congruence.
    + split; [discriminate|].
      intros H. inversion H as [|? ? (e' & He' & Ho') ?]; subst. congruence.
Qed.

Lemma first_writable_raises w paths e :
  first_writable w paths = Raise e ->
  exists before q after,
    paths = before ++ q :: after /\ probe w q = Some e /\ is_OSError e = false /\
    Forall (unwritable w) before.
Proof.
  induction paths as [|q paths IH]; cbn; [discriminate|].
  destruct (probe w q) as [e0|] eqn:Eq; [|discriminate].
  destruct (is_OSError e0) eqn:Eo.
  - intros E. destruct (IH E) as (before & q' & after & -> & Hq & Ho & Hb).
    exists (q :: before), q', after. repeat split; auto.
    constructor; [exists e0; auto | exact Hb].
  - intros E; inversion E; subst. exists [], q, paths. repeat split; auto.
Qed.

(** X15: on Android or in Termux, when none of the five candidate folders
    passes the write test (each fails with an OSError), the function does
    not fall back to the current directory as its last lines would: it
    raises UnboundLocalError, because the loop over [paths] is reached with
    [paths] never assigned. *)
Theorem android_without_writable_folder_raises (w : platform_world) :
  is_android w || is_termux w = true ->
  Forall (unwritable w) (android_paths w) ->
  get_download_folder w = Raise UnboundLocalError.
Proof.
  intros A U. unfold get_download_folder. rewrite A.
  apply first_writable_none in U. now rewrite U.
Qed.

Lemma android_without_writable_folder_raises_witness :
  let w := {| system_name := "Linux"; path_exists := fun p => str_eqb p "/system/build.prop";
              environ := []; expanduser := fun p => p; getcwd := "/";
              path_join := join "/"; probe := fun _ => Some PermissionError;
              makedirs := fun _ => None |} in
  is_android w || is_termux w = true /\
  Forall (unwritable w) (android_paths w) /\
  get_download_folder w = Raise UnboundLocalError.
Proof.
  intros w.
  assert (A : is_android w || is_termux w = true) by reflexivity.
  assert (U : Forall (unwritable w) (android_paths w)).
  { repeat constructor; exists PermissionError; split; reflexivity. }
  exact (conj A (conj U (android_without_writable_folder_raises w A U))).
Defined.

(** X16: a folder the function returns is the first candidate of its
    platform that passes the write test, every candidate before it having
    failed the test with an OSError; or, outside Android and Termux only,
    when every candidate has failed so, it is the folder Vavoo-IPTV in the
    current directory if that can be created, and the current directory
    itself if not. *)
Theorem download_folder_is_first_writable (w : platform_world) (p : str) :
  get_download_folder w = Ok p ->
  (exists before after,
     candidates w = before ++ p :: after /\ probe w p = None /\
     Forall (unwritable w) before) \/
  (is_android w || is_termux w = false /\
   Forall (unwritable w) (desktop_paths w) /\
   p = fallback_folder w /\
   (p = path_join w [getcwd w; folder_name] /\
      makedirs w (path_join w [getcwd w; folder_name]) = None \/
    p = getcwd w /\ makedirs w (path_join w [getcwd w; folder_name]) <> None)).
Proof.
  unfold get_download_folder, candidates.
  destruct (is_android w || is_termux w).
  - destruct (first_writable w (android_paths w)) as [[q|]|e] eqn:F; try discriminate.
    intros E; inversion E; subst. left. now apply first_writable_found.
  - destruct (first_writable w (desktop_paths w)) as [[q|]|e] eqn:F; try discriminate.
    + intros E; inversion E; subst. left. now apply first_writable_found.
    + intros E; inversion E; subst. right.
      apply first_writable_none in F. repeat split; auto.
      unfold fallback_folder.
      destruct (makedirs w (path_join w [getcwd w; folder_name])) eqn:M;
        [right | left]; split; congruence.
Qed.

Lemma download_folder_is_first_writable_witness :
  let w := {| system_name := "Linux"; path_exists := fun _ => false;
              environ := [("USER" : str, "bob" : str)];
              expanduser := fun _ => "/home/bob"; getcwd := "/work";
              path_join := join "/";
              probe := fun p => if str_eqb p "/home/bob/downloads/Vavoo-IPTV"
                                then None else Some PermissionError;
              makedirs := fun _ => None |} in
  get_download_folder w = Ok ("/home/bob/downloads/Vavoo-IPTV" : str) /\
  ((exists before after,
      candidates w = before ++ ("/home/bob/downloads/Vavoo-IPTV" : str) :: after /\
      probe w "/home/bob/downloads/Vavoo-IPTV" = None /\
      Forall (unwritable w) before) \/
   (is_android w || is_termux w = false /\
    Forall (unwritable w) (desktop_paths w) /\
    ("/home/bob/downloads/Vavoo-IPTV" : str) = fallback_folder w /\
    (("/home/bob/downloads/Vavoo-IPTV" : str) = path_join w [getcwd w; folder_name] /\
       makedirs w (path_join w [getcwd w; folder_name]) = None \/
     ("/home/bob/downloads/Vavoo-IPTV" : str) = getcwd w /\
       makedirs w (path_join w [getcwd w; folder_name]) <> None))).
Proof.
  intros w. split; [reflexivity|].
  exact (download_folder_is_first_writable w "/home/bob/downloads/Vavoo-IPTV" eq_refl).
Defined.

(** X17: an error leaves the function in two ways only: it is the
    UnboundLocalError of the Android and Termux branch, every candidate
    there having failed the write test with an OSError; or it was raised by
    the write test of a candidate and is no OSError, every candidate before
    that one having failed with an OSError.  So outside Android and Termux
    a world whose write tests fail with OSErrors only always gets a
    folder. *)
Theorem download_folder_errors (w : platform_world) (e : exn) :
  get_download_folder w = Raise e ->
  (e = UnboundLocalError /\ is_android w || is_termux w = true /\
   Forall (unwritable w) (android_paths w)) \/
  (exists before q after,
     candidates w = before ++ q :: after /\ probe w q = Some e /\
     is_OSError e = false /\ Forall (unwritable w) before).
Proof.
  unfold get_download_folder, candidates.
  destruct (is_android w || is_termux w).
  - destruct (first_writable w (android_paths w)) as [[q|]|e0] eqn:F; try discriminate.
    + intros E; inversion E; subst. left.
      apply first_writable_none in F. auto.
    + intros E; inversion E; subst. right. now apply first_writable_raises.
  - destruct (first_writable w (desktop_paths w)) as [[q|]|e0] eqn:F; try discriminate.
    intros E; inversion E; subst. right. now apply first_writable_raises.
Qed.

Lemma download_folder_errors_witness :
  let w := {| system_name := "Windows"; path_exists := fun _ => false;
              environ := []; expanduser := fun _ => "C:/Users/bob"; getcwd := "C:/work";
              path_join := join "/";
              probe := fun p => if str_eqb p "/Downloads/Vavoo-IPTV"
                                then Some AttributeError else Some OSError;
              makedirs := fun _ => None |} in
  get_download_folder w = Raise AttributeError /\
  ((AttributeError = UnboundLocalError /\ is_android w || is_termux w = true /\
    Forall (unwritable w) (android_paths w)) \/
   (exists before q after,
      candidates w = before ++ q :: after /\ probe w q = Some AttributeError /\
      is_OSError AttributeError = false /\ Forall (unwritable w) before)).
Proof.
  intros w. split; [reflexivity|].
  exact (download_folder_errors w AttributeError eq_refl).
Defined.

(** ** The Termux commands *)

Lemma run_commands_all_started sh cmds :
  (forall argv e, subprocess_run sh argv = Failed e -> is_Exception e = true) ->
  run_commands sh cmds = (None, map words cmds).
Proof.
  intros H. induction cmds as [|cmd cmds IH]; cbn [run_commands map]; [reflexivity|].
  rewrite IH.
  destruct (subprocess_run sh (words cmd)) as [code| |e] eqn:R; try reflexivity.
  now rewrite (H _ _ R).
Qed.

Lemma execute_termux_commands_not_false w sh :
  fst (execute_termux_commands w sh) <> Ok false.
Proof.
  unfold execute_termux_commands.
  destruct (negb (is_termux w)); [discriminate|].
  destruct (negb (which sh "pkg")); [discriminate|].
  destruct (run_commands sh termux_commands) as [[e|] started]; [discriminate|].
  destruct (which sh "termux-setup-storage"); discriminate.
Qed.

(** X18: the system configuration never reports a failure: whatever the
    platform is and whatever the commands do, the function does not return
    False, so the exit that [main] attaches to that result cannot be
    taken.  Outside Termux, and where [pkg] is not found, it starts no
    command at all. *)
Theorem termux_setup_never_reports_failure (w : platform_world) (sh : shell_world) :
  fst (execute_termux_commands w sh) <> Ok false /\
  (is_termux w && which sh "pkg" = false ->
   execute_termux_commands w sh = (Ok true, [])).
Proof.
  split; [apply execute_termux_commands_not_false|].
  unfold execute_termux_commands.
  destruct (is_termux w); cbn [negb andb]; [|reflexivity].
  now intros ->.
Qed.

Lemma termux_setup_never_reports_failure_witness :
  let w := {| system_name := "Linux"; path_exists := fun _ => true;
              environ := []; expanduser := fun p => p; getcwd := "/";
              path_join := join "/"; probe := fun _ => None;
              makedirs := fun _ => None |} in
  let sh := {| which := fun _ => false; subprocess_run := fun _ => Exited 1 |} in
  is_termux w && which sh "pkg" = false /\
  execute_termux_commands w sh = (Ok true, []).
Proof.
  intros w sh.
  assert (H : is_termux w && which sh "pkg" = false) by reflexivity.
  exact (conj H (proj2 (termux_setup_never_reports_failure w sh) H)).
Defined.

(** X19: in Termux with [pkg] at hand, all five package commands are
    started, in their order and each split at its blanks, whatever the
    earlier ones came to (a return code that is not 0, a timeout, a missing
    command or any other Exception), followed by termux-setup-storage when
    that is found; and the function returns True. *)
Theorem termux_commands_all_started (w : platform_world) (sh : shell_world) :
  is_termux w = true ->
  which sh "pkg" = true ->
  (forall argv e, subprocess_run sh argv = Failed e -> is_Exception e = true) ->
  execute_termux_commands w sh =
    (Ok true,
     [ ["pkg" : str; "update" : str; "-y" : str];
       ["pkg" : str; "upgrade" : str; "-y" : str];
       ["pkg" : str; "install" : str; "python" : str; "-y" : str];
       ["pkg" : str; "install" : str; "curl" : str; "-y" : str];
       ["pkg" : str; "install" : str; "wget" : str; "-y" : str] ]
     ++ (if which sh "termux-setup-storage" then [["termux-setup-storage" : str]] else [])).
Proof.
  intros T P H. unfold execute_termux_commands. rewrite T, P. cbn [negb].
  rewrite (run_commands_all_started sh termux_commands H).
  change (map words termux_commands) with
    [ ["pkg" : str; "update" : str; "-y" : str];
      ["pkg" : str; "upgrade" : str; "-y" : str];
      ["pkg" : str; "install" : str; "python" : str; "-y" : str];
      ["pkg" : str; "install" : str; "curl" : str; "-y" : str];
      ["pkg" : str; "install" : str; "wget" : str; "-y" : str] ].
  destruct (which sh "termux-setup-storage"); [reflexivity|].
  now rewrite app_nil_r.
Qed.

Lemma termux_commands_all_started_witness :
  let w := {| system_name := "Linux"; path_exists := fun _ => false;
              environ := [("PREFIX" : str, "/data/data/com.termux/files/usr" : str)];
              expanduser := fun p => p; getcwd := "/";
              path_join := join "/"; probe := fun _ => None;
              makedirs := fun _ => None |} in
  let sh := {| which := fun cmd => str_eqb cmd "pkg";
               subprocess_run := fun argv =>
                 if str_eqb (join " " argv) "pkg update -y" then Failed PermissionError
                 else if str_eqb (join " " argv) "pkg upgrade -y" then TimedOut
                 else Exited 1 |} in
  execute_termux_commands w sh =
    (Ok true,
     [ ["pkg" : str; "update" : str; "-y" : str];
       ["pkg" : str; "upgrade" : str; "-y" : str];
       ["pkg" : str; "install" : str; "python" : str; "-y" : str];
       ["pkg" : str; "install" : str; "curl" : str; "-y" : str];
       ["pkg" : str; "install" : str; "wget" : str; "-y" : str] ]
     ++ (if which sh "termux-setup-storage" then [["termux-setup-storage" : str]] else [])).
Proof.
  intros w sh.
  apply (termux_commands_all_started w sh); [reflexivity | reflexivity |].
  intros argv e. cbn [subprocess_run sh].
  destruct (str_eqb (join " " argv) "pkg update -y");
    [intros E; inversion E; reflexivity|].
  destruct (str_eqb (join " " argv) "pkg upgrade -y"); discriminate.
Defined.

(** ** The module check *)

Lemma missing_modules_builtins mw modules :
  (forall m e, import_module mw m <> ImportRaises e) ->
  Forall (fun m : str * option str => snd m = None) modules ->
  missing_modules mw modules = Ok [].
Proof.
  intros N F. induction F as [|[module_name pip_name] modules H F IH]; [reflexivity|].
  cbn in H. subst pip_name. cbn [missing_modules]. rewrite IH.
  destruct (import_module mw module_name) as [| |e] eqn:I; try reflexivity.
  now destruct (N _ _ I).
Qed.

Lemma missing_modules_required mw :
  (forall m e, import_module mw m <> ImportRaises e) ->
  missing_modules mw required_modules =
    Ok (match import_module mw "requests" with
        | ImportError => ["requests" : str]
        | _ => []
        end).
Proof.
  intros N. unfold required_modules.
  match goal with
  | |- missing_modules mw (_ :: ?t) = _ =>
      assert (B : missing_modules mw t = Ok [])
        by (apply missing_modules_builtins; [exact N | repeat constructor]);
      set (builtins := t) in *; clearbody builtins
  end.
  cbn [missing_modules]. rewrite B.
  destruct (import_module mw "requests") as [| |e] eqn:I; try reflexivity.
  now destruct (N _ _ I).
Qed.

(** X20: when [requests] can be imported, the check returns True and
    starts no command, whichever of the built-in modules fail to import
    with an ImportError: a missing built-in module is reported and nothing
    else. *)
Theorem builtins_never_fail_the_check (mw : module_world) :
  import_module mw "requests" = Imported ->
  (forall m e, import_module mw m <> ImportRaises e) ->
  check_and_install_modules mw = (Ok true, []).
Proof.
  intros R N. unfold check_and_install_modules.
  rewrite (missing_modules_required mw N), R. reflexivity.
Qed.

Lemma builtins_never_fail_the_check_witness :
  let mw := {| import_module := fun m => if str_eqb m "requests" then Imported else ImportError;
               sys_executable := "/usr/bin/python3";
               check_call := fun _ => Exited 1 |} in
  check_and_install_modules mw = (Ok true, []).
Proof.
  intros mw.
  apply (builtins_never_fail_the_check mw); [reflexivity|].
  intros m e. cbn [import_module mw]. destruct (str_eqb m "requests"); discriminate.
Defined.

Lemma in_removelast {A} (x : A) l : In x (removelast l) -> In x l.
Proof.
  induction l as [|a l IH]; cbn; [auto|].
  destruct l as [|b l]; [intros []|].
  intros [->|H]; [now left | right; now apply IH].
Qed.

Lemma try_executables_spec mw module exes a started :
  try_executables mw module exes = (a, started) ->
  (exists rest, map (fun python_exe => pip_command python_exe module) exes = started ++ rest /\
                (a = NotInstalled -> rest = [])) /\
  (forall cmd, In cmd (removelast started) -> check_call mw cmd <> Exited 0) /\
  match a with
  | Installed => started <> [] /\ check_call mw (last started []) = Exited 0
  | NotInstalled => forall cmd, In cmd started -> check_call mw cmd <> Exited 0
  | GaveUp => started <> [] /\ check_call mw (last started []) <> Exited 0
  | Escapes e =>
      started <> [] /\ check_call mw (last started []) = Failed e /\ is_Exception e = false
  end.
Proof.
  revert a started. induction exes as [|python_exe exes IH]; intros a started.
  - cbn. intros E; inversion E; subst. split; [exists []; auto|]. split; intros cmd [].
  - cbn [try_executables map].
    set (cmd := pip_command python_exe module).
    assert (Next : (let (a0, started0) := try_executables mw module exes in
                    (a0, cmd :: started0)) = (a, started) ->
                   check_call mw cmd <> Exited 0 ->
                   (exists rest, cmd :: map (fun x => pip_command x module) exes = started ++ rest /\
                                 (a = NotInstalled -> rest = [])) /\
                   (forall c, In c (removelast started) -> check_call mw c <> Exited 0) /\
                   match a with
                   | Installed => started <> [] /\ check_call mw (last started []) = Exited 0
                   | NotInstalled => forall c, In c started -> check_call mw c <> Exited 0
                   | GaveUp => started <> [] /\ check_call mw (last started []) <> Exited 0
                   | Escapes e =>
                       started <> [] /\ check_call mw (last started []) = Failed e /\
                       is_Exception e = false
                   end).
    { destruct (try_executables mw module exes) as [a0 started0] eqn:T.
      intros E Hc; inversion E; subst.
      destruct (IH _ _ eq_refl) as ((rest & Hm & Hr) & Hb & Ha).
      assert (All : (forall c, In c started0 -> check_call mw c <> Exited 0) ->
                    forall c, In c (cmd :: started0) -> check_call mw c <> Exited 0).
      { intros H c [<-|Hi]; auto. }
      assert (Rm : forall c, In c (removelast (cmd :: started0)) ->
                             check_call mw c <> Exited 0).
      { intros c Hi. destruct started0 as [|b l]; [destruct Hi|].
        change (removelast (cmd :: b :: l)) with (cmd :: removelast (b :: l)) in Hi.
        destruct Hi as [<-|Hi]; auto. }
      split; [exists rest; split; [rewrite Hm; reflexivity | exact Hr]|].
      split; [exact Rm|].
      destruct a; try (destruct Ha as [Hn Ha]; split; [discriminate|];
                       destruct started0; [now destruct Hn | exact Ha]).
      now apply All. }
    assert (Stop : forall a0, a0 <> NotInstalled ->
              (a0, [cmd]) = (a, started) ->
              (exists rest, cmd :: map (fun x => pip_command x module) exes = started ++ rest /\
                            (a = NotInstalled -> rest = [])) /\
              (forall c, In c (removelast started) -> check_call mw c <> Exited 0)).
    { intros a0 Hn E; inversion E; subst. split; [|intros c []].
      exists (map (fun x => pip_command x module) exes). split; [reflexivity|]. now intros. }
    destruct (check_call mw cmd) as [code| |e] eqn:C.
    + destruct (Z.eqb code 0) eqn:Z0.
      * intros E. destruct (Stop Installed ltac:(discriminate) E) as [S1 S2].
        inversion E; subst. repeat split; auto; [discriminate|].
        cbn. apply Z.eqb_eq in Z0. now subst.
      * intros E. apply Next; [exact E|].
        intros H; inversion H; subst. discriminate.
    + intros E. destruct (Stop GaveUp ltac:(discriminate) E) as [S1 S2].
      inversion E; subst. repeat split; auto; [discriminate|].
      cbn. rewrite C. discriminate.
    + destruct e;
        try (intros E; apply Next; [exact E | discriminate]);
        cbn [is_Exception];
        intros E;
        (destruct (Stop a ltac:(inversion E; discriminate) ltac:(inversion E; reflexivity))
           as [S1 S2]);
        inversion E; subst; repeat split; auto; try discriminate;
        cbn; rewrite C; discriminate.
Qed.

Lemma install_module_spec mw module r started :
  install_module mw module = (r, started) ->
  started <> [] /\
  (exists rest, install_commands mw module = started ++ rest) /\
  (forall cmd, In cmd (removelast started) -> check_call mw cmd <> Exited 0) /\
  (r = Ok true <-> check_call mw (last started []) = Exited 0) /\
  (forall e, r = Raise e ->
     check_call mw (last started []) = Failed e /\ is_Exception e = false).
Proof.
  unfold install_module, install_commands.
  destruct (try_executables mw module (python_executables mw)) as [a started0] eqn:T.
  destruct (try_executables_spec _ _ _ _ _ T) as ((rest & Hm & Hr) & Hb & Ha).
  destruct a.
  - intros E; inversion E; subst. destruct Ha as [Hn Hl].
    split; [exact Hn|]. split; [exists (rest ++ [pip_fallback_command module]);
                                rewrite Hm, app_assoc; reflexivity|].
    split; [exact Hb|]. split; [tauto | discriminate].
  - rewrite (Hr eq_refl), app_nil_r in Hm.
    assert (Shape : forall r0,
              (r0 = Ok true <-> check_call mw (pip_fallback_command module) = Exited 0) ->
              (forall e, r0 <> Raise e) ->
              (r0, started0 ++ [pip_fallback_command module]) = (r, started) ->
              started <> [] /\
              (exists rest0, map (fun x => pip_command x module) (python_executables mw)
                             ++ [pip_fallback_command module] = started ++ rest0) /\
              (forall cmd, In cmd (removelast started) -> check_call mw cmd <> Exited 0) /\
              (r = Ok true <-> check_call mw (last started []) = Exited 0) /\
              (forall e, r = Raise e ->
                 check_call mw (last started []) = Failed e /\ is_Exception e = false)).
    { intros r0 Hiff Hne E. injection E as <- <-.
      split; [intros H; apply app_eq_nil in H as [_ H]; discriminate|].
      split; [exists []; rewrite Hm, app_nil_r; reflexivity|].
      rewrite removelast_last, last_last.
      split; [exact Ha|]. split; [exact Hiff|].
      intros e He. now destruct (Hne e). }
    destruct (check_call mw (pip_fallback_command module)) as [code| |e] eqn:C.
    + apply Shape; [|discriminate].
      destruct (Z.eqb code 0) eqn:Z0.
      * apply Z.eqb_eq in Z0. subst. tauto.
      * split; [discriminate|]. intros H; inversion H; subst. discriminate.
    + apply Shape; [|discriminate]. split; discriminate.
    + apply Shape; [|discriminate]. split; discriminate.
  - intros E; inversion E; subst. destruct Ha as [Hn Hl].
    split; [exact Hn|]. split; [exists (rest ++ [pip_fallback_command module]);
                                rewrite Hm, app_assoc; reflexivity|].
    split; [exact Hb|]. split; [|discriminate].
    split; [discriminate | intros H; now destruct Hl].
  - intros E; inversion E; subst. destruct Ha as (Hn & Hl & He).
    split; [exact Hn|]. split; [exists (rest ++ [pip_fallback_command module]);
                                rewrite Hm, app_assoc; reflexivity|].
    split; [exact Hb|]. split.
    + split; [discriminate | intros H; rewrite H in Hl; discriminate].
    + intros e0 H0; inversion H0; subst. auto.
Qed.

(** X21: when [requests] is missing, the check starts the installation
    commands in their order (the running interpreter, python3, python, py,
    then pip itself) and stops at the first that ends with return code 0:
    the commands started are a non-empty beginning of that list, none but
    the last of them has ended with 0, and the check returns True exactly
    when the last has.  An error leaves the check only when an interpreter
    command has raised something that is no Exception. *)
Theorem install_stops_at_first_success
    (mw : module_world) (r : result bool) (started : list (list str)) :
  import_module mw "requests" = ImportError ->
  (forall m e, import_module mw m <> ImportRaises e) ->
  check_and_install_modules mw = (r, started) ->
  started <> [] /\
  (exists rest, install_commands mw "requests" = started ++ rest) /\
  (forall cmd, In cmd (removelast started) -> check_call mw cmd <> Exited 0) /\
  (r = Ok true <-> check_call mw (last started []) = Exited 0) /\
  (forall e, r = Raise e ->
     check_call mw (last started []) = Failed e /\ is_Exception e = false).
Proof.
  intros R N. unfold check_and_install_modules.
  rewrite (missing_modules_required mw N), R. cbn [install_modules].
  destruct (install_module mw "requests") as [r0 started0] eqn:I.
  assert (E : (r0, started0) = (r, started) -> install_module mw "requests" = (r, started))
    by (intros <-; exact I).
  destruct r0 as [[|]|e].
  - rewrite app_nil_r. intros H. apply install_module_spec. auto.
  - intros H. apply install_module_spec. auto.
  - intros H. apply install_module_spec. auto.
Qed.

Lemma install_stops_at_first_success_witness :
  let mw := {| import_module := fun m => if str_eqb m "requests" then ImportError else Imported;
               sys_executable := "/usr/bin/python3";
               check_call := fun argv =>
                 if str_eqb (join " " argv) "python -m pip install --upgrade requests"
                 then Exited 0
                 else if str_eqb (join " " argv) "python3 -m pip install --upgrade requests"
                 then Failed FileNotFoundError
                 else Exited 1 |} in
  let started := [ pip_command "/usr/bin/python3" "requests";
                   pip_command "python3" "requests";
                   pip_command "python" "requests" ] in
  check_and_install_modules mw = (Ok true, started) /\
  (started <> [] /\
   (exists rest, install_commands mw "requests" = started ++ rest) /\
   (forall cmd, In cmd (removelast started) -> check_call mw cmd <> Exited 0) /\
   (Ok true = Ok true <-> check_call mw (last started []) = Exited 0) /\
   (forall e, Ok true = Raise e ->
      check_call mw (last started []) = Failed e /\ is_Exception e = false)).
Proof.
  intros mw started. split; [reflexivity|].
  apply (install_stops_at_first_success mw (Ok true) started); [reflexivity | | reflexivity].
  intros m e. cbn [import_module mw]. destruct (str_eqb m "requests"); discriminate.
Defined.

(** ** The script as a whole *)

Lemma handlers_not_exit e : handlers e <> Exit1.
Proof. unfold handlers. destruct (is_Exception e); discriminate. Qed.

Lemma execute_termux_commands_returns w sh :
  (forall argv e, subprocess_run sh argv = Failed e -> is_Exception e = true) ->
  fst (execute_termux_commands w sh) = Ok true.
Proof.
  intros H. unfold execute_termux_commands.
  destruct (negb (is_termux w)); [reflexivity|].
  destruct (negb (which sh "pkg")); [reflexivity|].
  rewrite (run_commands_all_started sh termux_commands H).
  destruct (which sh "termux-setup-storage"); reflexivity.
Qed.

(** X22: the script ends with exit code 1 in one case only: the module
    check has returned False and the prompt before the exit was answered.
    The exit after the system configuration is never taken, and no error
    of a later step ends the script that way. *)
Theorem exit_1_means_module_install_failed
    basename ftp mw w sh getpass response fs_error (c : console) :
  script basename ftp mw w sh getpass response fs_error c = Exit1 <->
  fst (check_and_install_modules mw) = Ok false /\ exists line rest, c = Ok line :: rest.
Proof.
  unfold script.
  assert (P : press_enter_and_exit c = Exit1 <-> exists line rest, c = Ok line :: rest).
  { unfold press_enter_and_exit, input. destruct c as [|[line|e] rest].
    - split; [intros H; now destruct (handlers_not_exit _ H) | intros (l & r & H); discriminate].
    - split; [eauto | reflexivity].
    - split; [intros H; now destruct (handlers_not_exit _ H)
             | intros (l & r & H); discriminate]. }
  destruct (fst (check_and_install_modules mw)) as [[|]|e].
  - split; [|intros [H _]; discriminate].
    pose proof (execute_termux_commands_not_false w sh) as NF.
    destruct (fst (execute_termux_commands w sh)) as [[|]|e].
    + destruct (get_ftp_config getpass c) as [[[upload_enabled ftp_config]|e] c'].
      * destruct (get_download_folder w) as [download_folder|e].
        -- destruct (main basename ftp response fs_error _ upload_enabled ftp_config)
             as [r|e]; [discriminate|].
           intros H; now destruct (handlers_not_exit _ H).
        -- intros H; now destruct (handlers_not_exit _ H).
      * intros H; now destruct (handlers_not_exit _ H).
    + now destruct NF.
    + intros H; now destruct (handlers_not_exit _ H).
  - rewrite P. tauto.
  - split; [intros H; now destruct (handlers_not_exit _ H) | intros [H _]; discriminate].
Qed.

(** X23: on Android or in Termux, when none of the five candidate folders
    passes the write test, a script whose earlier steps went through ends
    with the message for an unexpected error, the UnboundLocalError of the
    folder search: the catalog is not asked for and no playlist is written,
    whatever the server would have sent. *)
Theorem android_run_without_folder_ends_unexpected
    basename ftp mw w sh getpass response fs_error (c : console) :
  fst (check_and_install_modules mw) = Ok true ->
  (forall argv e, subprocess_run sh argv = Failed e -> is_Exception e = true) ->
  aborts_only c ->
  is_android w || is_termux w = true ->
  Forall (unwritable w) (android_paths w) ->
  script basename ftp mw w sh getpass response fs_error c = Unexpected UnboundLocalError.
Proof.
  intros M S A D U. unfold script.
  rewrite M, (execute_termux_commands_returns w sh S).
  destruct (get_ftp_config_returns getpass c A) as ([upload_enabled ftp_config] & c' & ->).
  unfold get_download_folder. rewrite D.
  apply first_writable_none in U. rewrite U. reflexivity.
Qed.

Lemma android_run_without_folder_ends_unexpected_witness :
  let mw := {| import_module := fun _ => Imported; sys_executable := "python3";
               check_call := fun _ => Exited 0 |} in
  let w := {| system_name := "Linux"; path_exists := fun p => str_eqb p "/system/build.prop";
              environ := []; expanduser := fun p => p; getcwd := "/";
              path_join := join "/"; probe := fun _ => Some PermissionError;
              makedirs := fun _ => None |} in
  let sh := {| which := fun _ => false; subprocess_run := fun _ => Exited 0 |} in
  script (fun p => p) no_such_dir_world mw w sh (Ok ("pw" : str)) (Ok (PList [])) None
    [Ok ("n" : str)] = Unexpected UnboundLocalError.
Proof.
  intros mw w sh.
  apply (android_run_without_folder_ends_unexpected
           (fun p => p) no_such_dir_world mw w sh (Ok ("pw" : str)) (Ok (PList [])) None
           [Ok ("n" : str)]).
  - reflexivity.
  - intros argv e. discriminate.
  - intros e [H|[]]. discriminate.
  - reflexivity.
  - repeat constructor; exists PermissionError; split; reflexivity.
Defined.

Lemma exit_1_means_module_install_failed_witness :
  let mw := {| import_module := fun _ => ImportError; sys_executable := "python3";
               check_call := fun _ => Exited 1 |} in
  let w := {| system_name := "Linux"; path_exists := fun _ => false;
              environ := []; expanduser := fun p => p; getcwd := "/";
              path_join := join "/"; probe := fun _ => None;
              makedirs := fun _ => None |} in
  let sh := {| which := fun _ => false; subprocess_run := fun _ => Exited 0 |} in
  script (fun p => p) no_such_dir_world mw w sh (Ok ("pw" : str)) (Ok (PList [])) None
    [Ok ("" : str)] = Exit1.
Proof.
  intros mw w sh.
  apply (proj2 (exit_1_means_module_install_failed
                  (fun p => p) no_such_dir_world mw w sh (Ok ("pw" : str)) (Ok (PList [])) None
                  [Ok ("" : str)])).
  split; [reflexivity|]. exists ("" : str), []. reflexivity.
Defined.

Lemma main_upload_started
    basename ftp response fs_error m3u8_file_path upload_enabled ftp_config r :
  main basename ftp response fs_error m3u8_file_path upload_enabled ftp_config = Ok r ->
  upload_started r = true ->
  upload_enabled = true /\ ftp_config <> None /\ playlist_file r <> None.
Proof.
  unfold main. destruct (download_json_from_url response) as [channels|e]; [|discriminate].
  unfold main_playlist.
  destruct channels as [| | | |l|]; try (intros E; inversion E; subst; discriminate).
  destruct (truthy (PList l)); [|intros E; inversion E; subst; discriminate].
  destruct (convert_json_to_m3u8 fs_error l) as [[|] file] eqn:C;
    [|intros E; inversion E; subst; discriminate].
  destruct (convert_true_has_file _ _ _ C) as (_ & content & ->).
  destruct upload_enabled; [|intros E; inversion E; subst; discriminate].
  destruct ftp_config as [[[[h u] p] rp]|]; [|intros E; inversion E; subst; discriminate].
  destruct (upload_to_ftp basename ftp m3u8_file_path h u p rp) as [[|]|e];
    intros E; inversion E; subst; cbn; repeat split; discriminate.
Qed.

(** X24: the script starts an upload only after the user has answered
    both questions of the FTP dialog with one of j, ja, y, yes, 1 and every
    prompt between them, and after the playlist file has been written:
    the console input begins with those answers, the password among them
    only when the secure prompt has failed. *)
Theorem upload_needs_consent_and_a_playlist
    basename ftp mw w sh getpass response fs_error (c : console) (r : run) :
  script basename ftp mw w sh getpass response fs_error c = Ended r ->
  upload_started r = true ->
  playlist_file r <> None /\
  exists choice_line host_line user_line ftp_pass path_line confirm_line rest,
    is_yes (strip (lower choice_line)) = true /\
    is_yes (strip (lower confirm_line)) = true /\
    ((getpass = Ok ftp_pass /\
      c = Ok choice_line :: Ok host_line :: Ok user_line :: Ok path_line
            :: Ok confirm_line :: rest) \/
     ((exists e, getpass = Raise e /\ is_Exception e = true) /\
      c = Ok choice_line :: Ok host_line :: Ok user_line :: Ok ftp_pass :: Ok path_line
            :: Ok confirm_line :: rest)).
Proof.
  unfold script.
  assert (H : forall e, handlers e <> Ended r)
    by (intros e; unfold handlers; destruct (is_Exception e); discriminate).
  assert (P : press_enter_and_exit c <> Ended r).
  { unfold press_enter_and_exit. destruct (input c) as [[line|e] c0]; [discriminate | apply H]. }
  destruct (fst (check_and_install_modules mw)) as [[|]|e];
    [|intros E; now destruct P | intros E; now destruct (H e)].
  destruct (fst (execute_termux_commands w sh)) as [[|]|e];
    [|intros E; now destruct P | intros E; now destruct (H e)].
  destruct (get_ftp_config getpass c) as [[[upload_enabled ftp_config]|e] c'] eqn:G;
    [|intros E; now destruct (H e)].
  destruct (get_download_folder w) as [download_folder|e]; [|intros E; now destruct (H e)].
  destruct (main basename ftp response fs_error _ upload_enabled ftp_config) as [r0|e] eqn:M;
    [|intros E; now destruct (H e)].
  intros E U. inversion E; subst r0.
  destruct (main_upload_started _ _ _ _ _ _ _ _ M U) as (-> & Hcfg & Hfile).
  split; [exact Hfile|].
  destruct (get_ftp_config_cases _ _ _ _ G)
    as [D|(ch & h & u & p & rp & cf & Hc & _ & _ & _ & Hf & _ & S)].
  - discriminate.
  - exists ch, h, u, p, rp, cf, c'. auto.
Qed.

Lemma upload_needs_consent_and_a_playlist_witness :
  let mw := {| import_module := fun _ => Imported; sys_executable := "python3";
               check_call := fun _ => Exited 0 |} in
  let w := {| system_name := "Linux"; path_exists := fun _ => false;
              environ := []; expanduser := fun p => p; getcwd := "/";
              path_join := join "/"; probe := fun _ => None;
              makedirs := fun _ => None |} in
  let sh := {| which := fun _ => false; subprocess_run := fun _ => Exited 0 |} in
  let c := [Ok ("j" : str); Ok ("ftp.example.com" : str); Ok ("bob" : str);
            Ok ("" : str); Ok ("ja" : str)] in
  let r := {| playlist_file := Some (unlines (header_line :: entry_lines ProSieben));
              upload_started := true; report := MsgUploaded |} in
  script (fun p => p) no_such_dir_world mw w sh (Ok ("pw" : str)) (Ok (PList [ProSieben])) None c
    = Ended r /\
  playlist_file r <> None.
Proof.
  intros mw w sh c r.
  assert (E : script (fun p => p) no_such_dir_world mw w sh (Ok ("pw" : str))
                (Ok (PList [ProSieben])) None c = Ended r) by (vm_compute; reflexivity).
  split; [exact E|].
  exact (proj1 (upload_needs_consent_and_a_playlist
                  (fun p => p) no_such_dir_world mw w sh (Ok ("pw" : str))
                  (Ok (PList [ProSieben])) None c r E eq_refl)).
Defined.

(** * The converter and the download with every step able to fail *)

(** ** Where nothing fails, the loop is the loop of the pipeline *)

Lemma disk_state_eta (st : Faults.disk_state) :
  {| Faults.loop := Faults.loop st; Faults.writes := Faults.writes st + 0 |} = st.
Proof. destruct st. cbn. now rewrite Nat.add_0_r. Qed.

Lemma write_text_ok fw line st :
  Faults.write_error fw (Faults.writes st) = None ->
  Faults.write_text fw line st =
    ({| Faults.loop := fst (write_line line (Faults.loop st));
        Faults.writes := S (Faults.writes st) |}, Ok tt).
Proof. intros H. unfold Faults.write_text. now rewrite H. Qed.

Lemma write_text_fails fw line st e :
  Faults.write_error fw (Faults.writes st) = Some e ->
  Faults.write_text fw line st =
    ({| Faults.loop := Faults.loop st; Faults.writes := S (Faults.writes st) |}, Raise e).
Proof. intros H. unfold Faults.write_text. now rewrite H. Qed.

(** The body of the loop up to the first write. *)
Lemma record_body_start fw channel st :
  Faults.record_body fw channel st =
    match channel with
    | PDict d =>
        let st1 := {| Faults.loop := {| written := written (Faults.loop st);
                                        processed_channels := processed_channels (Faults.loop st);
                                        original_name := Some (channel_name d) |};
                      Faults.writes := Faults.writes st |} in
        match get_channel_url (channel_id d) (channel_name d) with
        | Ok url =>
            Faults.bind_D (Faults.write_text fw user_agent_line) (fun _ =>
            Faults.bind_D (Faults.write_text fw referrer_line) (fun _ =>
            Faults.bind_D (Faults.write_text fw
                             (extinf_line (py_str (channel_country d))
                                (clean_channel_name (channel_name d)))) (fun _ =>
            Faults.bind_D (Faults.write_text fw url) (fun _ =>
            Faults.of_loop count_channel)))) st1
        | Raise e => (st1, Raise e)
        end
    | _ => (st, Raise AttributeError)
    end.
Proof.
  destruct st as [l n]. destruct channel as [| | | | |d]; reflexivity.
Qed.

Lemma channel_body_start channel l :
  channel_body channel l =
    match channel with
    | PDict d =>
        match get_channel_url (channel_id d) (channel_name d) with
        | Ok url =>
            ({| written := written l ++ unlines (entry_lines (PDict d));
                processed_channels := S (processed_channels l);
                original_name := Some (channel_name d) |}, Ok tt)
        | Raise e =>
            ({| written := written l; processed_channels := processed_channels l;
                original_name := Some (channel_name d) |}, Raise e)
        end
    | _ => (l, Raise AttributeError)
    end.
Proof.
  destruct channel as [| | | | |d]; try reflexivity.
  destruct (get_channel_url (channel_id d) (channel_name d)) as [url|e] eqn:E.
  - now rewrite (channel_body_ok d url l E).
  - unfold channel_body, bind, lift, channel_get.
    fold (channel_country d) (channel_id d) (channel_name d). rewrite E.
    reflexivity.
Qed.

Lemma record_body_sound fw channel st :
  (forall n, Faults.writes st <= n -> Faults.write_error fw n = None) ->
  exists k,
    Faults.record_body fw channel st =
      ({| Faults.loop := fst (channel_body channel (Faults.loop st));
          Faults.writes := Faults.writes st + k |},
       snd (channel_body channel (Faults.loop st))) /\
    k + 4 * processed_channels (Faults.loop st) =
      4 * processed_channels (fst (channel_body channel (Faults.loop st))).
Proof.
  intros H. rewrite record_body_start, channel_body_start.
  destruct channel as [| | | | |d];
    try (exists 0; cbn [fst snd]; now rewrite disk_state_eta).
  destruct (get_channel_url (channel_id d) (channel_name d)) as [url|e] eqn:E.
  - exists 4. cbv zeta. unfold Faults.bind_D.
    rewrite write_text_ok by (apply H; cbn; lia).
    rewrite write_text_ok by (apply H; cbn; lia).
    rewrite write_text_ok by (apply H; cbn; lia).
    rewrite write_text_ok by (apply H; cbn; lia).
    unfold Faults.of_loop, count_channel, write_line, entry_lines. rewrite E.
    destruct st as [[w p o] n].
    cbv beta iota delta [Faults.loop Faults.writes fst snd written processed_channels
                         original_name].
    rewrite unlines_four, !app_assoc.
    replace (n + 4) with (S (S (S (S n)))) by lia.
    split; [reflexivity | lia].
  - exists 0. cbv zeta. cbn [fst snd processed_channels]. now rewrite Nat.add_0_r.
Qed.

Lemma channel_handler_state l : fst (channel_handler l) = l.
Proof. unfold channel_handler. now destruct (original_name l). Qed.

Lemma try_record_sound fw channel st :
  (forall n, Faults.writes st <= n -> Faults.write_error fw n = None) ->
  exists k,
    Faults.try_record (Faults.record_body fw channel) (Faults.of_loop channel_handler) st =
      ({| Faults.loop := fst (try_except (channel_body channel) channel_handler (Faults.loop st));
          Faults.writes := Faults.writes st + k |},
       snd (try_except (channel_body channel) channel_handler (Faults.loop st))) /\
    k + 4 * processed_channels (Faults.loop st) =
      4 * processed_channels
            (fst (try_except (channel_body channel) channel_handler (Faults.loop st))).
Proof.
  intros H. destruct (record_body_sound fw channel st H) as (k & E & P).
  exists k. unfold Faults.try_record, try_except. rewrite E.
  destruct (channel_body channel (Faults.loop st)) as [l [[]|e]]; cbn [fst snd] in *;
    [now split|].
  destruct (is_Exception e); [|now split].
  unfold Faults.of_loop. cbn [Faults.loop Faults.writes].
  pose proof (channel_handler_state l) as Hl.
  destruct (channel_handler l) as [l' r]. cbn [fst snd] in *. subst l'. now split.
Qed.

Lemma for_records_sound fw channels : forall st,
  (forall n, Faults.writes st <= n -> Faults.write_error fw n = None) ->
  exists k,
    Faults.for_records fw channels st =
      ({| Faults.loop := fst (for_channels channels (Faults.loop st));
          Faults.writes := Faults.writes st + k |},
       snd (for_channels channels (Faults.loop st))) /\
    k + 4 * processed_channels (Faults.loop st) =
      4 * processed_channels (fst (for_channels channels (Faults.loop st))).
Proof.
  induction channels as [|channel rest IH]; intros st H.
  - exists 0. cbn. now rewrite disk_state_eta.
  - destruct (try_record_sound fw channel st H) as (k1 & E1 & P1).
    cbn [Faults.for_records for_channels]. unfold Faults.bind_D at 1, bind at 1 2 3.
    rewrite E1.
    destruct (try_except (channel_body channel) channel_handler (Faults.loop st))
      as [l1 [[]|e]]; cbn [fst snd] in *.
    + destruct (IH {| Faults.loop := l1; Faults.writes := Faults.writes st + k1 |})
        as (k2 & E2 & P2).
      { cbn [Faults.writes]. intros n Hn. apply H. lia. }
      exists (k1 + k2). rewrite E2. cbn [Faults.loop Faults.writes] in *.
      rewrite Nat.add_assoc. split; [reflexivity | lia].
    + exists k1. now split.
Qed.



(** ** The file where nothing fails *)






(** ** Which records are written *)






(** ** A write that raises *)

Lemma unlines_app a b : unlines (a ++ b) = unlines a ++ unlines b.
Proof. unfold unlines. apply flat_map_app. Qed.

Lemma fails_at_later k e n : k < n -> Faults.write_error (Faults.fails_at k e) n = None.
Proof.
  intros H. cbn. destruct (Nat.eqb_spec n k); [lia | reflexivity].
Qed.

(** The round of the loop on a mapping whose write number [k] of the four
    raises an [Exception]: the lines before it are in the file, the record
    is not counted, and the loop goes on. *)
Lemma try_record_partial d url k e w p o :
  get_channel_url (channel_id d) (channel_name d) = Ok url ->
  1 <= k <= 4 ->
  is_Exception e = true ->
  Faults.try_record (Faults.record_body (Faults.fails_at k e) (PDict d))
    (Faults.of_loop channel_handler)
    {| Faults.loop := {| written := w; processed_channels := p; original_name := o |};
       Faults.writes := 1 |} =
  ({| Faults.loop :=
        {| written := w ++ unlines (firstn (k - 1) (entry_lines (PDict d)));
           processed_channels := p;
           original_name := Some (channel_name d) |};
      Faults.writes := S k |}, Ok tt).
Proof.
  intros E Hk He. unfold Faults.try_record. rewrite record_body_start. cbv zeta.
  unfold entry_lines. rewrite E. unfold Faults.bind_D.
  assert (Ck : k = 1 \/ k = 2 \/ k = 3 \/ k = 4) by lia.
  destruct Ck as [->|[->|[->| ->]]];
    repeat (rewrite write_text_ok by reflexivity);
    rewrite (write_text_fails _ _ _ e) by reflexivity;
    rewrite He;
    unfold Faults.of_loop, channel_handler, unlines;
    cbn [Faults.loop Faults.writes fst snd write_line written processed_channels
         original_name flat_map Nat.sub firstn];
    rewrite ?app_nil_r, ?app_assoc; reflexivity.
Qed.

(** X26: an entry is not written as a whole.  When the write number k of
    the four writes of the first record raises an Exception (and nothing
    else fails), the k - 1 lines before it stay in the file, the record is
    not counted, the loop goes on with the records after it, and the
    function returns True. *)
Theorem failed_write_leaves_a_partial_entry
    (d : list (str * pyvalue)) (url : str) (rest : list pyvalue) (k : nat) (e : exn) :
  get_channel_url (channel_id d) (channel_name d) = Ok url ->
  1 <= k <= 4 ->
  is_Exception e = true ->
  Faults.convert_json_to_m3u8 (Faults.fails_at k e) (PDict d :: rest) =
    (Ok true,
     Some (unlines (header_line ::
                    firstn (k - 1) (entry_lines (PDict d)) ++ flat_map entry_lines rest))) /\
  processed_channels
    (Faults.loop (fst (Faults.write_playlist (Faults.fails_at k e) (PDict d :: rest))))
    = length (filter serializes rest).
Proof.
  intros E Hk He.
  assert (W : exists n,
    Faults.write_playlist (Faults.fails_at k e) (PDict d :: rest) =
      ({| Faults.loop :=
            {| written := unlines (header_line ::
                                   firstn (k - 1) (entry_lines (PDict d)) ++
                                   flat_map entry_lines rest);
               processed_channels := length (filter serializes rest);
               original_name := original_name
                 (fst (for_channels rest
                         {| written := (header_line ++ [nl]) ++
                                       unlines (firstn (k - 1) (entry_lines (PDict d)));
                            processed_channels := 0;
                            original_name := Some (channel_name d) |})) |};
          Faults.writes := n |}, Ok tt)).
  { unfold Faults.write_playlist. unfold Faults.bind_D at 1.
    rewrite write_text_ok
      by (destruct k; [lia | reflexivity]).
    cbn [Faults.for_records]. unfold Faults.bind_D at 1.
    cbn [write_line initial_state fst Faults.loop Faults.writes written processed_channels
         original_name app].
    rewrite (try_record_partial d url k e _ _ _ E Hk He).
    set (l1 := {| written := (header_line ++ [nl]) ++
                             unlines (firstn (k - 1) (entry_lines (PDict d)));
                  processed_channels := 0;
                  original_name := Some (channel_name d) |}).
    destruct (for_records_sound (Faults.fails_at k e) rest
                {| Faults.loop := l1; Faults.writes := S k |}) as (k2 & E2 & _).
    { cbn [Faults.writes]. intros n Hn. apply fails_at_later. lia. }
    rewrite E2. cbn [Faults.loop Faults.writes].
    destruct (for_channels_bound rest l1 (channel_name d) eq_refl) as (l2 & F2 & W2 & P2).
    rewrite F2. cbn [fst snd]. exists (S k + k2). f_equal. f_equal.
    destruct l2 as [w2 p2 o2]. cbn [written processed_channels original_name] in *.
    subst w2 p2. f_equal.
    change (unlines (header_line :: ?x)) with ((header_line ++ [nl]) ++ unlines x).
    now rewrite unlines_app, app_assoc. }
  destruct W as (n & W). split.
  - unfold Faults.convert_json_to_m3u8. cbn [Faults.open_error Faults.fails_at].
    rewrite W. reflexivity.
  - rewrite W. reflexivity.
Qed.

Lemma failed_write_leaves_a_partial_entry_witness :
  Faults.convert_json_to_m3u8 (Faults.fails_at 3 OSError) [ProSieben; blank_record] =
    (Ok true,
     Some (unlines [header_line; user_agent_line; referrer_line;
                    user_agent_line; referrer_line;
                    extinf_line "" "Unbekannter Kanal"; placeholder_url])) /\
  processed_channels
    (Faults.loop (fst (Faults.write_playlist (Faults.fails_at 3 OSError)
                         [ProSieben; blank_record]))) = 1.
Proof.
  exact (failed_write_leaves_a_partial_entry
           [("id" : str, PStr "123"); ("name" : str, PStr "ProSieben HD|E");
            ("country" : str, PStr "Germany")]
           "https://huhu.to/play/123/index.m3u8" [blank_record] 3 OSError
           eq_refl (conj (le_S _ _ (le_S _ _ (le_n 1))) (le_S _ _ (le_n 3))) eq_refl).
Defined.

(** ** The run where every error is an [Exception] *)

Lemma record_body_raises fw channel st st' e :
  Faults.record_body fw channel st = (st', Raise e) ->
  e = AttributeError \/ exists n, Faults.write_error fw n = Some e.
Proof.
  rewrite record_body_start.
  destruct channel as [| | | | |d]; try (intros H; inversion H; now left).
  cbv zeta.
  destruct (get_channel_url (channel_id d) (channel_name d)) as [url|e0] eqn:E.
  - unfold Faults.bind_D, Faults.write_text, Faults.of_loop.
    cbn [Faults.loop Faults.writes].
    repeat match goal with
           | |- context [Faults.write_error fw ?n] =>
               let W := fresh "W" in
               destruct (Faults.write_error fw n) as [?e|] eqn:W;
                 [intros H; inversion H; subst; right; eauto|]
           end.
    discriminate.
  - intros H; inversion H; subst. left.
    now destruct (get_channel_url_raises _ _ _ E).
Qed.

Lemma for_records_raises fw channels : forall st st' e,
  (forall n e0, Faults.write_error fw n = Some e0 -> is_Exception e0 = true) ->
  Faults.for_records fw channels st = (st', Raise e) ->
  is_Exception e = true.
Proof.
  induction channels as [|channel rest IH]; intros st st' e Hw; [discriminate|].
  cbn [Faults.for_records]. unfold Faults.bind_D at 1, Faults.try_record.
  destruct (Faults.record_body fw channel st) as [st1 [[]|e1]] eqn:B.
  - now apply IH.
  - assert (He1 : is_Exception e1 = true).
    { destruct (record_body_raises _ _ _ _ _ B) as [->|(n & Hn)]; [reflexivity | eauto]. }
    rewrite He1. unfold Faults.of_loop, channel_handler.
    destruct (original_name (Faults.loop st1)).
    + now apply IH.
    + intros H; inversion H. reflexivity.
Qed.

Lemma convert_returns fw channels :
  Faults.file_raises_exceptions_only fw ->
  exists flag file, Faults.convert_json_to_m3u8 fw channels = (Ok flag, file).
Proof.
  intros (Ho & Hw & Hc). unfold Faults.convert_json_to_m3u8.
  destruct (Faults.open_error fw) as [e|] eqn:O.
  - cbn. rewrite (Ho e eq_refl). eauto.
  - destruct (Faults.write_playlist fw channels) as [st body] eqn:W.
    assert (Hb : forall e, Faults.close_file fw body = Raise e -> is_Exception e = true).
    { unfold Faults.close_file. destruct (Faults.close_error fw) as [e0|] eqn:C.
      - intros e H; inversion H; subst. now apply Hc.
      - intros e ->. revert W. unfold Faults.write_playlist, Faults.bind_D at 1.
        unfold Faults.write_text at 1. cbn [Faults.writes].
        destruct (Faults.write_error fw 0) as [e0|] eqn:W0.
        + intros H; inversion H; subst. eauto.
        + intros H. now apply (for_records_raises fw channels _ _ _ Hw H). }
    destruct (Faults.close_file fw body) as [[]|e]; cbn; [eauto|].
    rewrite (Hb e eq_refl). eauto.
Qed.

Lemma upload_returns basename world im file_path ftp_host ftp_user ftp_pass remote_path :
  raises_exceptions_only world ->
  Faults.import_ftplib im = None ->
  (forall e, Faults.import_socket im = Some e -> is_Exception e = true) ->
  exists flag,
    Faults.upload_to_ftp basename world im file_path ftp_host ftp_user ftp_pass remote_path
      = Ok flag.
Proof.
  intros Hw Hf Hs. unfold Faults.upload_to_ftp, Faults.ftp_upload. rewrite Hf.
  destruct (Faults.import_socket im) as [e|].
  - rewrite (Hs e eq_refl). eauto.
  - rewrite (upload_result basename world Hw). eauto.
Qed.

(** X11: where the three imports succeed (or [import socket] fails with an
    Exception) and the download, the playlist file and the server raise
    nothing but Exceptions, the part of [main] from the download on raises
    nothing: it ends with one of its reports.  Where the import of
    [requests] fails, it is left by the UnboundLocalError of the download,
    whatever the file and the server would do. *)
Theorem run_ends_with_a_report
    basename world fw im response m3u8_file_path upload_enabled ftp_config :
  raises_exceptions_only world ->
  Faults.file_raises_exceptions_only fw ->
  only_exceptions response ->
  (Faults.import_requests im = None ->
   Faults.import_ftplib im = None ->
   (forall e, Faults.import_socket im = Some e -> is_Exception e = true) ->
   exists r,
     Faults.main basename world fw im response m3u8_file_path upload_enabled ftp_config
       = Ok r) /\
  (Faults.import_requests im <> None ->
   Faults.main basename world fw im response m3u8_file_path upload_enabled ftp_config
     = Raise UnboundLocalError).
Proof.
  intros Hw Hf Hr. split.
  - intros Ir If Is. unfold Faults.main, Faults.download_json_from_url. rewrite Ir.
    assert (P : forall channels, exists r,
              match channels with
              | PList l =>
                  if truthy channels then
                    match Faults.convert_json_to_m3u8 fw l with
                    | (Raise e, _) => Raise e
                    | (Ok true, file) =>
                        match upload_enabled, ftp_config with
                        | true, Some (ftp_host, ftp_user, ftp_pass, remote_path) =>
                            match Faults.upload_to_ftp basename world im m3u8_file_path
                                    ftp_host ftp_user ftp_pass remote_path with
                            | Ok true =>
                                Ok {| playlist_file := file; upload_started := true;
                                      report := MsgUploaded |}
                            | Ok false =>
                                Ok {| playlist_file := file; upload_started := true;
                                      report := MsgUploadFailed |}
                            | Raise e => Raise e
                            end
                        | _, _ =>
                            Ok {| playlist_file := file; upload_started := false;
                                  report := MsgSavedNoUpload |}
                        end
                    | (Ok false, file) =>
                        Ok {| playlist_file := file; upload_started := false;
                              report := MsgConvertFailed |}
                    end
                  else
                    Ok {| playlist_file := None; upload_started := false;
                          report := MsgLoadFailed |}
              | _ => Ok {| playlist_file := None; upload_started := false;
                           report := MsgLoadFailed |}
              end = Ok r).
    { intros channels. destruct channels as [| | | |l|]; eauto.
      destruct (truthy (PList l)); eauto.
      destruct (convert_returns fw l Hf) as (flag & file & ->).
      destruct flag; eauto.
      destruct upload_enabled; eauto.
      destruct ftp_config as [[[[h u] p] rp]|]; eauto.
      destruct (upload_returns basename world im m3u8_file_path h u p rp Hw If Is)
        as (flag & ->).
      destruct flag; eauto. }
    destruct response as [v|e]; [exact (P v)|].
    rewrite (Hr e eq_refl). exact (P PNone).
  - intros Ir. unfold Faults.main, Faults.download_json_from_url.
    destruct (Faults.import_requests im); [reflexivity | congruence].
Qed.

Lemma run_ends_with_a_report_witness :
  raises_exceptions_only no_such_dir_world /\
  Faults.file_raises_exceptions_only (Faults.fails_at 0 PermissionError) /\
  only_exceptions (Ok (PList [ProSieben])) /\
  exists r,
    Faults.main (fun p => p) no_such_dir_world (Faults.fails_at 0 PermissionError)
      Faults.all_imported (Ok (PList [ProSieben])) "Vavoo-IPTV.m3u8" true None = Ok r.
Proof.
  assert (W : raises_exceptions_only no_such_dir_world).
  { repeat split; intros; try discriminate;
      match goal with
      | H : cwd no_such_dir_world _ = Some _ |- _ => inversion H; reflexivity
      end. }
  assert (F : Faults.file_raises_exceptions_only (Faults.fails_at 0 PermissionError)).
  { repeat split; try discriminate.
    intros n e. cbn. destruct (n =? 0); [intros H; inversion H; reflexivity | discriminate]. }
  assert (R : only_exceptions (Ok (PList [ProSieben]))) by (intros e H; discriminate H).
  split; [exact W|]. split; [exact F|]. split; [exact R|].
  refine (proj1 (run_ends_with_a_report (fun p => p) no_such_dir_world
                   (Faults.fails_at 0 PermissionError) Faults.all_imported
                   (Ok (PList [ProSieben])) "Vavoo-IPTV.m3u8" true None W F R)
            eq_refl eq_refl _).
  intros e H. discriminate H.
Defined.
